(** * Reference-location engine and shell environments of devbox

    A shallow embedding of [internal/patchpkg/search.go] ([searchFile],
    [searchEnv], [searchGlobs], [globEscape] and [reRemovedRefs]) and of the
    functions on environments of [internal/devbox/envvars.go] ([exportify],
    [exportifyElvish], [addEnvIfNotPreviouslySetByDevbox] and
    [markEnvsAsSetByDevbox]), together with the pieces of the Go runtime and
    standard library they call (UTF-8 decoding and encoding,
    [io.LimitedReader], [io.ReadAll], the match loop of [regexp],
    [strings.Cut], [strings.TrimSpace]). *)

From Stdlib Require Import ZArith Lia Bool List.
From Stdlib Require Import Strings.String Strings.Ascii Strings.Byte.
From stdpp Require Import base option list gmap strings sorting.

Local Open Scope Z_scope.

(** * The program *)

(** ** Bytes, strings and runes

    A Go [string] is an immutable sequence of bytes and is modelled as
    [string]; a [[]byte] is a [list byte].  [bytesOf] is the conversion
    [[]byte(s)] and [stringOf] the conversion [string(b)]. *)

Module Go.

Definition bytesOf (s : string) : list byte := list_byte_of_string s.
Definition stringOf (b : list byte) : string := string_of_list_byte b.

(** The numeric value of a byte, and Go's truncating conversion [byte(x)]. *)
Definition byteZ (b : byte) : Z := Z.of_N (Byte.to_N b).
Definition toByte (z : Z) : byte :=
  match Byte.of_N (Z.to_N (z mod 256)) with
  | Some b => b
  | None => x00
  end.

Definition rune := Z.

End Go.

Import Go.

(** ** UTF-8 ([runtime/utf8.go] and [unicode/utf8]) *)

Module utf8.

Definition RuneError : rune := 0xFFFD.
Definition RuneSelf : Z := 0x80.
Definition MaxRune : rune := 0x10FFFF.
Definition surrogateMin : rune := 0xD800.
Definition surrogateMax : rune := 0xDFFF.

Definition t1 : Z := 0x00.
Definition tx : Z := 0x80.
Definition t2 : Z := 0xC0.
Definition t3 : Z := 0xE0.
Definition t4 : Z := 0xF0.
Definition t5 : Z := 0xF8.

Definition maskx : Z := 0x3F.
Definition mask2 : Z := 0x1F.
Definition mask3 : Z := 0x0F.
Definition mask4 : Z := 0x07.

Definition rune1Max : rune := 0x7F.
Definition rune2Max : rune := 0x7FF.
Definition rune3Max : rune := 0xFFFF.

Definition locb : Z := 0x80.
Definition hicb : Z := 0xBF.

(** [locb <= c && c <= hicb]: [c] is a continuation byte. *)
Definition isCont (c : byte) : bool := (locb <=? byteZ c) && (byteZ c <=? hicb).

(** [decoderune(s, k)] on the suffix [s[k:]]: the rune that starts there and
    the number of bytes it occupies.  An encoding that is truncated,
    overlong, a surrogate or out of range decodes to [RuneError] with
    width 1. *)
Definition decoderune (s : list byte) : rune * nat :=
  match s with
  | [] => (RuneError, 1%nat)
  | s0 :: rest =>
    if (t2 <=? byteZ s0) && (byteZ s0 <? t3) then
      match rest with
      | s1 :: _ =>
        if isCont s1 then
          let r := Z.lor (Z.shiftl (Z.land (byteZ s0) mask2) 6)
                         (Z.land (byteZ s1) maskx) in
          if rune1Max <? r then (r, 2%nat) else (RuneError, 1%nat)
        else (RuneError, 1%nat)
      | _ => (RuneError, 1%nat)
      end
    else if (t3 <=? byteZ s0) && (byteZ s0 <? t4) then
      match rest with
      | s1 :: s2 :: _ =>
        if isCont s1 && isCont s2 then
          let r := Z.lor (Z.lor (Z.shiftl (Z.land (byteZ s0) mask3) 12)
                                (Z.shiftl (Z.land (byteZ s1) maskx) 6))
                         (Z.land (byteZ s2) maskx) in
          if (rune2Max <? r) && negb ((surrogateMin <=? r) && (r <=? surrogateMax))
          then (r, 3%nat) else (RuneError, 1%nat)
        else (RuneError, 1%nat)
      | _ => (RuneError, 1%nat)
      end
    else if (t4 <=? byteZ s0) && (byteZ s0 <? t5) then
      match rest with
      | s1 :: s2 :: s3 :: _ =>
        if isCont s1 && isCont s2 && isCont s3 then
          let r := Z.lor (Z.lor (Z.lor (Z.shiftl (Z.land (byteZ s0) mask4) 18)
                                       (Z.shiftl (Z.land (byteZ s1) maskx) 12))
                                (Z.shiftl (Z.land (byteZ s2) maskx) 6))
                         (Z.land (byteZ s3) maskx) in
          if (rune3Max <? r) && (r <=? MaxRune)
          then (r, 4%nat) else (RuneError, 1%nat)
        else (RuneError, 1%nat)
      | _ => (RuneError, 1%nat)
      end
    else (RuneError, 1%nat)
  end.

(** One step of [for _, r := range s] (and of [regexp]'s [inputBytes.step]):
    an ASCII byte is its own rune, anything else goes through the decoder.
    At the end of the input the width is 0. *)
Definition step (s : list byte) : rune * nat :=
  match s with
  | [] => (-1, 0%nat)
  | c :: _ => if byteZ c <? RuneSelf then (byteZ c, 1%nat) else decoderune s
  end.

(** The runes visited by [for _, r := range s].  [skip] counts the bytes of
    the current rune that are still to be passed over. *)
Fixpoint rangeFrom (skip : nat) (s : list byte) : list rune :=
  match s with
  | [] => []
  | _ :: rest =>
    match skip with
    | S k => rangeFrom k rest
    | O => let '(r, w) := step s in r :: rangeFrom (w - 1) rest
    end
  end.

Definition range (s : string) : list rune := rangeFrom 0 (bytesOf s).

(** [utf8.AppendRune(p, r)], with [appendRuneNonASCII] inlined.  [uint32(r)]
    makes a negative rune large, so it falls to the default case. *)
Definition AppendRune (p : list byte) (r : rune) : list byte :=
  let i := r mod 2 ^ 32 in
  if i <=? rune1Max then p ++ [toByte r]
  else if i <=? rune2Max then
    p ++ [toByte (Z.lor t2 (byteZ (toByte (Z.shiftr r 6))));
          toByte (Z.lor tx (Z.land (byteZ (toByte r)) maskx))]
  else if (i <? surrogateMin) || ((surrogateMax <? i) && (i <=? rune3Max)) then
    p ++ [toByte (Z.lor t3 (byteZ (toByte (Z.shiftr r 12))));
          toByte (Z.lor tx (Z.land (byteZ (toByte (Z.shiftr r 6))) maskx));
          toByte (Z.lor tx (Z.land (byteZ (toByte r)) maskx))]
  else if (rune3Max <? i) && (i <=? MaxRune) then
    p ++ [toByte (Z.lor t4 (byteZ (toByte (Z.shiftr r 18))));
          toByte (Z.lor tx (Z.land (byteZ (toByte (Z.shiftr r 12))) maskx));
          toByte (Z.lor tx (Z.land (byteZ (toByte (Z.shiftr r 6))) maskx));
          toByte (Z.lor tx (Z.land (byteZ (toByte r)) maskx))]
  else p ++ [xef; xbf; xbd].

End utf8.

(** ** [globEscape] *)

(** [strings.ContainsAny(s, chars)] for a [chars] made of ASCII characters:
    some byte of [s] is one of them. *)
Definition ContainsAny (s : string) (chars : list byte) : bool :=
  existsb (fun c => existsb (Byte.eqb c) chars) (bytesOf s).

Definition metaChars : list byte := ["*"; "?"; "\"; "["]%byte.

(** The [switch r { case '*', '?', '\\', '[': ... }] test. *)
Definition isMeta (r : rune) : bool :=
  (r =? 42) || (r =? 63) || (r =? 92) || (r =? 91).

(** The body of the [for _, r := range s] loop. *)
Definition escapeRune (b : list byte) (r : rune) : list byte :=
  let b := if isMeta r then b ++ ["\"%byte] else b in
  utf8.AppendRune b r.

(** The slow path: the loop over the runes of [s]. *)
Definition globEscapeSlow (s : string) : string :=
  stringOf (fold_left escapeRune (utf8.range s) []).

Definition globEscape (s : string) : string :=
  if negb (ContainsAny s metaChars) then s
  else globEscapeSlow s.

(** ** Readers ([io/fs], [io.LimitedReader], [io.ReadAll]) *)

Inductive error : Type :=
  | EOF
  | ErrNotExist
  | ErrPermission
  | ErrIO (msg : string).

(** An open file as a reader: the bytes still to be delivered, the way the
    stream ends once they are delivered ([None]: end of file, [Some e]: the
    read fails with [e]), and the largest number of bytes a single [Read]
    hands out, less one. *)
Record File : Type := mkFile {
  pending : list byte;
  failure : option error;
  chunk : nat
}.

(** [fs.FS]: [Open] either fails or gives a file. *)
Definition FS : Type := string → error + File.

(** [f.Read(p)] with [len(p) = n]: the bytes read, the error and the file
    afterwards. *)
Definition File_Read (f : File) (n : nat) : list byte * option error * File :=
  match n with
  | O => ([], None, f)
  | S _ =>
    match pending f with
    | [] => ([], Some (default EOF (failure f)), f)
    | _ :: _ =>
      let k := Nat.min n (S (chunk f)) in
      (take k (pending f), None,
       mkFile (drop k (pending f)) (failure f) (chunk f))
    end
  end.

Record LimitedReader : Type := mkLimited {
  R : File;
  N : Z
}.

(** [(l *LimitedReader).Read(p)] with [len(p) = n]. *)
Definition LimitedReader_Read (l : LimitedReader) (n : nat)
  : list byte * option error * LimitedReader :=
  if N l <=? 0 then ([], Some EOF, l)
  else
    let n := if N l <? Z.of_nat n then Z.to_nat (N l) else n in
    let '(data, err, f) := File_Read (R l) n in
    (data, err, mkLimited f (N l - Z.of_nat (length data))).

(** The capacity [append] picks when the buffer is full (the rounding up to
    an allocation size class is left out). *)
Definition growCap (cap : nat) : nat :=
  if (cap <? 256)%nat then (2 * cap + 1)%nat
  else (cap + (cap + 768) / 4)%nat.

(** The loop of [io.ReadAll]: [b] is the buffer filled so far, [cap] its
    capacity.  [None] when [fuel] iterations were not enough. *)
Fixpoint ReadAllLoop (fuel : nat) (r : LimitedReader) (b : list byte) (cap : nat)
  : option (list byte * option error) :=
  match fuel with
  | O => None
  | S fuel =>
    let '(data, err, r) := LimitedReader_Read r (cap - length b) in
    let b := b ++ data in
    match err with
    | Some e =>
      Some (b, match e with EOF => None | _ => Some e end)
    | None =>
      let cap := if (length b =? cap)%nat then growCap cap else cap in
      ReadAllLoop fuel r b cap
    end
  end.

(** [io.ReadAll(r)].  Every iteration but the last one reads at least one
    byte, so one more iteration than there are pending bytes is enough
    ([ReadAllLoop_limited] below). *)
Definition ReadAll (r : LimitedReader) : list byte * option error :=
  default ([], Some (ErrIO "no progress"))
          (ReadAllLoop (S (length (pending (R r)))) r [] 512).

(** ** [regexp] *)

(** A compiled pattern, as far as this package uses one.  [doExecute b pos]
    is the leftmost match of the pattern in [b] that starts at or after
    [pos], as the pair of its start and end.  The two laws are those of a
    leftmost search: the match lies in [b] at or after [pos], and searching
    again from where it starts finds it again. *)
Record Regexp : Type := mkRegexp {
  doExecute : list byte → nat → option (nat * nat);
  doExecute_bounds : ∀ b pos m0 m1,
    doExecute b pos = Some (m0, m1) →
    (pos ≤ m0 ∧ m0 ≤ m1 ∧ m1 ≤ length b)%nat;
  doExecute_restart : ∀ b pos m0 m1,
    doExecute b pos = Some (m0, m1) →
    doExecute b m0 = Some (m0, m1)
}.

(** The loop of [(re *Regexp).allMatches]: [i] counts the matches delivered,
    [n] bounds them. *)
Fixpoint allMatchesLoop (re : Regexp) (b : list byte) (n : nat) (fuel : nat)
    (pos i : nat) (prevMatchEnd : Z) : option (list (nat * nat)) :=
  if negb ((i <? n)%nat && (pos <=? length b)%nat) then Some []
  else
    match fuel with
    | O => None
    | S fuel =>
      match doExecute re b pos with
      | None => Some []
      | Some (m0, m1) =>
        let '(accept, pos') :=
          if (m1 =? pos)%nat then
            (* an empty match: not allowed right after a previous match *)
            (negb (Z.of_nat m0 =? prevMatchEnd),
             let width := snd (utf8.step (drop pos b)) in
             if (0 <? width)%nat then (pos + width)%nat
             else (length b + 1)%nat)
          else (true, m1) in
        rest ← allMatchesLoop re b n fuel pos'
                 (if accept then S i else i) (Z.of_nat m1);
        Some (if accept then (m0, m1) :: rest else rest)
      end
    end.

(** [re.FindAllIndex(b, n)] for [n < 0].  Every iteration of the loop moves
    [pos] forward, so [length b + 1] iterations are enough
    ([FindAllIndex_loop] below). *)
Definition FindAllIndex (re : Regexp) (b : list byte) : list (nat * nat) :=
  default [] (allMatchesLoop re b (length b + 1) (length b + 1) 0 0 (-1)).

(** [re.FindString(s)]. *)
Definition FindString (re : Regexp) (s : string) : string :=
  match doExecute re (bytesOf s) 0 with
  | None => ""
  | Some (a0, a1) => stringOf (take (a1 - a0) (drop a0 (bytesOf s)))
  end.

(** ** [searchFile] *)

Definition maxFileSize : Z := Z.shiftl 1 30.

Record fileSlice : Type := mkFileSlice {
  path : string;
  data : list byte;
  offset : Z
}.

(** The body of [for i := range locs]: the slice for one match. *)
Definition sliceOf (path : string) (data : list byte) (loc : nat * nat)
  : fileSlice :=
  let '(start, end_) := loc in
  mkFileSlice path (take (end_ - start) (drop start data)) (Z.of_nat start).

(** [searchFile(fsys, path, re)]; the deferred [f.Close()] does not bear on
    what is returned and is left out. *)
Definition searchFile (fsys : FS) (path : string) (re : Regexp)
  : list fileSlice * option error :=
  match fsys path with
  | inl err => ([], Some err)
  | inr f =>
    let r := mkLimited f maxFileSize in
    let '(data, err) := ReadAll r in
    match err with
    | Some err => ([], Some err)
    | None =>
      let locs := FindAllIndex re data in
      if (length locs =? 0)%nat then ([], None)
      else (map (sliceOf path data) locs, None)
    end
  end.

(** ** [searchEnv] *)

(** [strings.Cut(s, sep)]. *)
Definition Cut (s sep : string) : string * string * bool :=
  match String.index 0 sep s with
  | Some i =>
    (substring 0 i s,
     substring (i + String.length sep)
               (String.length s - (i + String.length sep)) s,
     true)
  | None => (s, ""%string, false)
  end.

(** [envValues]: the values of [os.Environ()]; [environ] is the process
    environment at the first call. *)
Definition envValues (environ : list string) : list string :=
  map (λ e, let '(_, value, _) := Cut e "=" in value) environ.

Fixpoint searchEnvLoop (re : Regexp) (values : list string) : string :=
  match values with
  | [] => ""
  | env :: values =>
    let match_ := FindString re env in
    if negb (String.eqb match_ "") then match_
    else searchEnvLoop re values
  end.

Definition searchEnv (re : Regexp) (environ : list string) : string :=
  searchEnvLoop re (envValues environ).

(** ** The pattern [reRemovedRefs]

    The part of [regexp/syntax] the pattern is written in, and a backtracking
    matcher for it with the leftmost-first semantics of [regexp]. *)

Inductive syntax : Type :=
  | Literal (r : rune)
  | CharClass (negated : bool) (rs : list rune)
  | Concat (re1 re2 : syntax)
  | Repeat (n : nat) (re : syntax)
  | Star (re : syntax)
  | Plus (re : syntax).

(** Consume one rune that satisfies [p]. *)
Definition stepIf (p : rune → bool) (s : list byte)
    (k : list byte → option nat) : option nat :=
  let '(r, w) := utf8.step s in
  if (0 <? w)%nat && p r then k (drop w s) else None.

(** Greedy iteration: after one match of the body, more iterations are
    preferred to leaving the loop. *)
Fixpoint plusLoop (fuel : nat)
    (body : list byte → (list byte → option nat) → option nat)
    (s : list byte) (k : list byte → option nat) : option nat :=
  match fuel with
  | O => None
  | S fuel =>
    body s (λ s',
      match (if (length s' <? length s)%nat then plusLoop fuel body s' k
             else None) with
      | Some e => Some e
      | None => k s'
      end)
  end.

(** [matchHere re s k]: match [re] at the head of [s] and pass what is left
    to [k]; the first success in priority order wins. *)
Fixpoint matchHere (re : syntax) (s : list byte)
    (k : list byte → option nat) : option nat :=
  match re with
  | Literal c => stepIf (Z.eqb c) s k
  | CharClass negated rs =>
    stepIf (λ r, xorb negated (existsb (Z.eqb r) rs)) s k
  | Concat re1 re2 => matchHere re1 s (λ s', matchHere re2 s' k)
  | Repeat n re1 => Nat.iter n (λ k' s', matchHere re1 s' k') k s
  | Star re1 =>
    match plusLoop (S (length s)) (matchHere re1) s k with
    | Some e => Some e
    | None => k s
    end
  | Plus re1 => plusLoop (S (length s)) (matchHere re1) s k
  end.

(** The unanchored search: try each rune boundary from [pos] on; [s] is
    [b[pos:]] and [skip] the number of bytes left of the rune being passed
    over. *)
Fixpoint search (re : syntax) (b : list byte) (pos skip : nat) (s : list byte)
  : option (nat * nat) :=
  match skip with
  | S skip =>
    match s with
    | [] => None
    | _ :: s' => search re b (S pos) skip s'
    end
  | O =>
    match matchHere re s (λ rest, Some (length rest)) with
    | Some rem => Some (pos, (length b - rem)%nat)
    | None =>
      match s with
      | [] => None
      | _ :: s' => search re b (S pos) (snd (utf8.step s) - 1) s'
      end
    end
  end.

Definition execute (re : syntax) (b : list byte) (pos : nat)
  : option (nat * nat) :=
  if (pos <=? length b)%nat then search re b pos 0 (drop pos b) else None.

(** The runes the class of the pattern lists: dollar, double quote, single
    quote, the braces, slash, the square brackets, space, tab, carriage
    return and line feed. *)
Definition removedRefsClass : list rune :=
  [36; 34; 39; 123; 125; 47; 91; 93; 32; 9; 13; 10].

(** The pattern: 32 times the letter e, a hyphen, and one or more runes
    outside the class. *)
Definition removedRefsSyntax : syntax :=
  Concat (Repeat 32 (Literal 101))
    (Concat (Literal 45) (Plus (CharClass true removedRefsClass))).

(** ** [searchGlobs] *)

(** The file system as [filepath.Glob] sees it: the paths a pattern matches,
    or [None] for [ErrBadPattern]. *)
Definition Globber : Type := string → option (list string).

(** What an iteration does to the outside: calls of [filepath.Glob] and
    calls of [yield], in the order they happen. *)
Inductive event : Type :=
  | GlobCall (pattern : string)
  | Yield (path : string).

(** The maps allocated so far, and the log of events. *)
Record World : Type := mkWorld {
  heap : list (gmap string bool);
  log : list event
}.

(** The closure [searchGlobs] returns: it captures [patterns] and a reference
    to the map [seen]. *)
Record Seq : Type := mkSeq {
  seqPatterns : list string;
  seqSeen : nat
}.

(** [seen[match]] and [seen[match] = true] through the reference. *)
Definition seenGet (w : World) (ref : nat) (key : string) : bool :=
  default false (default ∅ (heap w !! ref) !! key).

Definition seenSet (w : World) (ref : nat) (key : string) : World :=
  mkWorld (<[ref := <[key := true]> (default ∅ (heap w !! ref))]> (heap w))
          (log w).

Definition emit (w : World) (e : event) : World :=
  mkWorld (heap w) (log w ++ [e]).

(** [seen := make(map[string]bool, len(patterns))], then the closure. *)
Definition searchGlobs (patterns : list string) (w : World) : Seq * World :=
  (mkSeq patterns (length (heap w)), mkWorld (heap w ++ [∅]) (log w)).

Section Iterate.
(** The consumer: [yield] with the state [C] it closes over. *)
Context {C : Type}.
Variable G : Globber.
Variable yield : string → C → bool * C.
Variable seen : nat.

(** [for _, match := range glob { ... }]; the flag is [false] when the
    loop is left by [return]. *)
Fixpoint rangeGlob (glob : list string) (w : World) (c : C)
  : bool * World * C :=
  match glob with
  | [] => (true, w, c)
  | match_ :: glob =>
    if seenGet w seen match_ then rangeGlob glob w c
    else
      let w := seenSet w seen match_ in
      let w := emit w (Yield match_) in
      let '(more, c) := yield match_ c in
      if negb more then (false, w, c)
      else rangeGlob glob w c
  end.

(** [for _, pattern := range patterns { ... }] *)
Fixpoint rangePatterns (patterns : list string) (w : World) (c : C)
  : bool * World * C :=
  match patterns with
  | [] => (true, w, c)
  | pattern :: patterns =>
    let w := emit w (GlobCall pattern) in
    match G pattern with
    | None => rangePatterns patterns w c
    | Some glob =>
      let '(more, w, c) := rangeGlob glob w c in
      if more then rangePatterns patterns w c
      else (false, w, c)
    end
  end.
End Iterate.

(** One iteration [for p := range it { ... }] of the sequence [it]: calling
    the closure with the loop body as [yield]. *)
Definition iterate {C : Type} (G : Globber) (it : Seq)
    (yield : string → C → bool * C) (w : World) (c : C) : bool * World * C :=
  rangePatterns G yield (seqSeen it) (seqPatterns it) w c.

(** ** What an iteration did, read off the log *)

(** The paths yielded, and the patterns expanded, in a stretch of the log. *)
Definition yieldsOf (evs : list event) : list string :=
  omap (λ e, match e with Yield p => Some p | GlobCall _ => None end) evs.

Definition globCallsOf (evs : list event) : list string :=
  omap (λ e, match e with GlobCall p => Some p | Yield _ => None end) evs.

Definition yields (w : World) : list string := yieldsOf (log w).
Definition globCalls (w : World) : list string := globCallsOf (log w).

(** * Shell environments: [internal/devbox/envvars.go]

    A Go [map[string]string] is modelled as a [gmap string string].  Go does
    not say in which order [for k := range m] produces the keys: where a
    function ranges over a map, the model takes that order as an argument,
    the list [order] of the keys as the loop produces them. *)

Definition devboxSetPrefix : string := "__DEVBOX_SET_".

(** ** [strings.TrimSpace]

    The table [asciiSpace]: tab, line feed, vertical tab, form feed,
    carriage return and space. *)
Definition asciiSpace (c : byte) : bool :=
  existsb (Byte.eqb c) [x09; x0a; x0b; x0c; x0d; x20].

(** Each of the two loops of [TrimSpace], seen from the end it starts at:
    what is left when it stops, and whether it stopped at a byte that is
    not ASCII. *)
Fixpoint trimASCII (s : list byte) : list byte * bool :=
  match s with
  | [] => ([], false)
  | c :: s' =>
    if utf8.RuneSelf <=? byteZ c then (s, true)
    else if asciiSpace c then trimASCII s'
    else (s, false)
  end.

(** [strings.TrimSpace(s)].  At a byte that is not ASCII it hands over to
    [TrimFunc(s, unicode.IsSpace)], from the second loop to
    [TrimRightFunc(s, unicode.IsSpace)]; these two need the tables of
    package [unicode] and are arguments of the model. *)
Definition TrimSpace (TrimFunc TrimRightFunc : list byte → list byte)
    (s : list byte) : list byte :=
  let '(s, high) := trimASCII s in
  if high then TrimFunc s
  else
    let '(r, high) := trimASCII (reverse s) in
    if high then TrimRightFunc (reverse r) else reverse r.

(** [slices.Sort(keys)] and [sort.Strings(keys)]: ascending in the order of
    Go strings, which compares them byte by byte. *)
Definition sortStrings (keys : list string) : list string :=
  merge_sort String.le keys.

(** ** [exportify] *)

(** The runes of the [switch]: dollar, backquote, double quote, backslash
    and line feed. *)
Definition shellSpecial (r : rune) : bool :=
  (r =? 36) || (r =? 96) || (r =? 34) || (r =? 92) || (r =? 10).

(** The body of [for _, r := range vars[k]]; [strb.WriteRune(r)] is
    [utf8.AppendRune] on the buffer of the builder. *)
Definition exportifyRune (strb : list byte) (r : rune) : list byte :=
  let strb := if shellSpecial r then utf8.AppendRune strb 92 else strb in
  utf8.AppendRune strb r.

Definition exportifyValue (strb : list byte) (v : string) : list byte :=
  fold_left exportifyRune (utf8.range v) strb.

(** The body of [for _, k := range keys]. *)
Definition exportifyEntry (vars : gmap string string) (strb : list byte)
    (k : string) : list byte :=
  let strb := strb ++ bytesOf "export " in
  let strb := strb ++ bytesOf k in
  let strb := strb ++ ["="%byte; x22] in
  let strb := exportifyValue strb (default ""%string (vars !! k)) in
  strb ++ [x22; ";"%byte; x0a].

Definition exportify (TrimFunc TrimRightFunc : list byte → list byte)
    (order : list string) (vars : gmap string string) : string :=
  let keys := sortStrings order in
  let strb := fold_left (exportifyEntry vars) keys [] in
  stringOf (TrimSpace TrimFunc TrimRightFunc strb).

(** ** [exportifyElvish] *)

(** The rune of the [switch]: the double quote. *)
Definition elvishSpecial (r : rune) : bool := r =? 34.

(** The body of the inner loop; [fmt.Fprintf] with the verb [c] writes the
    UTF-8 encoding of [r], as [utf8.AppendRune] does. *)
Definition exportifyElvishRune (buf : list byte) (r : rune) : list byte :=
  let buf := if elvishSpecial r then buf ++ ["\"%byte] else buf in
  utf8.AppendRune buf r.

Definition exportifyElvishValue (buf : list byte) (v : string) : list byte :=
  fold_left exportifyElvishRune (utf8.range v) buf.

Definition exportifyElvishEntry (vars : gmap string string) (buf : list byte)
    (k : string) : list byte :=
  let buf := buf ++ bytesOf "set-env " ++ bytesOf k ++ [" "%byte; x22] in
  let buf := exportifyElvishValue buf (default ""%string (vars !! k)) in
  buf ++ [x22; x0a].

Definition exportifyElvish (TrimFunc TrimRightFunc : list byte → list byte)
    (order : list string) (vars : gmap string string) : string :=
  let keys := sortStrings order in
  let buf := fold_left (exportifyElvishEntry vars) keys [] in
  stringOf (TrimSpace TrimFunc TrimRightFunc buf).

(** ** [addEnvIfNotPreviouslySetByDevbox] *)

(** The body of [for k, v := range new]. *)
Definition addEnvStep (new : gmap string string)
    (existing : gmap string string) (k : string) : gmap string string :=
  let v := default ""%string (new !! k) in
  match existing !! (devboxSetPrefix +:+ k) with
  | Some _ => existing
  | None => <[k := v]> existing
  end.

(** The map [existing] after the call; [order] is the order in which the
    loop produces the keys of [new]. *)
Definition addEnvIfNotPreviouslySetByDevbox (order : list string)
    (existing new : gmap string string) : gmap string string :=
  fold_left (addEnvStep new) order existing.

(** ** [markEnvsAsSetByDevbox]

    The loop [for key := range env] sets [env[devboxSetPrefix+key]] to 1:
    it writes to the map it ranges over.  Go produces every entry the map had
    when the loop began once, and an entry the loop creates once or not at
    all, in an order it does not specify.  The relation [markRange] holds
    of the map at the beginning of the loop, a map the loop has reached, the
    keys produced so far, and a map the loop can end with from there. *)
Inductive markRange (start : gmap string string)
  : gmap string string → list string → gmap string string → Prop :=
  | markRange_end env visited :
      (∀ k, k ∈ dom start → k ∈ visited) →
      markRange start env visited env
  | markRange_next env visited key env' :
      key ∈ dom env → key ∉ visited →
      markRange start (<[devboxSetPrefix +:+ key := "1"%string]> env)
                (key :: visited) env' →
      markRange start env visited env'.

(** [markEnvsAsSetByDevbox(envs...)]: the maps are reached through
    references into [heap], since two of the arguments may be the same
    map. *)
Inductive markEnvsAsSetByDevbox
  : list (gmap string string) → list nat → list (gmap string string) → Prop :=
  | markEnvs_nil heap : markEnvsAsSetByDevbox heap [] heap
  | markEnvs_cons heap ref envs env env' heap' :
      heap !! ref = Some env →
      markRange env env [] env' →
      markEnvsAsSetByDevbox (<[ref := env']> heap) envs heap' →
      markEnvsAsSetByDevbox heap (ref :: envs) heap'.

(** * The vocabulary of the statements *)

#[global] Instance byte_eq_decision : EqDecision byte := Byte.byte_eq_dec.

(** ** Matches and slices *)

(** A matcher hands to its continuation a rest that is no longer than what
    it was given, and answers what the continuation answers. *)
Definition shrinking
    (m : list byte → (list byte → option nat) → option nat) : Prop :=
  ∀ s k r, m s k = Some r →
    ∃ s', (length s' ≤ length s)%nat ∧ k s' = Some r.

(** Matches as [allMatches] delivers them: each one starts strictly after
    the start, and not before the end, of the one before. *)
Definition follows (x y : nat * nat) : Prop :=
  (x.1 < y.1 ∧ x.2 ≤ y.1)%nat.

Definition within (b : list byte) (x : nat * nat) : Prop :=
  (x.1 ≤ x.2 ∧ x.2 ≤ length b)%nat.

(** What the loop knows when it is at [pos]: the last delivered match
    started at [lo]; either that is before [pos], or the match was an
    empty one found ahead, which the search will find again. *)
Definition loopPre (re : Regexp) (b : list byte) (pos : nat) (prev lo : Z)
  : Prop :=
  lo < Z.of_nat pos ∨
  (lo = Z.of_nat pos ∧ prev = Z.of_nat pos ∧
   doExecute re b pos = Some (pos, pos)).

(** The error [io.ReadAll] reports for [io.LimitedReader{f, n}]: the failure
    of the file, when the stream ends before [n] bytes were read. *)
Definition readError (f : File) (n : Z) : option error :=
  if Z.of_nat (length (pending f)) <? n then
    match failure f with
    | Some EOF => None
    | o => o
    end
  else None.

Definition sliceBefore (x y : fileSlice) : Prop :=
  offset x < offset y ∧ offset x + Z.of_nat (length (data x)) ≤ offset y.

(** ** The environment *)

(** The entry [NAME=VALUE] of [os.Environ()] for a name and a value. *)
Definition entry (e : string * string) : string := e.1 +:+ "=" +:+ e.2.

(** The result of [searchEnv] as the specification words it: the match in
    the first value the pattern matches, and the empty string when it
    matches none. *)
Fixpoint firstMatch (re : Regexp) (values : list string) : string :=
  match values with
  | [] => ""
  | v :: values =>
    match doExecute re (bytesOf v) 0 with
    | Some _ => FindString re v
    | None => firstMatch re values
    end
  end.

(** ** Paths matched by a list of patterns *)

(** The paths of [l] that are not in [seen], each one at its first
    occurrence. *)
Fixpoint fresh (seen : list string) (l : list string) : list string :=
  match l with
  | [] => []
  | x :: l =>
    if decide (x ∈ seen) then fresh seen l
    else x :: fresh (x :: seen) l
  end.

(** All the paths the patterns match, in the order of the patterns. *)
Definition candidates (G : Globber) (patterns : list string) : list string :=
  patterns ≫= λ pattern, default [] (G pattern).

(** The map behind the reference [ref] holds exactly the paths of [seen]. *)
Definition holds (w : World) (ref : nat) (seen : list string) : Prop :=
  (ref < length (heap w))%nat ∧ ∀ x, seenGet w ref x = true ↔ x ∈ seen.

(** ** The answers of the consumer *)

(** The state of the consumer after the calls of [yield] in a stretch of the
    log, and what [yield] answered at each event of it ([true] at a call of
    [filepath.Glob], which asks the consumer nothing). *)
Fixpoint feed {C : Type} (yield : string → C → bool * C) (evs : list event)
    (c : C) : C :=
  match evs with
  | [] => c
  | GlobCall _ :: evs => feed yield evs c
  | Yield p :: evs => feed yield evs (yield p c).2
  end.

Fixpoint verdicts {C : Type} (yield : string → C → bool * C)
    (evs : list event) (c : C) : list bool :=
  match evs with
  | [] => []
  | GlobCall _ :: evs => true :: verdicts yield evs c
  | Yield p :: evs => (yield p c).1 :: verdicts yield evs (yield p c).2
  end.

(** Answers that let the loop go on, with a last one that does not when the
    loop was left. *)
Definition goOn (more : bool) (n : nat) : list bool :=
  replicate n true ++ (if more then [] else [false]).

(** ** The name segment of a removed reference *)

(** A byte the name segment may hold: one whose value the class does not
    list. *)
Definition nameByte (b : byte) : bool :=
  negb (existsb (Z.eqb (byteZ b)) removedRefsClass).

(** What is left of [s] after the longest run of name bytes. *)
Fixpoint skipName (s : list byte) : list byte :=
  match s with
  | [] => []
  | b :: s' => if nameByte b then skipName s' else s
  end.

Definition classStep : list byte → (list byte → option nat) → option nat :=
  stepIf (λ r, xorb true (existsb (Z.eqb r) removedRefsClass)).

Definition finish : list byte → option nat := λ rest, Some (length rest).

(** The shape of a removed reference, with the rest of the input. *)
Definition refHead : list byte := replicate 32 "e"%byte ++ ["-"%byte].

(** The bytes the name segment stops at. *)
Definition nameStops : list byte :=
  [x24; x22; x27; x7b; x7d; x2f; x5b; x5d; x20; x09; x0d; x0a].

(** The name segment as the specification words it: anything except path
    separators, whitespace, quote characters and brace or bracket
    characters. *)
Definition isPathSeparator (b : byte) : bool := Byte.eqb b x2f.
Definition isWhitespace (b : byte) : bool :=
  existsb (Byte.eqb b) [x20; x09; x0d; x0a].
Definition isQuote (b : byte) : bool := existsb (Byte.eqb b) [x22; x27].
Definition isBraceOrBracket (b : byte) : bool :=
  existsb (Byte.eqb b) [x7b; x7d; x5b; x5d].

Definition specNameByte (b : byte) : bool :=
  negb (isPathSeparator b || isWhitespace b || isQuote b || isBraceOrBracket b).

(** ** Well-formed UTF-8 *)

(** The value of two, three and four bytes put together by the decoder. *)
Definition join2 (b0 b1 : Z) : Z := (b0 - 192) * 64 + (b1 - 128).
Definition join3 (b0 b1 b2 : Z) : Z :=
  ((b0 - 224) * 64 + (b1 - 128)) * 64 + (b2 - 128).
Definition join4 (b0 b1 b2 b3 : Z) : Z :=
  (((b0 - 240) * 64 + (b1 - 128)) * 64 + (b2 - 128)) * 64 + (b3 - 128).

(** Well-formed UTF-8 (the table of well-formed byte sequences of the
    Unicode standard). *)
Definition wf2 (b0 b1 : byte) : Prop :=
  194 ≤ byteZ b0 ≤ 223 ∧ 128 ≤ byteZ b1 ≤ 191.

Definition wf3 (b0 b1 b2 : byte) : Prop :=
  224 ≤ byteZ b0 ≤ 239 ∧ 128 ≤ byteZ b1 ≤ 191 ∧ 128 ≤ byteZ b2 ≤ 191 ∧
  (byteZ b0 = 224 → 160 ≤ byteZ b1) ∧ (byteZ b0 = 237 → byteZ b1 ≤ 159).

Definition wf4 (b0 b1 b2 b3 : byte) : Prop :=
  240 ≤ byteZ b0 ≤ 244 ∧ 128 ≤ byteZ b1 ≤ 191 ∧ 128 ≤ byteZ b2 ≤ 191 ∧
  128 ≤ byteZ b3 ≤ 191 ∧
  (byteZ b0 = 240 → 144 ≤ byteZ b1) ∧ (byteZ b0 = 244 → byteZ b1 ≤ 143).

Inductive ValidUTF8 : list byte → Prop :=
  | valid_nil : ValidUTF8 []
  | valid_ascii b s : byteZ b < 128 → ValidUTF8 s → ValidUTF8 (b :: s)
  | valid_2 b0 b1 s : wf2 b0 b1 → ValidUTF8 s → ValidUTF8 (b0 :: b1 :: s)
  | valid_3 b0 b1 b2 s :
      wf3 b0 b1 b2 → ValidUTF8 s → ValidUTF8 (b0 :: b1 :: b2 :: s)
  | valid_4 b0 b1 b2 b3 s :
      wf4 b0 b1 b2 b3 → ValidUTF8 s → ValidUTF8 (b0 :: b1 :: b2 :: b3 :: s).

Definition isMetaByte (b : byte) : bool := existsb (Byte.eqb b) metaChars.

(** Byte by byte: a backslash before each metacharacter, every other byte
    as it is. *)
Definition escapeBytes (s : list byte) : list byte :=
  s ≫= λ b, if isMetaByte b then ["\"%byte; b] else [b].

Ltac utf8_consts :=
  unfold utf8.t2, utf8.t3, utf8.t4, utf8.t5, utf8.rune1Max, utf8.rune2Max,
    utf8.rune3Max, utf8.MaxRune, utf8.surrogateMin, utf8.surrogateMax,
    utf8.RuneSelf in *.

Ltac decide_bool :=
  repeat match goal with
  | |- context [?a <=? ?b] =>
      first [rewrite (proj2 (Z.leb_le a b)) by lia
            |rewrite (proj2 (Z.leb_gt a b)) by lia]
  | |- context [?a <? ?b] =>
      first [rewrite (proj2 (Z.ltb_lt a b)) by lia
            |rewrite (proj2 (Z.ltb_ge a b)) by lia]
  end; cbn [andb orb negb].

(** ** Slices as matches *)

(** The match a slice stands for: where it starts and where it ends. *)
Definition span (x : fileSlice) : nat * nat :=
  (Z.to_nat (offset x), (Z.to_nat (offset x) + length (data x))%nat).

(** The longest run of name bytes at the head of [s]. *)
Fixpoint takeName (s : list byte) : list byte :=
  match s with
  | [] => []
  | b :: s' => if nameByte b then b :: takeName s' else []
  end.

(** The byte at [p] is an ASCII byte. *)
Definition asciiAt (b : list byte) (p : nat) : Prop :=
  ∃ c, b !! p = Some c ∧ byteZ c < 128.

(** ** Loops that escape runes

    [globEscape], [exportify] and [exportifyElvish] run the same loop over
    the runes of a string: a backslash before the runes of a [switch], then
    the rune itself.  [special] is the test of the [switch]. *)
Definition escapeRuneWith (special : rune → bool) (b : list byte) (r : rune)
  : list byte :=
  let b := if special r then b ++ ["\"%byte] else b in
  utf8.AppendRune b r.

Definition escapeLoopWith (special : rune → bool) (s acc : list byte)
  : list byte :=
  fold_left (escapeRuneWith special) (utf8.rangeFrom 0 s) acc.

(** Byte by byte: a backslash before each special byte, every other byte as
    it is. *)
Definition escapeByteWith (special : rune → bool) (b : byte) : list byte :=
  if special (byteZ b) then ["\"%byte; b] else [b].

Definition escapeBytesWith (special : rune → bool) (s : list byte) : list byte :=
  s ≫= escapeByteWith special.

(** Text made of units: a backslash with a special byte after it, or a byte
    that is not special. *)
Fixpoint escapedUnits (special : rune → bool) (s : list byte) : bool :=
  match s with
  | [] => true
  | b :: s' =>
    if Byte.eqb b "\" then
      match s' with
      | c :: s'' => special (byteZ c) && escapedUnits special s''
      | [] => false
      end
    else negb (special (byteZ b)) && escapedUnits special s'
  end.

(** The bytes such a text stands for: the escaping backslashes taken
    away. *)
Fixpoint unescapeBytes (s : list byte) : list byte :=
  match s with
  | [] => []
  | b :: s' =>
    if Byte.eqb b "\" then
      match s' with
      | c :: s'' => c :: unescapeBytes s''
      | [] => []
      end
    else b :: unescapeBytes s'
  end.

#[global] Instance wf2_dec b0 b1 : Decision (wf2 b0 b1).
Proof. unfold wf2. apply _. Defined.
#[global] Instance wf3_dec b0 b1 b2 : Decision (wf3 b0 b1 b2).
Proof. unfold wf3. apply _. Defined.
#[global] Instance wf4_dec b0 b1 b2 b3 : Decision (wf4 b0 b1 b2 b3).
Proof. unfold wf4. apply _. Defined.

Ltac valid_utf8 :=
  repeat first
    [ apply valid_nil
    | apply valid_ascii; [vm_compute; reflexivity|]
    | apply valid_2; [unfold wf2; vm_compute; intuition discriminate|]
    | apply valid_3; [unfold wf3; vm_compute; intuition discriminate|]
    | apply valid_4; [unfold wf4; vm_compute; intuition discriminate|] ].

(** ** Lines of export statements *)

(** Lines put together with a line feed between them. *)
Definition joinLines (lines : list (list byte)) : list byte :=
  match lines with
  | [] => []
  | l :: lines => l ++ (lines ≫= λ l', x0a :: l')
  end.

(** The line of [exportify] for the variable [k]: the word export, the
    name, the equals sign, the value between double quotes, a semicolon. *)
Definition exportLine (vars : gmap string string) (k : string) : list byte :=
  bytesOf "export " ++ bytesOf k ++ ["="%byte; x22]
  ++ exportifyValue [] (default ""%string (vars !! k)) ++ [x22; ";"%byte].


(** ** Marked environments *)

(** What a map can become under marking: an entry keeps its value or gets
    the value 1, and a new entry has the value 1. *)
Definition marked (env env' : gmap string string) : Prop :=
  (∀ k v, env !! k = Some v →
          env' !! k = Some v ∨ env' !! k = Some "1"%string) ∧
  (∀ k v, env' !! k = Some v → env !! k = Some v ∨ v = "1"%string).

(** The run of the marking loop that produces the keys [keys] in this
    order. *)
Definition markInOrder (keys : list string) (env : gmap string string)
  : gmap string string :=
  fold_left (λ env key, <[devboxSetPrefix +:+ key := "1"%string]> env) keys env.

(** * Concrete inputs *)

(** ** Consumers of a sequence *)

(** Two consumers: one that takes every path, one that stops as soon as it
    holds [n] paths. *)
Definition collect (p : string) (acc : list string) : bool * list string :=
  (true, acc ++ [p]).

Definition takeUpTo (n : nat) (p : string) (acc : list string)
  : bool * list string :=
  ((length acc + 1 <? n)%nat, acc ++ [p]).

Definition emptyWorld : World := mkWorld [] [].

(** A small file system: the files [ab], [ac] and [bb] in the working
    directory, seen through four patterns; every other pattern, such as a
    lone opening bracket, stands for a malformed one. *)
Definition demoGlob : Globber := λ pattern,
  if String.eqb pattern "a*" then Some ["ab"; "ac"]%string
  else if String.eqb pattern "*b" then Some ["ab"; "bb"]%string
  else if String.eqb pattern "*" then Some ["ab"; "ac"; "bb"]%string
  else if String.eqb pattern "zz*" then Some []
  else None.

(** ** Files *)

(** A file with two removed references, the second one after 33 times the
    letter e. *)
Definition twoFile : File :=
  mkFile (bytesOf ("eeeeeeeeeeeeeeeeeeeeeeeeeeeeeeee-a/"
                   +:+ "eeeeeeeeeeeeeeeeeeeeeeeeeeeeeeeee-bc"))
         None 600.

(** A file tree: two files to search, one with two references, one whose
    reads fail, one that may not be opened; no other file exists. *)
Definition demoFS : FS := λ path,
  if String.eqb path "a.txt" then
    inr (mkFile (bytesOf "xeeeeeeeeeeeeeeeeeeeeeeeeeeeeeeee-foo bar") None 4)
  else if String.eqb path "b.txt" then
    inr (mkFile (bytesOf "no reference in here") None 0)
  else if String.eqb path "two.txt" then inr twoFile
  else if String.eqb path "broken" then
    inr (mkFile (bytesOf "eeeeeeeeeeeeeeeeeeeeeeeeeeeeeeee-lost")
                (Some (ErrIO "input/output error")) 6)
  else if String.eqb path "secret" then inl ErrPermission
  else inl ErrNotExist.

(** A file of one byte more than the ceiling, and the file system that
    holds it. *)
Definition bigFile : File :=
  mkFile (replicate (S (Z.to_nat maxFileSize)) "e"%byte)
         (Some (ErrIO "input/output error")) 0.
Definition bigFS : FS := λ _, inr bigFile.

(** The two slices [searchFile] finds in [two.txt]. *)
Definition sliceA : fileSlice :=
  mkFileSlice "two.txt" (bytesOf "eeeeeeeeeeeeeeeeeeeeeeeeeeeeeeee-a") 0.
Definition sliceB : fileSlice :=
  mkFileSlice "two.txt" (bytesOf "eeeeeeeeeeeeeeeeeeeeeeeeeeeeeeee-bc") 36.

(** The file [twoFile] read one byte at a time, and the file behind the
    path [broken] of [demoFS]. *)
Definition twoFileBytewise : File := mkFile (pending twoFile) None 0.

Definition brokenFile : File :=
  mkFile (bytesOf "eeeeeeeeeeeeeeeeeeeeeeeeeeeeeeee-lost")
         (Some (ErrIO "input/output error")) 6.

(** ** Environments *)

Definition demoNew : gmap string string := {["EDITOR" := "vi"]}%string.

Definition demoExisting : gmap string string :=
  {["EDITOR" := "emacs"; "HOME" := "/home/u"]}%string.

Definition demoHeap : list (gmap string string) := [demoExisting].

(** * Properties *)

(** ** Bytes and runes *)

Lemma byteZ_range (b : byte) : 0 ≤ byteZ b < 256.
Proof.
  unfold byteZ. pose proof (Byte.to_N_bounded b). lia.
Qed.

Lemma byteZ_inj (b1 b2 : byte) : byteZ b1 = byteZ b2 → b1 = b2.
Proof.
  unfold byteZ. intros H%N2Z.inj.
  pose proof (Byte.of_to_N b1) as H1. rewrite H, Byte.of_to_N in H1.
  by simplify_eq.
Qed.

Lemma toByte_byteZ (b : byte) : toByte (byteZ b) = b.
Proof.
  unfold toByte. rewrite Z.mod_small by apply byteZ_range.
  unfold byteZ. by rewrite N2Z.id, Byte.of_to_N.
Qed.

(** What the decoder gives for a byte that is not ASCII: a rune that is not
    ASCII either, made of the byte and of continuation bytes only. *)
Lemma decoderune_high (c : byte) (s : list byte) :
  ∃ r w, utf8.decoderune (c :: s) = (r, w) ∧
         127 < r ∧ (1 ≤ w ≤ S (length s))%nat ∧
         Forall (λ b, 128 ≤ byteZ b) (take (w - 1) s).
Proof.
  unfold utf8.decoderune.
  assert (∀ b, utf8.isCont b = true → 128 ≤ byteZ b) as Hcont.
  { intros b. unfold utf8.isCont, utf8.locb, utf8.hicb. lia. }
  repeat case_match; subst; eexists _, _; (split; [reflexivity|]);
    unfold utf8.RuneError, utf8.rune1Max, utf8.rune2Max, utf8.rune3Max in *;
    cbn [length take Nat.sub]; rewrite ?take_0;
    repeat match goal with
    | H : _ && _ = true |- _ => apply andb_true_iff in H as [? ?]
    end;
    (split_and!; [lia|lia|lia|repeat constructor; auto]).
Qed.

Lemma step_ascii (c : byte) (s : list byte) :
  byteZ c < 128 → utf8.step (c :: s) = (byteZ c, 1%nat).
Proof.
  intros Hc. unfold utf8.step, utf8.RuneSelf.
  by rewrite (proj2 (Z.ltb_lt _ _) Hc).
Qed.

Lemma step_high (c : byte) (s : list byte) :
  128 ≤ byteZ c →
  ∃ r w, utf8.step (c :: s) = (r, w) ∧
         127 < r ∧ (1 ≤ w ≤ S (length s))%nat ∧
         Forall (λ b, 128 ≤ byteZ b) (take w (c :: s)).
Proof.
  intros Hc. unfold utf8.step, utf8.RuneSelf.
  rewrite (proj2 (Z.ltb_ge _ _)) by lia.
  destruct (decoderune_high c s) as (r & w & -> & Hr & Hw & Hall).
  exists r, w. split_and!; [done|done|lia..|].
  destruct w as [|w]; [lia|]. cbn [take]. constructor; [done|].
  by rewrite Nat.sub_succ, Nat.sub_0_r in Hall.
Qed.

(** ** The matcher is a leftmost search

    The two laws of [Regexp] for [execute]; [compile] and the patterns of
    this development need them and follow them. *)

Lemma stepIf_shrinking p : shrinking (stepIf p).
Proof.
  intros s k r. unfold stepIf. destruct (utf8.step s) as [c w].
  case_match; [|done]. intros Hk. exists (drop w s).
  rewrite length_drop. split; [lia|done].
Qed.

Lemma iter_shrinking m n :
  shrinking m → shrinking (λ s k, Nat.iter n (λ k' s', m s' k') k s).
Proof.
  intros Hm. induction n as [|n IH]; intros s k r; cbn [Nat.iter].
  - intros Hk. by exists s.
  - intros (s1 & Hs1 & Hr)%Hm. apply IH in Hr as (s2 & Hs2 & Hr).
    exists s2. split; [lia|done].
Qed.

Lemma plusLoop_shrinking m fuel :
  shrinking m → shrinking (plusLoop fuel m).
Proof.
  intros Hm. induction fuel as [|fuel IH]; intros s k r; cbn [plusLoop]; [done|].
  intros (s1 & Hs1 & Hr)%Hm.
  destruct (if (length s1 <? length s)%nat then _ else _) as [e|] eqn:Hloop.
  - simplify_eq. case_match; [|done].
    apply IH in Hloop as (s2 & Hs2 & Hr). exists s2. split; [lia|done].
  - by exists s1.
Qed.

Lemma matchHere_shrinking re : shrinking (matchHere re).
Proof.
  induction re as [c|neg rs|re1 IH1 re2 IH2|n re1 IH1|re1 IH1|re1 IH1];
    intros s k r; cbn [matchHere].
  - apply stepIf_shrinking.
  - apply stepIf_shrinking.
  - intros (s1 & Hs1 & Hr)%IH1. apply IH2 in Hr as (s2 & Hs2 & Hr).
    exists s2. split; [lia|done].
  - apply (iter_shrinking _ n IH1).
  - destruct (plusLoop _ _ s k) as [e|] eqn:Hloop.
    + intros ?; simplify_eq. by apply (plusLoop_shrinking _ _ IH1) in Hloop.
    + intros Hk. by exists s.
  - apply (plusLoop_shrinking _ _ IH1).
Qed.

Lemma search_found re b : ∀ s pos skip m0 m1,
  s = drop pos b → (pos ≤ length b)%nat →
  search re b pos skip s = Some (m0, m1) →
  (pos ≤ m0 ∧ m0 ≤ length b)%nat ∧
  ∃ rem, matchHere re (drop m0 b) (λ rest, Some (length rest)) = Some rem ∧
         m1 = (length b - rem)%nat ∧ (rem ≤ length b - m0)%nat.
Proof.
  induction s as [|c s IH]; intros pos skip m0 m1 Hs Hpos.
  - destruct skip; cbn [search]; [|done].
    destruct (matchHere re [] _) as [rem|] eqn:Hm; [|done].
    intros ?; simplify_eq. split; [lia|]. exists rem. rewrite <- Hs.
    split_and!; [done..|].
    apply matchHere_shrinking in Hm as (s' & Hs' & ?). simplify_eq.
    cbn [length] in Hs'. lia.
  - assert (s = drop (S pos) b) as Hs'.
    { rewrite <- (Nat.add_1_l pos), Nat.add_comm, <- drop_drop, <- Hs. done. }
    assert (S pos ≤ length b)%nat as Hpos'.
    { apply (f_equal length) in Hs. rewrite length_drop in Hs.
      cbn [length] in Hs. lia. }
    destruct skip; cbn [search].
    + destruct (matchHere re (c :: s) _) as [rem|] eqn:Hm.
      * intros ?; simplify_eq. split; [lia|]. exists rem. rewrite <- Hs.
        split_and!; [done..|].
        apply matchHere_shrinking in Hm as (s' & Hlen & ?). simplify_eq.
        apply (f_equal length) in Hs. rewrite length_drop in Hs. lia.
      * intros Hsr. apply IH in Hsr as [? ?]; [|done..]. split; [lia|done].
    + intros Hsr. apply IH in Hsr as [? ?]; [|done..]. split; [lia|done].
Qed.

Lemma execute_bounds re b pos m0 m1 :
  execute re b pos = Some (m0, m1) →
  (pos ≤ m0 ∧ m0 ≤ m1 ∧ m1 ≤ length b)%nat.
Proof.
  unfold execute. destruct (Nat.leb_spec pos (length b)); [|done].
  intros ([? ?] & rem & _ & -> & ?)%search_found; [lia|done..].
Qed.

Lemma execute_restart re b pos m0 m1 :
  execute re b pos = Some (m0, m1) →
  execute re b m0 = Some (m0, m1).
Proof.
  unfold execute. destruct (Nat.leb_spec pos (length b)); [|done].
  intros ([? ?] & rem & Hm & -> & ?)%search_found; [|done..].
  rewrite (proj2 (Nat.leb_le _ _)) by done.
  destruct (drop m0 b) eqn:Hd; cbn [search]; by rewrite Hm.
Qed.

(** [regexp.MustCompile] for a pattern given by its syntax tree. *)
Definition compile (re : syntax) : Regexp :=
  mkRegexp (execute re) (execute_bounds re) (execute_restart re).

Definition reRemovedRefs : Regexp := compile removedRefsSyntax.

(** The pattern [v*], which matches the empty string. *)
Definition reStarV : Regexp := compile (Star (Literal 118)).

(** ** [regexp]: the matches of [FindAllIndex] *)

Lemma allMatchesLoop_sorted re b n fuel : ∀ pos i prev lo locs,
  loopPre re b pos prev lo →
  allMatchesLoop re b n fuel pos i prev = Some locs →
  Forall (λ x, lo < Z.of_nat x.1 ∧ (pos ≤ x.1)%nat ∧ within b x) locs ∧
  StronglySorted follows locs.
Proof.
  induction fuel as [|fuel IH]; intros pos i prev lo locs Hpre; simpl.
  - case_match; [|done]. intros ?; simplify_eq. split; constructor.
  - case_match; [intros ?; simplify_eq; split; constructor|].
    destruct (doExecute re b pos) as [[m0 m1]|] eqn:Hex;
      [|intros ?; simplify_eq; split; constructor].
    pose proof (doExecute_bounds re _ _ _ _ Hex) as (Hb1 & Hb2 & Hb3).
    destruct (Nat.eqb_spec m1 pos) as [->|Hne].
    + assert (m0 = pos) as -> by lia.
      set (pos' := if (0 <? _)%nat then _ else _).
      assert (pos < pos')%nat as Hlt.
      { subst pos'. case_match; [apply Nat.ltb_lt in H0|]; lia. }
      destruct (Z.eqb_spec (Z.of_nat pos) prev) as [Heq|Hneq]; simpl.
      * destruct (allMatchesLoop _ _ _ _ _ _ _) as [rest|] eqn:Hrest;
          simpl; [|done].
        intros ?; simplify_eq.
        apply (IH _ _ _ lo) in Hrest as [Hall Hs].
        2:{ left. destruct Hpre as [?|(?&?&?)]; lia. }
        split; [|done].
        eapply Forall_impl; [exact Hall|]. unfold within; simpl; intros x; lia.
      * destruct (allMatchesLoop _ _ _ _ _ _ _) as [rest|] eqn:Hrest;
          simpl; [|done].
        intros ?; simplify_eq.
        apply (IH _ _ _ (Z.of_nat pos)) in Hrest as [Hall Hs].
        2:{ left. lia. }
        assert (lo < Z.of_nat pos) as Hlo.
        { destruct Hpre as [?|(?&?&?)]; [done|]. congruence. }
        split.
        -- constructor; [simpl; unfold within; simpl; lia|].
           eapply Forall_impl; [exact Hall|]. unfold within; simpl; intros x; lia.
        -- constructor; [done|].
           eapply Forall_impl; [exact Hall|]. unfold follows, within; simpl; intros x; lia.
    + destruct (allMatchesLoop _ _ _ _ _ _ _) as [rest|] eqn:Hrest;
        simpl; [|done].
      intros ?; simplify_eq.
      assert (lo < Z.of_nat m0) as Hlo.
      { destruct Hpre as [?|(?&?&Hp)]; [lia|].
        rewrite Hp in Hex. injection Hex as <- <-. done. }
      apply (IH _ _ _ (Z.of_nat m0)) in Hrest as [Hall Hs].
      2:{ destruct (decide (m0 = m1)) as [->|].
          - right. split_and!; [done..|].
            apply (doExecute_restart re _ _ _ _ Hex).
          - left. lia. }
      split.
      * constructor; [simpl; unfold within; simpl; lia|].
        eapply Forall_impl; [exact Hall|]. unfold within; simpl; intros x; lia.
      * constructor; [done|].
        eapply Forall_impl; [exact Hall|]. unfold follows, within; simpl; intros x; lia.
Qed.

Lemma allMatchesLoop_total re b n fuel : ∀ pos i prev,
  (length b + 1 - pos ≤ fuel)%nat →
  is_Some (allMatchesLoop re b n fuel pos i prev).
Proof.
  induction fuel as [|fuel IH]; intros pos i prev Hfuel; simpl.
  - case_match; [done|].
    apply negb_false_iff, andb_true_iff in H as [_ H%Nat.leb_le]. lia.
  - case_match; [done|].
    apply negb_false_iff, andb_true_iff in H as [_ Hpos%Nat.leb_le].
    destruct (doExecute re b pos) as [[m0 m1]|] eqn:Hex; [|done].
    pose proof (doExecute_bounds re _ _ _ _ Hex) as (Hb1 & Hb2 & Hb3).
    set (next := if (m1 =? pos)%nat then _ else _).
    assert (pos < next.2)%nat as Hlt.
    { subst next. destruct (Nat.eqb_spec m1 pos); simpl; [|lia].
      case_match; [apply Nat.ltb_lt in H|]; lia. }
    destruct next as [accept pos']. simpl in Hlt.
    destruct (IH pos' (if accept then S i else i) (Z.of_nat m1)) as [rest ->];
      [lia|done].
Qed.

Lemma FindAllIndex_loop re b :
  allMatchesLoop re b (length b + 1) (length b + 1) 0 0 (-1)
  = Some (FindAllIndex re b).
Proof.
  unfold FindAllIndex.
  destruct (allMatchesLoop_total re b (length b + 1) (length b + 1) 0 0 (-1))
    as [locs ->]; [lia|done].
Qed.

Lemma FindAllIndex_sorted re b :
  Forall (within b) (FindAllIndex re b) ∧
  StronglySorted follows (FindAllIndex re b).
Proof.
  destruct (allMatchesLoop_sorted re b _ _ 0%nat 0%nat (-1) (-1) _
              ltac:(left; lia) (FindAllIndex_loop re b)) as [Hall Hs].
  split; [|done]. eapply Forall_impl; [exact Hall|]. by intros x (_ & _ & ?).
Qed.

(** ** [io.ReadAll] over a limited reader *)

Lemma growCap_grows cap : (cap < growCap cap)%nat.
Proof.
  unfold growCap. case_match; [lia|].
  assert (0 < (cap + 768) / 4)%nat by (apply Nat.div_str_pos; lia). lia.
Qed.

Lemma ReadAllLoop_limited fuel : ∀ f n b cap,
  (length b < cap)%nat →
  (length (pending f) < fuel)%nat →
  ReadAllLoop fuel (mkLimited f n) b cap
  = Some (b ++ take (Z.to_nat n) (pending f), readError f n).
Proof.
  induction fuel as [|fuel IH]; intros f n b cap Hcap Hfuel; [lia|].
  cbn [ReadAllLoop]. unfold LimitedReader_Read. cbn [N R].
  destruct (Z.leb_spec n 0) as [Hn|Hn].
  { unfold readError. rewrite (proj2 (Z.ltb_ge _ _)) by lia.
    replace (Z.to_nat n) with 0%nat by lia. by rewrite take_0. }
  set (n' := if n <? Z.of_nat (cap - length b) then Z.to_nat n
             else (cap - length b)%nat).
  assert ((0 < n')%nat ∧ Z.of_nat n' ≤ n ∧ (n' ≤ cap - length b)%nat)
    as (Hn'0 & Hn'n & Hn'c).
  { subst n'. destruct (Z.ltb_spec n (Z.of_nat (cap - length b))); lia. }
  clearbody n'. unfold File_Read. destruct n' as [|n']; [lia|].
  destruct f as [pend fail ch]; cbn [pending failure chunk] in *.
  destruct pend as [|c pend].
  { unfold readError; cbn [pending failure length].
    rewrite (proj2 (Z.ltb_lt _ _)) by lia. rewrite take_nil.
    destruct fail as [[]|]; reflexivity. }
  set (L := c :: pend) in *.
  set (k := Nat.min (S n') (S ch)).
  assert ((0 < k)%nat ∧ (k ≤ S n')%nat) as [Hk0 Hkn] by (subst k; lia).
  clearbody k.
  assert (length (take k L) = Nat.min k (length L)) as Hlen
    by apply length_take.
  assert (0 < length L)%nat as HL by (subst L; cbn [length]; lia).
  clearbody L.
  rewrite IH; cbn [pending failure].
  - f_equal. f_equal.
    + rewrite <- (assoc_L (++)). f_equal.
      destruct (Nat.le_gt_cases k (length L)) as [Hle|Hgt].
      * rewrite take_take_drop. f_equal. lia.
      * rewrite (drop_ge L k) by lia. rewrite take_nil, app_nil_r.
        rewrite !take_ge by lia. done.
    + unfold readError; cbn [pending failure]. rewrite length_drop.
      destruct (Z.ltb_spec (Z.of_nat (length L)) n),
        (Z.ltb_spec (Z.of_nat (length L - k)) (n - Z.of_nat (length (take k L))));
        try done; lia.
  - rewrite length_app. case_match; [pose proof (growCap_grows cap); lia|].
    apply Nat.eqb_neq in H. lia.
  - rewrite length_drop. lia.
Qed.

Lemma ReadAll_limited f n :
  ReadAll (mkLimited f n) = (take (Z.to_nat n) (pending f), readError f n).
Proof.
  unfold ReadAll. cbn [R]. rewrite ReadAllLoop_limited; cbn [length]; [done|lia..].
Qed.

(** ** [searchFile] *)

Lemma maxFileSize_eq : maxFileSize = 1073741824.
Proof. reflexivity. Qed.

(** [searchFile] on a file that opens, in closed form. *)
Lemma searchFile_open fsys path re f :
  fsys path = inr f →
  searchFile fsys path re =
    match readError f maxFileSize with
    | Some e => ([], Some e)
    | None =>
      let buf := take (Z.to_nat maxFileSize) (pending f) in
      (map (sliceOf path buf) (FindAllIndex re buf), None)
    end.
Proof.
  intros Hopen. unfold searchFile. rewrite Hopen, ReadAll_limited.
  destruct (readError f maxFileSize); [done|].
  cbv zeta. destruct (FindAllIndex re _); done.
Qed.

Lemma length_slice (b : list byte) (s e : nat) :
  within b (s, e) → length (take (e - s) (drop s b)) = (e - s)%nat.
Proof.
  intros [H1 H2]. simpl in *. rewrite length_take, length_drop. lia.
Qed.

Lemma slices_sorted path b locs :
  Forall (within b) locs → StronglySorted follows locs →
  StronglySorted sliceBefore (map (sliceOf path b) locs).
Proof.
  intros Hin Hs. induction Hs as [|x locs Hs IH Hx]; [constructor|].
  apply Forall_cons in Hin as [Hwx Hin]. cbn [map]. constructor; [auto|].
  apply Forall_map. eapply Forall_impl; [exact Hx|].
  intros y [Hy1 Hy2]. destruct x as [s e], y as [s' e'].
  unfold sliceBefore; cbn [sliceOf offset data].
  rewrite (length_slice b s e Hwx). unfold within in Hwx. simpl in *. lia.
Qed.

Lemma searchFile_StronglySorted fsys path re :
  StronglySorted sliceBefore (searchFile fsys path re).1.
Proof.
  destruct (fsys path) as [e|f] eqn:Hopen.
  - unfold searchFile. rewrite Hopen. constructor.
  - rewrite (searchFile_open _ _ _ _ Hopen).
    destruct (readError f maxFileSize); [constructor|]. cbn [fst].
    destruct (FindAllIndex_sorted re (take (Z.to_nat maxFileSize) (pending f))).
    by apply slices_sorted.
Qed.

(** Claim C3.  The slices [searchFile] returns are in strictly increasing
    offset order and do not overlap: of any two of them, the earlier one
    starts before the later one and ends at or before its start. *)
Theorem searchFile_sorted (fsys : FS) (path : string) (re : Regexp)
    (i j : nat) (x y : fileSlice) :
  (i < j)%nat →
  (searchFile fsys path re).1 !! i = Some x →
  (searchFile fsys path re).1 !! j = Some y →
  offset x < offset y ∧
  offset x + Z.of_nat (length (data x)) ≤ offset y.
Proof.
  intros Hij Hx Hy.
  pose proof (searchFile_StronglySorted fsys path re) as Hs.
  revert i j Hij Hx Hy.
  induction Hs as [|z l Hs IH Hz]; intros i j Hij Hx Hy; [done|].
  destruct j as [|j]; [lia|]. cbn in Hy.
  destruct i as [|i]; cbn in Hx.
  - simplify_eq. rewrite Forall_forall in Hz.
    apply Hz. eapply list_elem_of_lookup_2, Hy.
  - apply (IH i j); [lia|done..].
Qed.

Lemma sliceOf_invariant path (buf : list byte) (loc : nat * nat) :
  within buf loc →
  let x := sliceOf path buf loc in
  0 ≤ offset x ∧
  offset x + Z.of_nat (length (data x)) ≤ Z.of_nat (length buf) ∧
  data x = take (length (data x)) (drop (Z.to_nat (offset x)) buf).
Proof.
  destruct loc as [s e]. intros Hin. cbn [sliceOf offset data].
  rewrite (length_slice _ s e Hin).
  destruct Hin as [H1 H2]. cbn [fst snd] in H1, H2.
  rewrite Nat2Z.id. split_and!; [lia..|done].
Qed.

(** Claim C10.  Every slice [searchFile] returns lies within the bytes read
    from the file: its offset is not negative, its offset plus its length is
    at most the number of bytes read, and its content is the part of the
    buffer that starts at its offset. *)
Theorem searchFile_slice_invariant (fsys : FS) (path : string) (re : Regexp)
    (f : File) (x : fileSlice) :
  fsys path = inr f →
  x ∈ (searchFile fsys path re).1 →
  let buf := (ReadAll (mkLimited f maxFileSize)).1 in
  0 ≤ offset x ∧
  offset x + Z.of_nat (length (data x)) ≤ Z.of_nat (length buf) ∧
  data x = take (length (data x)) (drop (Z.to_nat (offset x)) buf).
Proof.
  intros Hopen Hx buf.
  assert (buf = take (Z.to_nat maxFileSize) (pending f)) as Hbuf
    by (subst buf; by rewrite ReadAll_limited).
  clearbody buf.
  rewrite (searchFile_open _ _ _ _ Hopen), <- Hbuf in Hx.
  destruct (readError f maxFileSize); [by apply elem_of_nil in Hx|].
  apply list_elem_of_fmap in Hx as (loc & -> & Hloc).
  apply sliceOf_invariant.
  destruct (FindAllIndex_sorted re buf) as [Hin _].
  rewrite Forall_forall in Hin. by apply Hin.
Qed.

Example searchFile_scenario_a :
  searchFile demoFS "a.txt" reRemovedRefs
  = ([mkFileSlice "a.txt" (bytesOf "eeeeeeeeeeeeeeeeeeeeeeeeeeeeeeee-foo") 1],
     None).
Proof. vm_compute. reflexivity. Qed.

Example searchFile_scenario_b :
  searchFile demoFS "b.txt" reRemovedRefs = ([], None).
Proof. vm_compute. reflexivity. Qed.

Example searchFile_two :
  searchFile demoFS "two.txt" reRemovedRefs
  = ([mkFileSlice "two.txt" (bytesOf "eeeeeeeeeeeeeeeeeeeeeeeeeeeeeeee-a") 0;
      mkFileSlice "two.txt" (bytesOf "eeeeeeeeeeeeeeeeeeeeeeeeeeeeeeee-bc") 36],
     None).
Proof. vm_compute. reflexivity. Qed.

(** Claim C8.  A failure to open the file, and a failure of a read, come back
    as the error with no slice; an error never comes with slices; and a
    search that finds nothing returns the empty list with no error. *)
Theorem searchFile_errors (fsys : FS) (path : string) (re : Regexp) :
  (∀ e, fsys path = inl e → searchFile fsys path re = ([], Some e)) ∧
  (∀ f e, fsys path = inr f →
     failure f = Some e → e ≠ EOF →
     Z.of_nat (length (pending f)) < maxFileSize →
     searchFile fsys path re = ([], Some e)) ∧
  (∀ ms e, searchFile fsys path re = (ms, Some e) → ms = []) ∧
  (∀ f buf, fsys path = inr f →
     ReadAll (mkLimited f maxFileSize) = (buf, None) →
     FindAllIndex re buf = [] →
     searchFile fsys path re = ([], None)).
Proof.
  split_and!.
  - intros e Hopen. unfold searchFile. by rewrite Hopen.
  - intros f e Hopen Hfail Hne Hlen. rewrite (searchFile_open _ _ _ _ Hopen).
    unfold readError. rewrite (proj2 (Z.ltb_lt _ _) Hlen), Hfail.
    by destruct e.
  - intros ms e. destruct (fsys path) as [e'|f] eqn:Hopen.
    + unfold searchFile. rewrite Hopen. by intros ?; simplify_eq.
    + rewrite (searchFile_open _ _ _ _ Hopen).
      destruct (readError f maxFileSize); by intros ?; simplify_eq.
  - intros f buf Hopen Hread Hlocs. unfold searchFile.
    by rewrite Hopen, Hread, Hlocs.
Qed.

Lemma searchFile_errors_witness :
  searchFile demoFS "secret" reRemovedRefs = ([], Some ErrPermission) ∧
  searchFile demoFS "broken" reRemovedRefs
    = ([], Some (ErrIO "input/output error")) ∧
  (searchFile demoFS "broken" reRemovedRefs).1 = [] ∧
  searchFile demoFS "b.txt" reRemovedRefs = ([], None).
Proof.
  destruct (searchFile_errors demoFS "secret" reRemovedRefs) as (H1 & _).
  destruct (searchFile_errors demoFS "broken" reRemovedRefs)
    as (_ & H2 & H3 & _).
  destruct (searchFile_errors demoFS "b.txt" reRemovedRefs) as (_ & _ & _ & H4).
  split_and!.
  - apply H1. reflexivity.
  - eapply H2; [reflexivity|reflexivity|discriminate|reflexivity].
  - apply (H3 _ (ErrIO "input/output error")). vm_compute. reflexivity.
  - eapply H4; [reflexivity|vm_compute; reflexivity|vm_compute; reflexivity].
Defined.

Lemma maxFileSize_nat : Z.of_nat (Z.to_nat maxFileSize) = maxFileSize.
Proof. apply Z2Nat.id. rewrite maxFileSize_eq. lia. Qed.

(** Reading a file longer than the limit [n]: the limiter ends the stream,
    whatever the file would do afterwards. *)
Lemma readError_beyond (f : File) (n : Z) :
  n ≤ Z.of_nat (length (pending f)) → readError f n = None.
Proof.
  intros Hn. unfold readError. by rewrite (proj2 (Z.ltb_ge _ _)).
Qed.

Lemma take_head_limit (f : File) (n : Z) (m : nat) :
  Z.of_nat m = n → n < Z.of_nat (length (pending f)) →
  Z.of_nat (length (take m (pending f))) = n ∧
  take m (take m (pending f)) = take m (pending f).
Proof.
  intros Hm Hn. rewrite length_take. split; [lia|].
  apply take_ge. rewrite length_take. lia.
Qed.

Lemma searchFile_beyond fsys path re f :
  fsys path = inr f →
  maxFileSize ≤ Z.of_nat (length (pending f)) →
  searchFile fsys path re
  = (map (sliceOf path (take (Z.to_nat maxFileSize) (pending f)))
         (FindAllIndex re (take (Z.to_nat maxFileSize) (pending f))), None).
Proof.
  intros Hopen Hbig.
  rewrite (searchFile_open _ _ _ _ Hopen), readError_beyond; done.
Qed.

Lemma searchFile_exact path re (head : list byte) ch :
  Z.of_nat (length head) = maxFileSize →
  searchFile (λ _, inr (mkFile head None ch)) path re
  = (map (sliceOf path head) (FindAllIndex re head), None).
Proof.
  intros Hlen.
  rewrite (searchFile_beyond _ _ _ (mkFile head None ch)); cbn [pending];
    [|done|by rewrite Hlen].
  rewrite take_ge; [done|].
  apply Nat2Z.inj_le. rewrite maxFileSize_nat, Hlen. done.
Qed.

(** Claim C4.  For a file of more than [maxFileSize] = 2^30 bytes,
    [searchFile] returns the matches of the first 2^30 bytes: the same
    result as for the file cut after 2^30 bytes, and no slice reaches
    beyond that boundary. *)
Theorem searchFile_ceiling (fsys : FS) (path : string) (re : Regexp) (f : File) :
  fsys path = inr f →
  maxFileSize < Z.of_nat (length (pending f)) →
  let head := take (Z.to_nat maxFileSize) (pending f) in
  searchFile fsys path re
    = (map (sliceOf path head) (FindAllIndex re head), None) ∧
  searchFile fsys path re
    = searchFile (λ _, inr (mkFile head None (chunk f))) path re ∧
  ∀ x, x ∈ (searchFile fsys path re).1 →
       offset x + Z.of_nat (length (data x)) ≤ maxFileSize.
Proof.
  intros Hopen Hbig.
  pose proof (searchFile_beyond fsys path re f Hopen (Z.lt_le_incl _ _ Hbig))
    as Hres.
  destruct (take_head_limit f _ _ maxFileSize_nat Hbig) as [Hlen _].
  revert Hres Hlen.
  generalize (take (Z.to_nat maxFileSize) (pending f)) as head.
  intros head Hres Hlen. cbv zeta.
  split_and!; [done|by rewrite searchFile_exact|].
  intros x Hx. rewrite Hres in Hx. cbn [fst] in Hx.
  apply list_elem_of_fmap in Hx as (loc & -> & Hloc).
  destruct (FindAllIndex_sorted re head) as [Hin _].
  rewrite Forall_forall in Hin.
  destruct (sliceOf_invariant path head loc (Hin _ Hloc)) as (_ & ? & _).
  lia.
Qed.

Lemma searchFile_ceiling_witness :
  let head := take (Z.to_nat maxFileSize) (pending bigFile) in
  searchFile bigFS "big" reRemovedRefs
    = searchFile (λ _, inr (mkFile head None 0)) "big" reRemovedRefs.
Proof.
  intros head.
  refine (proj1 (proj2 (searchFile_ceiling bigFS "big" reRemovedRefs bigFile
                          eq_refl _))).
  unfold bigFile; cbn [pending]. rewrite length_replicate, Nat2Z.inj_succ.
  rewrite Z2Nat.id; [lia|]. rewrite maxFileSize_eq. lia.
Defined.

Lemma searchFile_sorted_witness :
  offset sliceA < offset sliceB ∧
  offset sliceA + Z.of_nat (length (data sliceA)) ≤ offset sliceB.
Proof.
  apply (searchFile_sorted demoFS "two.txt" reRemovedRefs 0 1 sliceA sliceB).
  - lia.
  - vm_compute. reflexivity.
  - vm_compute. reflexivity.
Defined.

Lemma searchFile_slice_invariant_witness :
  let buf := (ReadAll (mkLimited twoFile maxFileSize)).1 in
  0 ≤ offset sliceB ∧
  offset sliceB + Z.of_nat (length (data sliceB)) ≤ Z.of_nat (length buf) ∧
  data sliceB = take (length (data sliceB)) (drop (Z.to_nat (offset sliceB)) buf).
Proof.
  apply (searchFile_slice_invariant demoFS "two.txt" reRemovedRefs).
  - reflexivity.
  - vm_compute. right. left.
Defined.

(** ** [strings.Cut] and [searchEnv] *)

Lemma substring_append_l (s1 s2 : string) :
  substring 0 (String.length s1) (s1 +:+ s2) = s1.
Proof.
  induction s1 as [|c s1 IH]; simpl.
  - by destruct s2.
  - by rewrite IH.
Qed.

Lemma substring_all (s : string) : substring 0 (String.length s) s = s.
Proof. induction s as [|c s IH]; simpl; [done|by rewrite IH]. Qed.

Lemma substring_append_r (s1 s2 : string) (k m : nat) :
  substring (String.length s1 + k) m (s1 +:+ s2) = substring k m s2.
Proof. induction s1 as [|c s1 IH]; simpl; [done|by rewrite IH]. Qed.

Lemma length_append (s1 s2 : string) :
  String.length (s1 +:+ s2) = (String.length s1 + String.length s2)%nat.
Proof. induction s1 as [|c s1 IH]; simpl; [done|by rewrite IH]. Qed.

Lemma prefix_empty (s : string) : String.prefix "" s = true.
Proof. by destruct s. Qed.

Lemma index_eq_cons (c : ascii) (s : string) :
  String.index 0 "=" (String c s)
  = if ascii_dec "=" c then Some 0%nat else S <$> String.index 0 "=" s.
Proof.
  cbn [String.index String.prefix].
  destruct (ascii_dec "=" c); [by rewrite prefix_empty|].
  by destruct (String.index 0 "=" s).
Qed.

Lemma index_first_eq (name rest : string) :
  String.index 0 "=" name = None →
  String.index 0 "=" (name +:+ "=" +:+ rest) = Some (String.length name).
Proof.
  induction name as [|c name IH]; intros Hname.
  - change ("" +:+ "=" +:+ rest)%string with (String "=" rest).
    rewrite index_eq_cons. by destruct (ascii_dec "=" "=").
  - change (String c name +:+ "=" +:+ rest)%string
      with (String c (name +:+ "=" +:+ rest)).
    rewrite index_eq_cons in Hname |- *.
    destruct (ascii_dec "=" c) as [|Hc]; [done|].
    destruct (String.index 0 "=" name) eqn:Hi; [done|].
    by rewrite IH.
Qed.

(** An entry [NAME=VALUE] is cut at the first [=]: whatever follows it,
    further [=] included, is the value. *)
Lemma Cut_entry (name value : string) :
  String.index 0 "=" name = None →
  Cut (name +:+ "=" +:+ value) "=" = (name, value, true).
Proof.
  intros Hname. unfold Cut. rewrite (index_first_eq _ _ Hname).
  rewrite substring_append_l, substring_append_r, length_append.
  change (String.length "=") with 1%nat.
  change (String.length ("=" +:+ value)) with (S (String.length value)).
  replace (String.length name + S (String.length value)
           - (String.length name + 1))%nat with (String.length value) by lia.
  change (substring 1 (String.length value) ("=" +:+ value))
    with (substring 0 (String.length value) value).
  by rewrite substring_all.
Qed.

(** An entry without [=] has the empty value. *)
Lemma Cut_no_eq (s : string) :
  String.index 0 "=" s = None → Cut s "=" = (s, ""%string, false).
Proof. intros Hs. unfold Cut. by rewrite Hs. Qed.

Lemma envValues_entries (entries : list (string * string)) :
  Forall (λ e, String.index 0 "=" e.1 = None) entries →
  envValues (map entry entries) = map snd entries.
Proof.
  induction 1 as [|[name value] entries Hname _ IH]; [done|].
  unfold envValues in *. cbn [map]. rewrite IH. unfold entry at 1.
  cbn [fst snd] in *. by rewrite (Cut_entry _ _ Hname).
Qed.

(** The loop returns the first result of [FindString] that is not empty. *)
Lemma searchEnvLoop_spec (re : Regexp) (values : list string) :
  (searchEnvLoop re values = ""%string ∧
   Forall (λ v, FindString re v = ""%string) values)
  ∨ (∃ i v, values !! i = Some v ∧
            searchEnvLoop re values = FindString re v ∧
            FindString re v ≠ ""%string ∧
            Forall (λ v', FindString re v' = ""%string) (take i values)).
Proof.
  induction values as [|v values IH]; cbn [searchEnvLoop].
  - left. by split.
  - destruct (String.eqb_spec (FindString re v) "") as [Hv|Hv]; cbn [negb].
    + destruct IH as [[Hr Hall]|(i & v' & Hi & Hr & Hne & Hall)].
      * left. split; [done|by constructor].
      * right. exists (S i), v'. split_and!; [done..|].
        cbn [take]. by constructor.
    + right. exists 0%nat, v. split_and!; [done..|]. cbn. constructor.
Qed.

Lemma FindString_no_match (re : Regexp) (v : string) :
  doExecute re (bytesOf v) 0 = None → FindString re v = ""%string.
Proof. intros H. unfold FindString. by rewrite H. Qed.

(** Claim C7, amended.  For an environment of entries [NAME=VALUE] whose
    names hold no [=], [searchEnv] looks at the values only, in the order of
    the environment: it returns the first result of [FindString] on a value
    that is not the empty string, and the empty string when there is none;
    so a pattern that matches no value gives no match, whatever the names
    are. *)
Theorem searchEnv_first_nonempty (re : Regexp)
    (entries : list (string * string)) :
  Forall (λ e, String.index 0 "=" e.1 = None) entries →
  let environ := map entry entries in
  envValues environ = map snd entries ∧
  ((searchEnv re environ = ""%string ∧
    Forall (λ e, FindString re e.2 = ""%string) entries)
   ∨ (∃ i e, entries !! i = Some e ∧
             searchEnv re environ = FindString re e.2 ∧
             FindString re e.2 ≠ ""%string ∧
             Forall (λ e', FindString re e'.2 = ""%string) (take i entries))) ∧
  (Forall (λ e, doExecute re (bytesOf e.2) 0 = None) entries →
   searchEnv re environ = ""%string).
Proof.
  intros Hnames environ.
  pose proof (envValues_entries _ Hnames) as Hvalues. fold environ in Hvalues.
  split; [done|]. unfold searchEnv. rewrite Hvalues.
  destruct (searchEnvLoop_spec re (map snd entries))
    as [[Hr Hall]|(i & v & Hi & Hr & Hne & Hall)].
  - apply Forall_fmap in Hall. split; [left; by split|done].
  - apply list_lookup_fmap_Some in Hi as (e & -> & He).
    rewrite <- fmap_take in Hall. apply Forall_fmap in Hall.
    split; [right; by exists i, e|].
    intros Hnone. rewrite Forall_forall in Hnone.
    destruct Hne. apply FindString_no_match, Hnone.
    by eapply list_elem_of_lookup_2.
Qed.

Example searchEnv_ex1 :
  searchEnv reRemovedRefs
    ["HOME=/home/u"; "eeeeeeeeeeeeeeeeeeeeeeeeeeeeeeee-name=plain";
     "PATH=/bin:/nix/store/eeeeeeeeeeeeeeeeeeeeeeeeeeeeeeee-gcc-13/bin";
     "X=eeeeeeeeeeeeeeeeeeeeeeeeeeeeeeee-later"]%string
  = "eeeeeeeeeeeeeeeeeeeeeeeeeeeeeeee-gcc-13"%string.
Proof. vm_compute. reflexivity. Qed.

(** The pattern [v*] matches the first value of this environment, with the
    empty string; [searchEnv] passes it over and answers from the second
    value. *)
Lemma searchEnv_first_match_counterexample :
  let environ := ["A=b"; "B=vv"]%string in
  doExecute reStarV (bytesOf "b") 0 = Some (0%nat, 0%nat) ∧
  firstMatch reStarV (envValues environ) = ""%string ∧
  searchEnv reStarV environ = "vv"%string ∧
  searchEnv reStarV environ ≠ firstMatch reStarV (envValues environ).
Proof. vm_compute. split_and!; [done..|discriminate]. Qed.

Lemma searchEnv_first_nonempty_witness :
  searchEnv reStarV (map entry [("A", "b"); ("B", "vv")]%string)
  = FindString reStarV "vv".
Proof.
  assert (Forall (λ e : string * string, String.index 0 "=" e.1 = None)
            [("A", "b"); ("B", "vv")]%string) as Hnames
    by (repeat constructor).
  destruct (searchEnv_first_nonempty reStarV _ Hnames)
    as (_ & [[H _]|(i & e & Hi & Hr & Hne & Hall)] & _).
  - vm_compute in H. discriminate H.
  - destruct i as [|[|i]]; cbn in Hi; simplify_eq. exact Hr.
Defined.

Lemma stringOf_empty (b : list byte) : stringOf b = ""%string → b = [].
Proof. by destruct b. Qed.

Lemma FindString_nonempty (re : Regexp) (v : string) (a0 a1 : nat) :
  doExecute re (bytesOf v) 0 = Some (a0, a1) → (a0 < a1)%nat →
  FindString re v ≠ ""%string.
Proof.
  intros Hex Hlt. unfold FindString. rewrite Hex.
  intros Hempty%stringOf_empty%(f_equal length).
  pose proof (doExecute_bounds re _ _ _ _ Hex) as (_ & _ & Hlen).
  rewrite length_take, length_drop in Hempty. cbn [length] in Hempty. lia.
Qed.

(** For a pattern that matches no empty string in the values, [searchEnv]
    returns the match in the first value the pattern matches. *)
Lemma searchEnv_firstMatch (re : Regexp) (environ : list string) :
  (∀ v a0 a1, v ∈ envValues environ →
     doExecute re (bytesOf v) 0 = Some (a0, a1) → (a0 < a1)%nat) →
  searchEnv re environ = firstMatch re (envValues environ).
Proof.
  unfold searchEnv. generalize (envValues environ) as values.
  induction values as [|v values IH]; intros Hne; [done|].
  cbn [searchEnvLoop firstMatch].
  destruct (doExecute re (bytesOf v) 0) as [[a0 a1]|] eqn:Hex.
  - rewrite (proj2 (String.eqb_neq _ _)); [done|].
    eapply FindString_nonempty; [done|]. eapply Hne; [left|done].
  - rewrite (FindString_no_match _ _ Hex). cbn. apply IH.
    intros v' a0 a1 Hv'. apply Hne. by right.
Qed.

(** ** [searchGlobs] *)

Lemma elem_of_fresh seen l x : x ∈ fresh seen l ↔ x ∈ l ∧ x ∉ seen.
Proof.
  revert seen. induction l as [|y l IH]; intros seen; cbn [fresh].
  - rewrite elem_of_nil. tauto.
  - case_decide as Hy; [rewrite IH|rewrite elem_of_cons, IH];
      rewrite ?elem_of_cons, ?not_elem_of_cons.
    + split; [tauto|]. intros [[->|?] ?]; tauto.
    + split; [intros [->|?]; tauto|]. destruct (decide (x = y)); tauto.
Qed.

Lemma NoDup_fresh seen l : NoDup (fresh seen l).
Proof.
  revert seen. induction l as [|y l IH]; intros seen; cbn [fresh].
  - constructor.
  - case_decide; [done|]. constructor; [|done].
    rewrite elem_of_fresh, not_elem_of_cons. tauto.
Qed.

Lemma fresh_all_seen seen l : (∀ x, x ∈ l → x ∈ seen) → fresh seen l = [].
Proof.
  revert seen. induction l as [|y l IH]; intros seen Hl; cbn [fresh]; [done|].
  rewrite decide_True by (apply Hl; left). apply IH.
  intros x Hx. apply Hl. by right.
Qed.

Lemma fresh_app seen l1 l2 :
  fresh seen (l1 ++ l2)
  = fresh seen l1 ++ fresh (reverse (fresh seen l1) ++ seen) l2.
Proof.
  revert seen. induction l1 as [|y l1 IH]; intros seen; cbn [fresh app].
  - done.
  - case_decide; [done|]. cbn [app]. rewrite IH. f_equal. f_equal.
    by rewrite reverse_cons, <- (assoc_L (++)).
Qed.

(** In [fresh seen l] a path comes before another one when its first
    occurrence in [l] does. *)
Lemma fresh_order seen l : ∀ i j p q,
  (i < j)%nat → fresh seen l !! i = Some p → fresh seen l !! j = Some q →
  ∃ k, l !! k = Some p ∧ q ∉ take k l.
Proof.
  revert seen. induction l as [|x l IH]; intros seen i j p q Hij; cbn [fresh].
  - done.
  - case_decide as Hx.
    + intros Hp Hq. destruct (IH _ _ _ _ _ Hij Hp Hq) as (k & Hk & Hnot).
      exists (S k). split; [done|]. cbn [take]. rewrite not_elem_of_cons.
      split; [|done]. intros ->.
      apply list_elem_of_lookup_2, elem_of_fresh in Hq. tauto.
    + destruct j as [|j]; [lia|]. destruct i as [|i]; cbn.
      * intros ? _; simplify_eq. exists 0%nat. split; [done|]. cbn.
        apply not_elem_of_nil.
      * intros Hp Hq.
        destruct (IH _ i j _ _ ltac:(lia) Hp Hq) as (k & Hk & Hnot).
        exists (S k). split; [done|]. cbn [take]. rewrite not_elem_of_cons.
        split; [|done]. intros ->.
        apply list_elem_of_lookup_2, elem_of_fresh in Hq.
        rewrite not_elem_of_cons in Hq. tauto.
Qed.

Lemma elem_of_candidates G patterns p :
  p ∈ candidates G patterns ↔
  ∃ pattern glob, pattern ∈ patterns ∧ G pattern = Some glob ∧ p ∈ glob.
Proof.
  unfold candidates. rewrite list_elem_of_bind. split.
  - intros (pattern & Hp & Hin).
    destruct (G pattern) as [glob|] eqn:HG; [|by apply elem_of_nil in Hp].
    by exists pattern, glob.
  - intros (pattern & glob & Hin & HG & Hp). exists pattern. by rewrite HG.
Qed.

Lemma holds_seenSet w ref seen x :
  holds w ref seen → holds (emit (seenSet w ref x) (Yield x)) ref (x :: seen).
Proof.
  intros [Href Hseen]. split; unfold emit, seenSet; cbn [heap].
  - by rewrite length_insert.
  - intros y. unfold seenGet in *. cbn [heap].
    rewrite list_lookup_insert_eq by done. cbn [default from_option]. unfold id.
    rewrite elem_of_cons, <- Hseen.
    destruct (decide (x = y)) as [->|Hne].
    + rewrite lookup_insert_eq. naive_solver.
    + rewrite lookup_insert_ne by done. naive_solver.
Qed.

Lemma holds_emit w ref seen e : holds w ref seen → holds (emit w e) ref seen.
Proof. done. Qed.

Lemma yields_emit_Yield w p : yields (emit w (Yield p)) = yields w ++ [p].
Proof. unfold yields, yieldsOf, emit; cbn [log]. by rewrite omap_app. Qed.

Lemma yields_emit_GlobCall w p : yields (emit w (GlobCall p)) = yields w.
Proof. unfold yields, yieldsOf, emit; cbn [log]. by rewrite omap_app, app_nil_r. Qed.

Lemma globCalls_emit_Yield w p : globCalls (emit w (Yield p)) = globCalls w.
Proof. unfold globCalls, globCallsOf, emit; cbn [log]. by rewrite omap_app, app_nil_r. Qed.

Lemma globCalls_emit_GlobCall w p :
  globCalls (emit w (GlobCall p)) = globCalls w ++ [p].
Proof. unfold globCalls, globCallsOf, emit; cbn [log]. by rewrite omap_app. Qed.

(** The inner loop under a consumer that takes everything. *)
Lemma rangeGlob_collect ref glob : ∀ w acc seen,
  holds w ref seen →
  ∃ w', rangeGlob collect ref glob w acc = (true, w', acc ++ fresh seen glob) ∧
        holds w' ref (reverse (fresh seen glob) ++ seen) ∧
        yields w' = yields w ++ fresh seen glob ∧
        globCalls w' = globCalls w.
Proof.
  induction glob as [|x glob IH]; intros w acc seen Hw; cbn [rangeGlob fresh].
  - exists w. by rewrite !app_nil_r.
  - destruct (seenGet w ref x) eqn:Hget.
    + rewrite decide_True by (by apply Hw). by apply IH.
    + rewrite decide_False by (rewrite <- (proj2 Hw); congruence).
      cbn [collect negb].
      destruct (IH _ (acc ++ [x]) _ (holds_seenSet _ _ _ x Hw))
        as (w' & -> & Hw' & Hy & Hg).
      exists w'. split_and!.
      * by rewrite <- (assoc_L (++)).
      * by rewrite reverse_cons, <- (assoc_L (++)).
      * by rewrite Hy, yields_emit_Yield, <- (assoc_L (++)).
      * by rewrite Hg, globCalls_emit_Yield.
Qed.

Lemma rangePatterns_collect G ref patterns : ∀ w acc seen,
  holds w ref seen →
  ∃ w', rangePatterns G collect ref patterns w acc
          = (true, w', acc ++ fresh seen (candidates G patterns)) ∧
        holds w' ref (reverse (fresh seen (candidates G patterns)) ++ seen) ∧
        yields w' = yields w ++ fresh seen (candidates G patterns) ∧
        globCalls w' = globCalls w ++ patterns.
Proof.
  induction patterns as [|pattern patterns IH]; intros w acc seen Hw;
    cbn [rangePatterns].
  - exists w. unfold candidates. cbn. by rewrite !app_nil_r.
  - change (candidates G (pattern :: patterns))
      with (default [] (G pattern) ++ candidates G patterns).
    rewrite fresh_app.
    destruct (G pattern) as [glob|] eqn:HG; cbn [default].
    + destruct (rangeGlob_collect ref glob _ acc seen
                  (holds_emit _ _ _ (GlobCall pattern) Hw))
        as (w1 & -> & Hw1 & Hy1 & Hg1).
      destruct (IH _ (acc ++ fresh seen glob) _ Hw1) as (w' & -> & Hw' & Hy & Hg).
      exists w'. split_and!.
      * by rewrite <- (assoc_L (++)).
      * by rewrite reverse_app, <- (assoc_L (++)).
      * by rewrite Hy, Hy1, yields_emit_GlobCall, <- (assoc_L (++)).
      * by rewrite Hg, Hg1, globCalls_emit_GlobCall, <- (assoc_L (++)).
    + destruct (IH _ acc _ (holds_emit _ _ _ (GlobCall pattern) Hw))
        as (w' & -> & Hw' & Hy & Hg).
      exists w'. cbn [fresh app reverse]. split_and!; [done..| |].
      * by rewrite Hy, yields_emit_GlobCall.
      * by rewrite Hg, globCalls_emit_GlobCall, <- (assoc_L (++)).
Qed.

Lemma searchGlobs_holds patterns w :
  holds (searchGlobs patterns w).2 (seqSeen (searchGlobs patterns w).1) [].
Proof.
  unfold searchGlobs, holds, seenGet; cbn.
  rewrite length_app. cbn. split; [lia|]. intros x.
  rewrite lookup_app_r by lia. rewrite Nat.sub_diag. cbn.
  rewrite lookup_empty. cbn. rewrite elem_of_nil. naive_solver.
Qed.

(** A full pass over the sequence [it], whatever the map behind it holds:
    the paths not seen before come out, and are seen afterwards. *)
Lemma iterate_collect G it w seen :
  holds w (seqSeen it) seen →
  ∃ w', iterate G it collect w []
          = (true, w', fresh seen (candidates G (seqPatterns it))) ∧
        holds w' (seqSeen it)
          (reverse (fresh seen (candidates G (seqPatterns it))) ++ seen) ∧
        yields w' = yields w ++ fresh seen (candidates G (seqPatterns it)) ∧
        globCalls w' = globCalls w ++ seqPatterns it.
Proof.
  intros Hw. unfold iterate.
  destruct (rangePatterns_collect G (seqSeen it) (seqPatterns it) w [] seen Hw)
    as (w' & Hrun & Hrest).
  exists w'. by rewrite Hrun.
Qed.

(** Claim C1.  One iteration of a fresh [searchGlobs] sequence by a consumer
    that never stops runs to the end, expands every pattern, and yields
    exactly the paths matched by some well-formed pattern, each of them
    once, a path coming before another one when its first occurrence among
    the matches, taken in the order of the patterns, does; a malformed
    pattern contributes nothing and stops nothing. *)
Theorem searchGlobs_yields_once (G : Globber) (patterns : list string)
    (w : World) :
  let '(it, w1) := searchGlobs patterns w in
  let '(completed, w2, out) := iterate G it collect w1 [] in
  completed = true ∧
  yields w2 = yields w ++ out ∧
  globCalls w2 = globCalls w ++ patterns ∧
  NoDup out ∧
  (∀ p, p ∈ out ↔
        ∃ pattern glob, pattern ∈ patterns ∧ G pattern = Some glob ∧ p ∈ glob) ∧
  (∀ i j p q, (i < j)%nat → out !! i = Some p → out !! j = Some q →
     ∃ k, candidates G patterns !! k = Some p ∧
          q ∉ take k (candidates G patterns)).
Proof.
  pose proof (searchGlobs_holds patterns w) as Hw.
  destruct (searchGlobs patterns w) as [it w1] eqn:Hit. cbn [fst snd] in Hw.
  assert (seqPatterns it = patterns) as Hpat
    by (unfold searchGlobs in Hit; by simplify_eq).
  assert (yields w1 = yields w ∧ globCalls w1 = globCalls w) as [Hy1 Hg1]
    by (unfold searchGlobs in Hit; by simplify_eq).
  destruct (iterate_collect G it w1 [] Hw) as (w2 & -> & _ & Hy & Hg).
  rewrite Hpat in *. split_and!.
  - done.
  - by rewrite Hy, Hy1.
  - by rewrite Hg, Hg1.
  - apply NoDup_fresh.
  - intros p. rewrite elem_of_fresh, elem_of_candidates, elem_of_nil. tauto.
  - apply fresh_order.
Qed.

(** Claim C2, amended.  The map [seen] belongs to the call of [searchGlobs],
    not to one iteration: after a full iteration, a second iteration of the
    same sequence yields nothing, while the sequence of a fresh call with
    the same patterns yields the same paths again. *)
Theorem searchGlobs_single_pass (G : Globber) (patterns : list string)
    (w : World) :
  let '(it, w1) := searchGlobs patterns w in
  let '(_, w2, first) := iterate G it collect w1 [] in
  let '(_, w3, second) := iterate G it collect w2 [] in
  let '(it', w4) := searchGlobs patterns w3 in
  let '(_, _, again) := iterate G it' collect w4 [] in
  second = [] ∧ again = first.
Proof.
  pose proof (searchGlobs_holds patterns w) as Hw.
  destruct (searchGlobs patterns w) as [it w1] eqn:Hit. cbn [fst snd] in Hw.
  assert (seqPatterns it = patterns) as Hpat
    by (unfold searchGlobs in Hit; by simplify_eq).
  destruct (iterate_collect G it w1 [] Hw) as (w2 & -> & Hw2 & _).
  destruct (iterate_collect G it w2 _ Hw2) as (w3 & -> & _).
  pose proof (searchGlobs_holds patterns w3) as Hw3.
  destruct (searchGlobs patterns w3) as [it' w4] eqn:Hit'.
  cbn [fst snd] in Hw3.
  assert (seqPatterns it' = patterns) as Hpat'
    by (unfold searchGlobs in Hit'; by simplify_eq).
  destruct (iterate_collect G it' w4 [] Hw3) as (w5 & -> & _).
  rewrite Hpat, Hpat'. split; [|done].
  apply fresh_all_seen. intros x Hx.
  rewrite app_nil_r, elem_of_reverse, elem_of_fresh, elem_of_nil. tauto.
Qed.

Lemma searchGlobs_restart_counterexample :
  let '(it, w1) := searchGlobs ["a*"; "*b"]%string emptyWorld in
  let '(_, w2, first) := iterate demoGlob it collect w1 [] in
  let '(_, _, second) := iterate demoGlob it collect w2 [] in
  first = ["ab"; "ac"; "bb"]%string ∧ second = [] ∧ second ≠ first.
Proof. vm_compute. done. Qed.

(** The inner loop under any consumer: it only yields, and if it is left by
    [return], it has just yielded. *)
Lemma rangeGlob_log {C} (yield : string → C → bool * C) ref glob :
  ∀ w c more w' c',
  rangeGlob yield ref glob w c = (more, w', c') →
  ∃ ys, log w' = log w ++ (Yield <$> ys) ∧ (∀ y, y ∈ ys → y ∈ glob) ∧
        (more = false →
         ∃ ys' y c0, ys = ys' ++ [y] ∧ yield y c0 = (false, c')).
Proof.
  induction glob as [|x glob IH]; intros w c more w' c'; cbn [rangeGlob].
  - intros ?; simplify_eq. exists []. by rewrite app_nil_r.
  - destruct (seenGet w ref x).
    { intros (ys & Hlog & Hin & Hstop)%IH. exists ys.
      split_and!; [done| |done]. intros y Hy. right. by apply Hin. }
    destruct (yield x c) as [[] c1] eqn:Hyield; cbn [negb].
    + intros (ys & Hlog & Hin & Hstop)%IH. exists (x :: ys). split_and!.
      * rewrite Hlog. unfold emit, seenSet; cbn [log fmap list_fmap].
        by rewrite <- (assoc_L (++)).
      * intros y [->|Hy]%elem_of_cons; [left|right; by apply Hin].
      * intros (ys' & y & c0 & -> & Hy)%Hstop. by exists (x :: ys'), y, c0.
    + intros ?; simplify_eq. exists [x]. split_and!; [done| |].
      * intros y ->%list_elem_of_singleton. left.
      * intros _. by exists [], x, c.
Qed.

Lemma globCallsOf_Yield ys : globCallsOf (Yield <$> ys) = [].
Proof. induction ys as [|y ys IH]; [done|]. by cbn. Qed.

Lemma globCallsOf_app evs1 evs2 :
  globCallsOf (evs1 ++ evs2) = globCallsOf evs1 ++ globCallsOf evs2.
Proof. apply omap_app. Qed.

(** The outer loop, left by [return]: the log ends with the [yield] that was
    answered with [false]; before it, [filepath.Glob] was called for the
    patterns up to the one whose matches were being yielded. *)
Lemma rangePatterns_stop {C} G (yield : string → C → bool * C) ref patterns :
  ∀ w c w' c',
  rangePatterns G yield ref patterns w c = (false, w', c') →
  ∃ pre pattern post glob evs p c0,
    patterns = pre ++ pattern :: post ∧
    G pattern = Some glob ∧ p ∈ glob ∧
    log w' = log w ++ evs ++ [Yield p] ∧
    globCallsOf evs = pre ++ [pattern] ∧
    yield p c0 = (false, c').
Proof.
  induction patterns as [|pattern patterns IH]; intros w c w' c';
    cbn [rangePatterns]; [done|].
  assert (∀ w1 c1, rangePatterns G yield ref patterns w1 c1 = (false, w', c') →
          ∀ evs0, log w1 = log w ++ evs0 → globCallsOf evs0 = [pattern] →
          ∃ pre pattern0 post glob evs p c0,
            pattern :: patterns = pre ++ pattern0 :: post ∧
            G pattern0 = Some glob ∧ p ∈ glob ∧
            log w' = log w ++ evs ++ [Yield p] ∧
            globCallsOf evs = pre ++ [pattern0] ∧
            yield p c0 = (false, c')) as Hrest.
  { intros w1 c1 Hrun evs0 Hlog1 Hcalls0.
    apply IH in Hrun
      as (pre & pat & post & glob & evs & p & c0 & -> & HG & Hp & Hlog
          & Hcalls & Hstop).
    exists (pattern :: pre), pat, post, glob, (evs0 ++ evs), p, c0.
    split_and!; [done..| | |done].
    - by rewrite Hlog, Hlog1, <- !(assoc_L (++)).
    - by rewrite globCallsOf_app, Hcalls0, Hcalls. }
  destruct (G pattern) as [glob|] eqn:HG.
  - destruct (rangeGlob yield ref glob _ c) as [[more w1] c1] eqn:Hglob.
    apply rangeGlob_log in Hglob as (ys & Hlog1 & Hin & Hstop).
    unfold emit in Hlog1; cbn [log] in Hlog1.
    destruct more.
    + intros Hrun. apply (Hrest _ _ Hrun ([GlobCall pattern] ++ (Yield <$> ys))).
      * by rewrite Hlog1, <- (assoc_L (++)).
      * by rewrite globCallsOf_app, globCallsOf_Yield.
    + intros ?; simplify_eq.
      destruct (Hstop eq_refl) as (ys' & y & c0 & -> & Hy).
      exists [], pattern, patterns, glob,
        ([GlobCall pattern] ++ (Yield <$> ys')), y, c0.
      split_and!; [done|done| | | |done].
      * apply Hin, elem_of_app. right. left.
      * rewrite Hlog1, fmap_app. cbn [fmap list_fmap].
        by rewrite <- !(assoc_L (++)).
      * by rewrite globCallsOf_app, globCallsOf_Yield.
  - intros Hrun. apply (Hrest _ _ Hrun [GlobCall pattern]); done.
Qed.

Lemma feed_app {C} (yield : string → C → bool * C) evs1 evs2 c :
  feed yield (evs1 ++ evs2) c = feed yield evs2 (feed yield evs1 c).
Proof.
  revert c. induction evs1 as [|[pat|p] evs1 IH]; intros c; cbn [app feed]; auto.
Qed.

Lemma verdicts_app {C} (yield : string → C → bool * C) evs1 evs2 c :
  verdicts yield (evs1 ++ evs2) c
  = verdicts yield evs1 c ++ verdicts yield evs2 (feed yield evs1 c).
Proof.
  revert c. induction evs1 as [|[pat|p] evs1 IH]; intros c;
    cbn [app feed verdicts]; [done|by rewrite IH..].
Qed.

Lemma goOn_true_app n more m :
  replicate n true ++ goOn more m = goOn more (n + m).
Proof. unfold goOn. by rewrite (assoc_L (++)), <- replicate_add. Qed.

(** In such answers, an answer [false] is the last one. *)
Lemma goOn_false more n l1 l2 :
  goOn more n = l1 ++ false :: l2 → l2 = [] ∧ more = false.
Proof.
  unfold goOn. revert l1. induction n as [|n IH]; intros l1; cbn [replicate app].
  - destruct more; [by destruct l1|].
    destruct l1 as [|b l1]; cbn [app].
    + intros H. injection H as <-. done.
    + intros H. injection H as _ H. by destruct l1.
  - destruct l1 as [|b l1]; [done|]. cbn [app]. intros ?; simplify_eq.
    by eapply IH.
Qed.

(** The inner loop under any consumer: what it adds to the log, the state
    it leaves the consumer in, and the answers it got. *)
Lemma rangeGlob_verdicts {C} (yield : string → C → bool * C) ref glob :
  ∀ w c more w' c',
  rangeGlob yield ref glob w c = (more, w', c') →
  ∃ ys, log w' = log w ++ (Yield <$> ys) ∧
        c' = feed yield (Yield <$> ys) c ∧
        ∃ n, verdicts yield (Yield <$> ys) c = goOn more n.
Proof.
  induction glob as [|x glob IH]; intros w c more w' c'; cbn [rangeGlob].
  - intros ?; simplify_eq. exists []. rewrite app_nil_r.
    split_and!; [done..|]. by exists 0%nat.
  - destruct (seenGet w ref x); [apply IH|].
    destruct (yield x c) as [[] c1] eqn:Hyield; cbn [negb].
    + intros (ys & Hlog & Hc & n & Hv)%IH. exists (x :: ys). split_and!.
      * rewrite Hlog. unfold emit, seenSet; cbn [log fmap list_fmap].
        by rewrite <- (assoc_L (++)).
      * cbn [fmap list_fmap feed]. by rewrite Hyield.
      * exists (S n). cbn [fmap list_fmap verdicts]. rewrite Hyield. cbn [fst snd].
        fold (fmap (M:=list) Yield ys). by rewrite Hv.
    + intros ?; simplify_eq. exists [x]. split_and!; [done| |].
      * cbn. by rewrite Hyield.
      * exists 0%nat. cbn. by rewrite Hyield.
Qed.

Lemma rangePatterns_verdicts {C} G (yield : string → C → bool * C) ref patterns :
  ∀ w c more w' c',
  rangePatterns G yield ref patterns w c = (more, w', c') →
  ∃ evs, log w' = log w ++ evs ∧ c' = feed yield evs c ∧
         ∃ n, verdicts yield evs c = goOn more n.
Proof.
  induction patterns as [|pattern patterns IH]; intros w c more w' c';
    cbn [rangePatterns].
  - intros ?; simplify_eq. exists []. rewrite app_nil_r.
    split_and!; [done..|]. by exists 0%nat.
  - destruct (G pattern) as [glob|] eqn:HG.
    + destruct (rangeGlob yield ref glob _ c) as [[more1 w1] c1] eqn:Hglob.
      apply rangeGlob_verdicts in Hglob as (ys & Hlog1 & Hc1 & n1 & Hv1).
      unfold emit in Hlog1; cbn [log] in Hlog1.
      destruct more1.
      * intros (evs & Hlog & Hc & n & Hv)%IH.
        exists (GlobCall pattern :: (Yield <$> ys) ++ evs). split_and!.
        -- rewrite Hlog, Hlog1. by rewrite <- !(assoc_L (++)).
        -- cbn [feed]. by rewrite feed_app, <- Hc1.
        -- exists (S (n1 + n)). cbn [verdicts].
           rewrite verdicts_app, Hv1, <- Hc1, Hv. unfold goOn at 1.
           rewrite app_nil_r, goOn_true_app. done.
      * intros ?; simplify_eq.
        exists (GlobCall pattern :: (Yield <$> ys)). split_and!.
        -- rewrite Hlog1. by rewrite <- !(assoc_L (++)).
        -- done.
        -- exists (S n1). cbn [verdicts]. by rewrite Hv1.
    + intros (evs & Hlog & Hc & n & Hv)%IH.
      exists (GlobCall pattern :: evs). split_and!.
      * rewrite Hlog. unfold emit; cbn [log]. by rewrite <- !(assoc_L (++)).
      * done.
      * exists (S n). cbn [verdicts]. by rewrite Hv.
Qed.

(** Claim C9.  When [yield] answers [false] the iteration is over: nothing
    comes after that call in the log, so [filepath.Glob] is not called
    again and no other path is yielded, and the iteration reports that it
    was stopped.  Up to that call [filepath.Glob] has been called for the
    patterns up to the one that produced the path, and for none of the
    patterns after it.  And an iteration that reports a stop ends on a call
    of [yield] that answered [false]. *)
Theorem iterate_stop_no_more_globs {C : Type} (G : Globber)
    (yield : string → C → bool * C) (it : Seq) (w : World) (c : C) :
  let '(more, w', c') := iterate G it yield w c in
  ∃ evs, log w' = log w ++ evs ∧ c' = feed yield evs c ∧
    (∀ before p after,
       evs = before ++ Yield p :: after →
       (yield p (feed yield before c)).1 = false →
       after = [] ∧ more = false ∧
       ∃ pre pattern post glob,
         seqPatterns it = pre ++ pattern :: post ∧
         G pattern = Some glob ∧ p ∈ glob ∧
         globCallsOf before = pre ++ [pattern]) ∧
    (more = false →
     ∃ before p, evs = before ++ [Yield p] ∧
                 (yield p (feed yield before c)).1 = false).
Proof.
  unfold iterate.
  destruct (rangePatterns G yield (seqSeen it) (seqPatterns it) w c)
    as [[more w'] c'] eqn:Hrun.
  destruct (rangePatterns_verdicts _ _ _ _ _ _ _ _ _ Hrun)
    as (evs & Hlog & Hc & n & Hv).
  assert (more = false →
          ∃ before p pre pattern post glob,
            evs = before ++ [Yield p] ∧
            seqPatterns it = pre ++ pattern :: post ∧
            G pattern = Some glob ∧ p ∈ glob ∧
            globCallsOf before = pre ++ [pattern]) as Hlast.
  { intros ->.
    destruct (rangePatterns_stop _ _ _ _ _ _ _ _ Hrun)
      as (pre & pattern & post & glob & evs0 & p & c0 & Hpat & HG & Hp & Hlog0
          & Hcalls & _).
    rewrite Hlog in Hlog0. apply app_inv_head in Hlog0.
    by exists evs0, p, pre, pattern, post, glob. }
  exists evs. split_and!; [done..| |].
  - intros before p after -> Hfalse.
    rewrite verdicts_app in Hv. cbn [verdicts] in Hv. rewrite Hfalse in Hv.
    symmetry in Hv. apply goOn_false in Hv as [Hafter ->].
    destruct after as [|[pat|q] after]; [|by cbn in Hafter..].
    split_and!; [done..|].
    destruct (Hlast eq_refl)
      as (before' & p' & pre & pattern & post & glob & Hevs & Hrest).
    apply app_inj_tail in Hevs as [-> ?]. simplify_eq.
    by exists pre, pattern, post, glob.
  - intros ->.
    destruct (Hlast eq_refl) as (before & p & _ & _ & _ & _ & -> & _).
    exists before, p. split; [done|].
    rewrite verdicts_app in Hv. cbn [verdicts] in Hv.
    unfold goOn in Hv. apply app_inj_tail in Hv as [_ Hv]. done.
Qed.

Example iterate_stop_ex :
  let '(it, w) := searchGlobs ["zz*"; "["; "a*"; "*b"; "*"]%string emptyWorld in
  let '(completed, w', out) := iterate demoGlob it (takeUpTo 1) w [] in
  (completed, out, log w')
  = (false, ["ab"],
     [GlobCall "zz*"; GlobCall "["; GlobCall "a*"; Yield "ab"])%string.
Proof. vm_compute. reflexivity. Qed.

Lemma iterate_stop_no_more_globs_witness :
  let pats := ["zz*"; "["; "a*"; "*b"; "*"]%string in
  let it := (searchGlobs pats emptyWorld).1 in
  let w := (searchGlobs pats emptyWorld).2 in
  let before := [GlobCall "zz*"; GlobCall "["; GlobCall "a*"; Yield "ab"]%string in
  (takeUpTo 2 "ac" (feed (takeUpTo 2) before [])).1 = false ∧
  log (iterate demoGlob it (takeUpTo 2) w []).1.2 = before ++ [Yield "ac"%string] ∧
  (iterate demoGlob it (takeUpTo 2) w []).1.1 = false ∧
  ∃ pre pattern post glob,
    seqPatterns it = pre ++ pattern :: post ∧
    demoGlob pattern = Some glob ∧ "ac"%string ∈ glob ∧
    globCallsOf before = pre ++ [pattern].
Proof.
  intros pats it w before.
  pose proof (iterate_stop_no_more_globs demoGlob (takeUpTo 2) it w []) as Hrun.
  destruct (iterate demoGlob it (takeUpTo 2) w []) as [[more w'] c'] eqn:Hit.
  vm_compute in Hit. injection Hit as <- <- <-.
  destruct Hrun as (evs & Hlog & _ & Hstop & _).
  cbn in Hlog. subst evs.
  destruct (Hstop before "ac"%string [] eq_refl eq_refl) as (_ & _ & Hglob).
  split_and!; [reflexivity..|exact Hglob].
Defined.

Example searchGlobs_ex1 :
  let '(it, w) := searchGlobs ["a*"; "["; "*b"]%string emptyWorld in
  let '(done, w, out) := iterate demoGlob it collect w [] in
  (done, out, globCalls w) = (true, ["ab"; "ac"; "bb"], ["a*"; "["; "*b"])%string.
Proof. vm_compute. reflexivity. Qed.

Lemma searchGlobs_yields_once_witness :
  ∃ k, candidates demoGlob ["a*"; "["; "*b"]%string !! k = Some "ab"%string ∧
       "bb"%string ∉ take k (candidates demoGlob ["a*"; "["; "*b"]%string).
Proof.
  destruct (searchGlobs_yields_once demoGlob ["a*"; "["; "*b"]%string emptyWorld)
    as (_ & _ & _ & _ & _ & Horder).
  apply (Horder 0%nat 2%nat "ab"%string "bb"%string); [lia|reflexivity..].
Defined.

(** ** The language of [reRemovedRefs] *)

Lemma class_high (r : rune) :
  127 < r → existsb (Z.eqb r) removedRefsClass = false.
Proof.
  intros Hr. unfold removedRefsClass. cbn [existsb].
  repeat (rewrite (proj2 (Z.eqb_neq r _)) by lia). done.
Qed.

Lemma nameByte_high (b : byte) : 128 ≤ byteZ b → nameByte b = true.
Proof. intros Hb. unfold nameByte. by rewrite class_high by lia. Qed.

Lemma classStep_ascii c s k :
  byteZ c < 128 → classStep (c :: s) k = if nameByte c then k s else None.
Proof.
  intros Hc. unfold classStep, stepIf. rewrite (step_ascii _ _ Hc).
  unfold nameByte. cbn [Nat.ltb Nat.leb andb xorb drop].
  by destruct (existsb _ _).
Qed.

Lemma classStep_high c s k :
  128 ≤ byteZ c →
  ∃ w, (1 ≤ w ≤ S (length s))%nat ∧
       Forall (λ b, nameByte b = true) (take w (c :: s)) ∧
       classStep (c :: s) k = k (drop w (c :: s)).
Proof.
  intros Hc. destruct (step_high c s Hc) as (r & w & Hstep & Hr & Hw & Hall).
  exists w. split_and!; [lia..| |].
  - eapply Forall_impl; [exact Hall|]. intros b. apply nameByte_high.
  - unfold classStep, stepIf. rewrite Hstep, (class_high _ Hr).
    by rewrite (proj2 (Nat.ltb_lt 0 w)) by lia.
Qed.

Lemma skipName_drop w s :
  Forall (λ b, nameByte b = true) (take w s) → skipName (drop w s) = skipName s.
Proof.
  revert s. induction w as [|w IH]; intros [|b s]; cbn [take drop]; try done.
  intros [Hb Hs]%Forall_cons. cbn [skipName]. rewrite Hb. by apply IH.
Qed.

Lemma skipName_nil_iff s :
  skipName s = [] ↔ Forall (λ b, nameByte b = true) s.
Proof.
  induction s as [|b s IH]; cbn [skipName]; [by split; [constructor|]|].
  destruct (nameByte b) eqn:Hb.
  - rewrite IH, Forall_cons. tauto.
  - split; [done|]. intros [? _]%Forall_cons. congruence.
Qed.

Lemma skipName_app name c rest :
  Forall (λ b, nameByte b = true) name → nameByte c = false →
  skipName (name ++ c :: rest) = c :: rest.
Proof.
  intros Hname Hc. induction Hname as [|b name Hb _ IH]; cbn [app skipName].
  - by rewrite Hc.
  - by rewrite Hb.
Qed.

(** The greedy loop over the class runs to the end of the name. *)
Lemma plusLoop_class fuel : ∀ s,
  (length s < fuel)%nat →
  plusLoop fuel classStep s finish =
    match s with
    | c :: _ => if nameByte c then Some (length (skipName s)) else None
    | [] => None
    end.
Proof.
  induction fuel as [|fuel IH]; intros s Hfuel; [lia|].
  assert (∀ s', (length s' < length s)%nat →
            match (if (length s' <? length s)%nat
                   then plusLoop fuel classStep s' finish else None) with
            | Some e => Some e
            | None => finish s'
            end = Some (length (skipName s'))) as Hafter.
  { intros s' Hlen. rewrite (proj2 (Nat.ltb_lt _ _) Hlen), IH by lia.
    destruct s' as [|c' s']; [done|]. cbn [skipName].
    by destruct (nameByte c'). }
  cbn [plusLoop]. destruct s as [|c s]; [done|].
  destruct (Z.lt_ge_cases (byteZ c) 128) as [Hc|Hc].
  - rewrite (classStep_ascii _ _ _ Hc). cbn [skipName].
    destruct (nameByte c); [|done]. apply Hafter. cbn [length]. lia.
  - destruct (classStep_high c s
                (λ s', match (if (length s' <? length (c :: s))%nat
                              then plusLoop fuel classStep s' finish else None)
                       with Some e => Some e | None => finish s' end) Hc)
      as (w & Hw & Hall & ->).
    rewrite (nameByte_high _ Hc), Hafter, skipName_drop; [done..|].
    rewrite length_drop. cbn [length]. lia.
Qed.

Lemma stepIf_literal (l : byte) s k :
  byteZ l < 128 →
  stepIf (Z.eqb (byteZ l)) s k =
    match s with
    | b :: s' => if decide (b = l) then k s' else None
    | [] => None
    end.
Proof.
  intros Hl. destruct s as [|b s]; [done|]. unfold stepIf.
  destruct (Z.lt_ge_cases (byteZ b) 128) as [Hb|Hb].
  - rewrite (step_ascii _ _ Hb). cbn [Nat.ltb Nat.leb andb drop].
    destruct (decide (b = l)) as [->|Hne]; [by rewrite Z.eqb_refl|].
    rewrite (proj2 (Z.eqb_neq _ _)); [done|]. intros ?%byteZ_inj. done.
  - destruct (step_high b s Hb) as (r & w & -> & Hr & Hw & _).
    rewrite (proj2 (Z.eqb_neq _ _)) by lia. rewrite andb_false_r.
    rewrite decide_False; [done|]. intros ->. lia.
Qed.

Lemma iter_literal (l : byte) n : ∀ s k,
  byteZ l < 128 →
  Nat.iter n (λ k' s', stepIf (Z.eqb (byteZ l)) s' k') k s =
    if decide (take n s = replicate n l) then k (drop n s) else None.
Proof.
  induction n as [|n IH]; intros s k Hl.
  - cbn. by rewrite drop_0.
  - rewrite Nat.iter_succ, (stepIf_literal _ _ _ Hl). destruct s as [|b s].
    + by rewrite decide_False.
    + cbn [take replicate drop]. destruct (decide (b = l)) as [->|Hne].
      * rewrite IH by done.
        destruct (decide (take n s = replicate n l)) as [->|Hn].
        -- by rewrite decide_True.
        -- rewrite decide_False; [done|]. by intros ?; simplify_eq.
      * rewrite decide_False; [done|]. by intros ?; simplify_eq.
Qed.

Lemma matchHere_removedRefs s :
  matchHere removedRefsSyntax s finish =
    if decide (take 33 s = refHead) then
      match drop 33 s with
      | c :: _ =>
        if nameByte c then Some (length (skipName (drop 33 s))) else None
      | [] => None
      end
    else None.
Proof.
  unfold removedRefsSyntax. cbn [matchHere].
  change 101 with (byteZ "e"). change 45 with (byteZ "-").
  rewrite iter_literal by done. fold classStep.
  destruct (decide (take 32 s = replicate 32 "e"%byte)) as [He|He].
  - rewrite stepIf_literal by done.
    destruct (drop 32 s) as [|b s'] eqn:Hd.
    + rewrite decide_False; [done|]. intros Heq.
      apply (f_equal length) in Heq, Hd.
      unfold refHead in Heq.
      rewrite length_take, length_app, length_replicate in Heq.
      rewrite length_drop in Hd. cbn [length] in Heq, Hd. lia.
    + assert (s = (replicate 32 "e"%byte ++ [b]) ++ s') as Hs
        by (rewrite <- (assoc_L (++)); cbn [app];
            by rewrite <- He, <- Hd, take_drop).
      assert (drop 33 s = s') as Hd'.
      { rewrite Hs, drop_app_length'; [done|]. by rewrite length_app, length_replicate. }
      assert (take 33 s = replicate 32 "e"%byte ++ [b]) as Ht.
      { rewrite Hs, take_app_length'; [done|]. by rewrite length_app, length_replicate. }
      rewrite Hd', Ht. destruct (decide (b = "-"%byte)) as [->|Hb].
      * rewrite decide_True by done. by rewrite plusLoop_class by lia.
      * rewrite decide_False; [done|]. unfold refHead.
        intros Heq%app_inv_head. by simplify_eq.
  - rewrite decide_False; [done|]. intros Heq. apply He.
    apply (f_equal (take 32)) in Heq. rewrite take_take in Heq.
    cbn [Nat.min] in Heq. rewrite Heq. unfold refHead.
    by rewrite take_app_length' by (by rewrite length_replicate).
Qed.

Lemma nameByte_stops (b : byte) :
  nameByte b = negb (existsb (Byte.eqb b) nameStops).
Proof. destruct b; reflexivity. Qed.

Lemma execute_at_0 re s :
  execute re s 0 =
    match matchHere re s finish with
    | Some rem => Some (0%nat, (length s - rem)%nat)
    | None =>
      match s with
      | [] => None
      | _ :: s' => search re s 1 (snd (utf8.step s) - 1) s'
      end
    end.
Proof.
  unfold execute. cbn [Nat.leb]. rewrite drop_0.
  destruct s; cbn [search]; fold finish; by destruct (matchHere _ _ _).
Qed.

Lemma execute_removedRefs_at_0 s e :
  execute removedRefsSyntax s 0 = Some (0%nat, e) ↔
  take 33 s = refHead ∧
  ∃ c rest, drop 33 s = c :: rest ∧ nameByte c = true ∧
            e = (length s - length (skipName (drop 33 s)))%nat.
Proof.
  rewrite execute_at_0, matchHere_removedRefs.
  assert (∀ sk, match s with
                | [] => None
                | _ :: s' => search removedRefsSyntax s 1 sk s'
                end ≠ Some (0%nat, e)) as Hlater.
  { intros sk. destruct s as [|c s']; [done|]. intros Hs.
    apply search_found in Hs as [[? _] _]; [lia|done|cbn [length]; lia]. }
  destruct (decide (take 33 s = refHead)) as [Hhead|Hhead].
  - destruct (drop 33 s) as [|c rest] eqn:Hd.
    + split; [by intros ?%Hlater|]. by intros (_ & ? & ? & ? & _).
    + destruct (nameByte c) eqn:Hc.
      * split.
        -- intros ?; simplify_eq. split; [done|]. by exists c, rest.
        -- intros (_ & ? & ? & ? & ? & ->). done.
      * split; [by intros ?%Hlater|].
        intros (_ & ? & ? & ? & ? & _). congruence.
  - split; [by intros ?%Hlater|]. by intros [? _].
Qed.

(** Claim C5, amended.  [reRemovedRefs] matches a whole input exactly when
    it is 32 times the letter e, a hyphen, and one or more bytes other than
    the twelve of [nameStops] (dollar, the two quotes, the braces, slash,
    the square brackets, space, tab, carriage return, line feed; the bytes
    of a character that is not ASCII are never among them); a match stops
    at the first such byte after the name, slash among them; the name
    [mypkg-1.0] after 32 e matches, and after 31 e it does not. *)
Theorem reRemovedRefs_language :
  (∀ s : list byte,
     doExecute reRemovedRefs s 0 = Some (0%nat, length s) ↔
     ∃ name, s = replicate 32 "e"%byte ++ ["-"%byte] ++ name ∧ name ≠ [] ∧
             Forall (λ b, b ∉ nameStops) name) ∧
  (∀ name c rest,
     name ≠ [] → Forall (λ b, b ∉ nameStops) name → c ∈ nameStops →
     doExecute reRemovedRefs
       (replicate 32 "e"%byte ++ ["-"%byte] ++ name ++ c :: rest) 0
     = Some (0%nat, (33 + length name)%nat)) ∧
  "/"%byte ∈ nameStops ∧
  FindString reRemovedRefs "eeeeeeeeeeeeeeeeeeeeeeeeeeeeeeee-mypkg-1.0"
    = "eeeeeeeeeeeeeeeeeeeeeeeeeeeeeeee-mypkg-1.0"%string ∧
  doExecute reRemovedRefs
    (bytesOf "eeeeeeeeeeeeeeeeeeeeeeeeeeeeeee-mypkg-1.0") 0 = None ∧
  FindString reRemovedRefs "eeeeeeeeeeeeeeeeeeeeeeeeeeeeeeee-mypkg-1.0/bin/sh"
    = "eeeeeeeeeeeeeeeeeeeeeeeeeeeeeeee-mypkg-1.0"%string.
Proof.
  assert (∀ b, b ∉ nameStops ↔ nameByte b = true) as Hstop.
  { intros b. rewrite nameByte_stops, negb_true_iff.
    rewrite <- not_true_iff_false, existsb_exists.
    split.
    - intros Hb (x & Hx%list_elem_of_In & Heq%Byte.byte_dec_bl). congruence.
    - intros Hb Hin. apply Hb. exists b. split; [by apply list_elem_of_In|].
      by apply Byte.byte_dec_lb. }
  assert (∀ name, Forall (λ b, b ∉ nameStops) name ↔
                  Forall (λ b, nameByte b = true) name) as Hall.
  { intros name. apply Forall_proper; [|done]. intros b. apply Hstop. }
  change (replicate 32 "e"%byte ++ ["-"%byte]) with refHead.
  assert (∀ l : list byte, replicate 32 "e"%byte ++ ["-"%byte] ++ l = refHead ++ l)
    as Hhead by (intros l; unfold refHead; by rewrite <- (assoc_L (++))).
  assert (length refHead = 33%nat) as Hlen by done.
  split_and!.
  - intros s. change (doExecute reRemovedRefs s 0)
      with (execute removedRefsSyntax s 0).
    rewrite execute_removedRefs_at_0. split.
    + intros (Ht & c & rest & Hd & Hc & He). exists (drop 33 s).
      rewrite Hhead, <- Ht, take_drop. split_and!; [done|by rewrite Hd|].
      apply Hall, skipName_nil_iff, nil_length_inv.
      assert (33 ≤ length s)%nat.
      { apply (f_equal length) in Ht. rewrite length_take in Ht. lia. }
      lia.
    + intros (name & -> & Hne & Hname). rewrite Hhead.
      rewrite take_app_length', drop_app_length' by done.
      split; [done|]. destruct name as [|c rest]; [done|].
      exists c, rest. split_and!; [done|by apply Forall_cons in Hname as [?%Hstop _]|].
      apply Hall, skipName_nil_iff in Hname. rewrite Hname. cbn [length]. lia.
  - intros name c rest Hne Hname Hc. rewrite Hhead.
    change (doExecute reRemovedRefs ?s 0) with (execute removedRefsSyntax s 0).
    apply execute_removedRefs_at_0.
    rewrite take_app_length', drop_app_length' by done.
    split; [done|]. destruct name as [|c' name']; [done|].
    exists c', (name' ++ c :: rest). split_and!; [done| |].
    + by apply Forall_cons in Hname as [?%Hstop _].
    + change (c' :: name' ++ c :: rest) with ((c' :: name') ++ c :: rest).
      rewrite skipName_app; [|by apply Hall|].
      * rewrite !length_app, Hlen. cbn [length]. lia.
      * destruct (nameByte c) eqn:Hn; [|done]. by apply Hstop in Hn.
  - vm_compute. repeat (first [left|right]).
  - vm_compute. reflexivity.
  - vm_compute. reflexivity.
  - vm_compute. reflexivity.
Qed.

Lemma reRemovedRefs_dollar_counterexample :
  let s := bytesOf "eeeeeeeeeeeeeeeeeeeeeeeeeeeeeeee-a$b" in
  (∃ name, s = replicate 32 "e"%byte ++ ["-"%byte] ++ name ∧ name ≠ [] ∧
           Forall (λ b, specNameByte b = true) name) ∧
  doExecute reRemovedRefs s 0 = Some (0%nat, 34%nat) ∧
  doExecute reRemovedRefs s 0 ≠ Some (0%nat, length s).
Proof.
  split_and!.
  - exists (bytesOf "a$b"). split_and!; [done|done|].
    repeat constructor.
  - vm_compute. reflexivity.
  - vm_compute. discriminate.
Qed.

Lemma reRemovedRefs_language_witness :
  doExecute reRemovedRefs
    (replicate 32 "e"%byte ++ ["-"%byte] ++ bytesOf "mypkg-1.0") 0
  = Some (0%nat, 42%nat).
Proof.
  destruct reRemovedRefs_language as (Hlang & _).
  apply (Hlang (replicate 32 "e"%byte ++ ["-"%byte] ++ bytesOf "mypkg-1.0")).
  exists (bytesOf "mypkg-1.0"). split_and!; [done|done|].
  apply (bool_decide_unpack _). vm_compute. reflexivity.
Defined.

(** A match of [reRemovedRefs] is never empty: it has 32 times the letter e,
    the hyphen and one name byte at least. *)
Lemma reRemovedRefs_nonempty (b : list byte) (pos m0 m1 : nat) :
  doExecute reRemovedRefs b pos = Some (m0, m1) → (m0 + 34 ≤ m1)%nat.
Proof.
  change (doExecute reRemovedRefs b pos) with (execute removedRefsSyntax b pos).
  unfold execute. destruct (Nat.leb_spec pos (length b)); [|done].
  intros ([_ Hm0] & rem & Hm & -> & _)%search_found; [|done..].
  fold finish in Hm. rewrite matchHere_removedRefs in Hm.
  destruct (decide (take 33 (drop m0 b) = refHead)) as [Hhead|]; [|done].
  destruct (drop 33 (drop m0 b)) as [|c rest] eqn:Hd; [done|].
  destruct (nameByte c) eqn:Hc; [|done]. simplify_eq.
  cbn [skipName]. rewrite Hc.
  assert (length (skipName rest) ≤ length rest)%nat as Hskip.
  { clear. induction rest as [|x rest IH]; cbn [skipName length]; [lia|].
    destruct (nameByte x); cbn [length]; lia. }
  apply (f_equal length) in Hd. rewrite !length_drop in Hd.
  cbn [length] in Hd. lia.
Qed.

Lemma searchEnv_reRemovedRefs (environ : list string) :
  searchEnv reRemovedRefs environ
  = firstMatch reRemovedRefs (envValues environ).
Proof.
  apply searchEnv_firstMatch. intros v a0 a1 _ Hex%reRemovedRefs_nonempty. lia.
Qed.

Example removedRefs_ex1 :
  execute removedRefsSyntax
    (bytesOf "xeeeeeeeeeeeeeeeeeeeeeeeeeeeeeeee-foo bar") 0
  = Some (1%nat, 37%nat).
Proof. vm_compute. reflexivity. Qed.

Example removedRefs_ex2 :
  execute removedRefsSyntax
    (bytesOf "eeeeeeeeeeeeeeeeeeeeeeeeeeeeeee-mypkg-1.0") 0
  = None.
Proof. vm_compute. reflexivity. Qed.

(** ** UTF-8: encoding what was decoded *)

Lemma byteZ_toByte (z : Z) : byteZ (toByte z) = z mod 256.
Proof.
  assert (0 ≤ z mod 256 < 256) as Hz by (apply Z.mod_pos_bound; lia).
  unfold toByte, byteZ. destruct (Byte.of_N (Z.to_N (z mod 256))) as [b|] eqn:Hb.
  - apply Byte.to_of_N in Hb. rewrite Hb. lia.
  - apply Byte.of_N_None_iff in Hb. lia.
Qed.

Lemma toByte_eq (z : Z) (b : byte) : z = byteZ b → toByte z = b.
Proof. intros ->. apply toByte_byteZ. Qed.

(** Bits that do not overlap add up. *)
Lemma lor_high_low (hi lo n : Z) :
  0 ≤ n → 0 ≤ lo < 2 ^ n → Z.lor (hi * 2 ^ n) lo = hi * 2 ^ n + lo.
Proof.
  intros Hn Hlo. rewrite <- Z.add_lor_land.
  assert (Z.land (hi * 2 ^ n) lo = 0) as ->; [|lia].
  apply Z.bits_inj'. intros m Hm. rewrite Z.land_spec, Z.bits_0.
  destruct (Z.lt_ge_cases m n).
  - by rewrite Z.mul_pow2_bits_low.
  - rewrite <- (Z.mod_small lo (2 ^ n)) by done.
    rewrite Z.mod_pow2_bits_high by lia. apply andb_false_r.
Qed.

Lemma land_maskx (x : Z) : Z.land x utf8.maskx = x mod 64.
Proof. apply (Z.land_ones x 6). lia. Qed.
Lemma land_mask2 (x : Z) : Z.land x utf8.mask2 = x mod 32.
Proof. apply (Z.land_ones x 5). lia. Qed.
Lemma land_mask3 (x : Z) : Z.land x utf8.mask3 = x mod 16.
Proof. apply (Z.land_ones x 4). lia. Qed.
Lemma land_mask4 (x : Z) : Z.land x utf8.mask4 = x mod 8.
Proof. apply (Z.land_ones x 3). lia. Qed.

Lemma isCont_range (b : byte) : utf8.isCont b = true ↔ 128 ≤ byteZ b ≤ 191.
Proof. unfold utf8.isCont, utf8.locb, utf8.hicb. lia. Qed.

Lemma bits_join2 (b0 b1 : Z) :
  192 ≤ b0 < 224 → 128 ≤ b1 ≤ 191 →
  Z.lor (Z.shiftl (Z.land b0 utf8.mask2) 6) (Z.land b1 utf8.maskx)
  = join2 b0 b1.
Proof.
  intros H0 H1. rewrite land_mask2, land_maskx, Z.shiftl_mul_pow2 by lia.
  rewrite lor_high_low by (try apply Z.mod_pos_bound; lia).
  unfold join2. change (2 ^ 6) with 64.
  replace (b0 mod 32) with (b0 - 192) by (Z.div_mod_to_equations; lia).
  replace (b1 mod 64) with (b1 - 128) by (Z.div_mod_to_equations; lia).
  done.
Qed.

Lemma bits_join3 (b0 b1 b2 : Z) :
  224 ≤ b0 < 240 → 128 ≤ b1 ≤ 191 → 128 ≤ b2 ≤ 191 →
  Z.lor (Z.lor (Z.shiftl (Z.land b0 utf8.mask3) 12)
               (Z.shiftl (Z.land b1 utf8.maskx) 6))
        (Z.land b2 utf8.maskx)
  = join3 b0 b1 b2.
Proof.
  intros H0 H1 H2.
  rewrite land_mask3, !land_maskx, !Z.shiftl_mul_pow2 by lia.
  replace (b0 mod 16) with (b0 - 224) by (Z.div_mod_to_equations; lia).
  replace (b1 mod 64) with (b1 - 128) by (Z.div_mod_to_equations; lia).
  replace (b2 mod 64) with (b2 - 128) by (Z.div_mod_to_equations; lia).
  rewrite (lor_high_low _ _ 12) by lia.
  replace ((b0 - 224) * 2 ^ 12 + (b1 - 128) * 2 ^ 6)
    with (((b0 - 224) * 64 + (b1 - 128)) * 2 ^ 6) by lia.
  rewrite lor_high_low by lia. unfold join3. lia.
Qed.

Lemma bits_join4 (b0 b1 b2 b3 : Z) :
  240 ≤ b0 < 248 → 128 ≤ b1 ≤ 191 → 128 ≤ b2 ≤ 191 → 128 ≤ b3 ≤ 191 →
  Z.lor (Z.lor (Z.lor (Z.shiftl (Z.land b0 utf8.mask4) 18)
                      (Z.shiftl (Z.land b1 utf8.maskx) 12))
               (Z.shiftl (Z.land b2 utf8.maskx) 6))
        (Z.land b3 utf8.maskx)
  = join4 b0 b1 b2 b3.
Proof.
  intros H0 H1 H2 H3.
  rewrite land_mask4, !land_maskx, !Z.shiftl_mul_pow2 by lia.
  replace (b0 mod 8) with (b0 - 240) by (Z.div_mod_to_equations; lia).
  replace (b1 mod 64) with (b1 - 128) by (Z.div_mod_to_equations; lia).
  replace (b2 mod 64) with (b2 - 128) by (Z.div_mod_to_equations; lia).
  replace (b3 mod 64) with (b3 - 128) by (Z.div_mod_to_equations; lia).
  rewrite (lor_high_low _ _ 18) by lia.
  replace ((b0 - 240) * 2 ^ 18 + (b1 - 128) * 2 ^ 12)
    with (((b0 - 240) * 64 + (b1 - 128)) * 2 ^ 12) by lia.
  rewrite (lor_high_low _ _ 12) by lia.
  replace (((b0 - 240) * 64 + (b1 - 128)) * 2 ^ 12 + (b2 - 128) * 2 ^ 6)
    with ((((b0 - 240) * 64 + (b1 - 128)) * 64 + (b2 - 128)) * 2 ^ 6) by lia.
  rewrite lor_high_low by lia. unfold join4. lia.
Qed.

(** The bytes the encoder makes: a lead byte from the high bits, and
    continuation bytes of six bits each. *)
Lemma lead_byte (t x : Z) (n : Z) :
  0 ≤ n < 8 → t mod 2 ^ n = 0 → 0 ≤ t < 256 → 0 ≤ x < 2 ^ n →
  Z.lor t (byteZ (toByte x)) = t + x.
Proof.
  intros Hn Ht Ht' Hx.
  assert (2 ^ n ≤ 2 ^ 7) by (apply Z.pow_le_mono_r; lia).
  rewrite byteZ_toByte, Z.mod_small by lia.
  replace t with (t / 2 ^ n * 2 ^ n) at 1 2
    by (Z.div_mod_to_equations; nia).
  rewrite lor_high_low by lia.
  Z.div_mod_to_equations; nia.
Qed.

Lemma cont_byte (x : Z) :
  Z.lor utf8.tx (Z.land (byteZ (toByte x)) utf8.maskx) = 128 + x mod 64.
Proof.
  rewrite land_maskx, byteZ_toByte.
  change utf8.tx with (2 * 2 ^ 6). rewrite lor_high_low.
  - Z.div_mod_to_equations; lia.
  - lia.
  - apply Z.mod_pos_bound. lia.
Qed.

Lemma decoderune_2 b0 b1 s :
  wf2 b0 b1 →
  utf8.decoderune (b0 :: b1 :: s) = (join2 (byteZ b0) (byteZ b1), 2%nat).
Proof.
  intros (H0 & H1). unfold utf8.decoderune.
  rewrite (proj2 (isCont_range b1)) by done.
  rewrite bits_join2 by lia. unfold join2. utf8_consts. by decide_bool.
Qed.

Lemma decoderune_3 b0 b1 b2 s :
  wf3 b0 b1 b2 →
  utf8.decoderune (b0 :: b1 :: b2 :: s)
  = (join3 (byteZ b0) (byteZ b1) (byteZ b2), 3%nat).
Proof.
  intros (H0 & H1 & H2 & Hlo & Hhi). unfold utf8.decoderune.
  rewrite (proj2 (isCont_range b1)), (proj2 (isCont_range b2)) by done.
  rewrite bits_join3 by lia. unfold join3. utf8_consts.
  assert (byteZ b0 = 224 ∨ 225 ≤ byteZ b0 ≤ 236 ∨ byteZ b0 = 237 ∨ 238 ≤ byteZ b0)
    as [Hb|[Hb|[Hb|Hb]]] by lia;
    try specialize (Hlo Hb); try specialize (Hhi Hb); by decide_bool.
Qed.

Lemma decoderune_4 b0 b1 b2 b3 s :
  wf4 b0 b1 b2 b3 →
  utf8.decoderune (b0 :: b1 :: b2 :: b3 :: s)
  = (join4 (byteZ b0) (byteZ b1) (byteZ b2) (byteZ b3), 4%nat).
Proof.
  intros (H0 & H1 & H2 & H3 & Hlo & Hhi). unfold utf8.decoderune.
  rewrite (proj2 (isCont_range b1)), (proj2 (isCont_range b2)),
    (proj2 (isCont_range b3)) by done.
  rewrite bits_join4 by lia. unfold join4. utf8_consts.
  assert (byteZ b0 = 240 ∨ 241 ≤ byteZ b0 ≤ 243 ∨ byteZ b0 = 244)
    as [Hb|[Hb|Hb]] by lia;
    try specialize (Hlo Hb); try specialize (Hhi Hb); by decide_bool.
Qed.

Lemma AppendRune_1 p r : 0 ≤ r ≤ 127 → utf8.AppendRune p r = p ++ [toByte r].
Proof.
  intros Hr. unfold utf8.AppendRune. cbv zeta.
  rewrite (Z.mod_small r (2 ^ 32)) by lia. utf8_consts. by decide_bool.
Qed.

Lemma AppendRune_2 p r :
  128 ≤ r ≤ 2047 →
  utf8.AppendRune p r = p ++ [toByte (192 + r / 64); toByte (128 + r mod 64)].
Proof.
  intros Hr. unfold utf8.AppendRune. cbv zeta.
  rewrite (Z.mod_small r (2 ^ 32)) by lia. utf8_consts. decide_bool.
  rewrite cont_byte, Z.shiftr_div_pow2 by lia.
  rewrite (lead_byte 192 _ 6); [done|lia|done|lia|].
  change (2 ^ 6) with 64. Z.div_mod_to_equations; lia.
Qed.

Lemma AppendRune_3 p r :
  2048 ≤ r ≤ 65535 → ¬ (55296 ≤ r ≤ 57343) →
  utf8.AppendRune p r
  = p ++ [toByte (224 + r / 4096); toByte (128 + (r / 64) mod 64);
          toByte (128 + r mod 64)].
Proof.
  intros Hr Hs. unfold utf8.AppendRune. cbv zeta.
  rewrite (Z.mod_small r (2 ^ 32)) by lia. utf8_consts.
  assert (r < 55296 ∨ 57343 < r) as [?|?] by lia; decide_bool;
    rewrite !cont_byte, !Z.shiftr_div_pow2 by lia;
    (rewrite (lead_byte 224 _ 4); [done|lia|done|lia|]);
    change (2 ^ 12) with 4096; change (2 ^ 4) with 16;
    Z.div_mod_to_equations; lia.
Qed.

Lemma AppendRune_4 p r :
  65536 ≤ r ≤ 1114111 →
  utf8.AppendRune p r
  = p ++ [toByte (240 + r / 262144); toByte (128 + (r / 4096) mod 64);
          toByte (128 + (r / 64) mod 64); toByte (128 + r mod 64)].
Proof.
  intros Hr. unfold utf8.AppendRune. cbv zeta.
  rewrite (Z.mod_small r (2 ^ 32)) by lia. utf8_consts. decide_bool.
  rewrite !cont_byte, !Z.shiftr_div_pow2 by lia.
  rewrite (lead_byte 240 _ 3); [done|lia|done|lia|].
  change (2 ^ 18) with 262144; change (2 ^ 3) with 8.
  Z.div_mod_to_equations; lia.
Qed.

(** Encoding the rune of a well-formed sequence gives the sequence back. *)
Lemma AppendRune_join2 p b0 b1 :
  wf2 b0 b1 → utf8.AppendRune p (join2 (byteZ b0) (byteZ b1)) = p ++ [b0; b1].
Proof.
  intros (H0 & H1). rewrite AppendRune_2 by (unfold join2; lia).
  f_equal. f_equal; [|f_equal]; apply toByte_eq; unfold join2;
    Z.div_mod_to_equations; lia.
Qed.

Lemma AppendRune_join3 p b0 b1 b2 :
  wf3 b0 b1 b2 →
  utf8.AppendRune p (join3 (byteZ b0) (byteZ b1) (byteZ b2)) = p ++ [b0; b1; b2].
Proof.
  intros (H0 & H1 & H2 & Hlo & Hhi).
  assert (byteZ b0 = 224 ∨ 225 ≤ byteZ b0 ≤ 236 ∨ byteZ b0 = 237 ∨ 238 ≤ byteZ b0)
    as Hb by lia.
  rewrite AppendRune_3.
  - f_equal. f_equal; [|f_equal; [|f_equal]]; apply toByte_eq; unfold join3;
      Z.div_mod_to_equations; lia.
  - unfold join3. destruct Hb as [Hb|[Hb|[Hb|Hb]]];
      try specialize (Hlo Hb); lia.
  - unfold join3. destruct Hb as [Hb|[Hb|[Hb|Hb]]];
      try specialize (Hhi Hb); lia.
Qed.

Lemma AppendRune_join4 p b0 b1 b2 b3 :
  wf4 b0 b1 b2 b3 →
  utf8.AppendRune p (join4 (byteZ b0) (byteZ b1) (byteZ b2) (byteZ b3))
  = p ++ [b0; b1; b2; b3].
Proof.
  intros (H0 & H1 & H2 & H3 & Hlo & Hhi).
  assert (byteZ b0 = 240 ∨ 241 ≤ byteZ b0 ≤ 243 ∨ byteZ b0 = 244) as Hb by lia.
  rewrite AppendRune_4.
  - f_equal. f_equal; [|f_equal; [|f_equal; [|f_equal]]]; apply toByte_eq;
      unfold join4; Z.div_mod_to_equations; lia.
  - unfold join4. destruct Hb as [Hb|[Hb|Hb]];
      try specialize (Hlo Hb); try specialize (Hhi Hb); lia.
Qed.

Lemma join3_range b0 b1 b2 :
  wf3 b0 b1 b2 → 2048 ≤ join3 (byteZ b0) (byteZ b1) (byteZ b2) ≤ 65535.
Proof.
  intros (H0 & H1 & H2 & Hlo & Hhi). unfold join3.
  destruct (decide (byteZ b0 = 224)) as [Hb|Hb]; [specialize (Hlo Hb)|]; lia.
Qed.

Lemma join4_range b0 b1 b2 b3 :
  wf4 b0 b1 b2 b3 → 65536 ≤ join4 (byteZ b0) (byteZ b1) (byteZ b2) (byteZ b3) ≤ 1114111.
Proof.
  intros (H0 & H1 & H2 & H3 & Hlo & Hhi). unfold join4.
  destruct (decide (byteZ b0 = 240)) as [Hb|Hb]; [specialize (Hlo Hb)|];
    (destruct (decide (byteZ b0 = 244)) as [Hb'|Hb']; [specialize (Hhi Hb')|]);
    lia.
Qed.

(** ** [globEscape] on well-formed UTF-8 *)

Lemma isMeta_byteZ (b : byte) : isMeta (byteZ b) = isMetaByte b.
Proof. destruct b; reflexivity. Qed.

Lemma isMeta_high (r : rune) : 128 ≤ r → isMeta r = false.
Proof.
  intros Hr. unfold isMeta.
  repeat (rewrite (proj2 (Z.eqb_neq r _)) by lia). done.
Qed.

Lemma isMetaByte_high (b : byte) : 128 ≤ byteZ b → isMetaByte b = false.
Proof. intros Hb. rewrite <- isMeta_byteZ. by apply isMeta_high. Qed.

Lemma escapeRune_high acc r : 128 ≤ r → escapeRune acc r = utf8.AppendRune acc r.
Proof. intros Hr. unfold escapeRune. by rewrite isMeta_high. Qed.

Lemma step_high_decode (c : byte) (s : list byte) :
  128 ≤ byteZ c → utf8.step (c :: s) = utf8.decoderune (c :: s).
Proof.
  intros Hc. unfold utf8.step, utf8.RuneSelf.
  by rewrite (proj2 (Z.ltb_ge _ _)) by lia.
Qed.

Lemma rangeFrom_rune (c : byte) (s : list byte) (r : rune) (w : nat) :
  utf8.step (c :: s) = (r, S w) →
  utf8.rangeFrom 0 (c :: s) = r :: utf8.rangeFrom 0 (drop w s).
Proof.
  intros Hstep. cbn [utf8.rangeFrom]. rewrite Hstep.
  rewrite Nat.sub_succ, Nat.sub_0_r. f_equal. clear Hstep.
  revert s. induction w as [|w IH]; intros s; [by rewrite drop_0|].
  destruct s as [|b s]; [done|]. cbn [utf8.rangeFrom drop]. apply IH.
Qed.

Lemma escape_loop_valid (s : list byte) :
  ValidUTF8 s →
  ∀ acc, fold_left escapeRune (utf8.rangeFrom 0 s) acc = acc ++ escapeBytes s.
Proof.
  induction 1 as [|b s Hb _ IH|b0 b1 s Hwf _ IH|b0 b1 b2 s Hwf _ IH
                 |b0 b1 b2 b3 s Hwf _ IH]; intros acc.
  - cbn. by rewrite app_nil_r.
  - rewrite (rangeFrom_rune b s (byteZ b) 0) by (by apply step_ascii).
    cbn [fold_left drop]. rewrite IH. unfold escapeRune. rewrite isMeta_byteZ.
    pose proof (byteZ_range b).
    rewrite AppendRune_1, toByte_byteZ by lia.
    unfold escapeBytes. rewrite bind_cons.
    destruct (isMetaByte b); by rewrite <- !(assoc_L (++)).
  - pose proof Hwf as (H0 & H1).
    rewrite (rangeFrom_rune b0 _ (join2 (byteZ b0) (byteZ b1)) 1)
      by (rewrite step_high_decode by lia; by apply decoderune_2).
    cbn [fold_left drop]. rewrite IH.
    assert (128 ≤ join2 (byteZ b0) (byteZ b1)) as Hj by (unfold join2; lia).
    rewrite (escapeRune_high _ _ Hj).
    rewrite AppendRune_join2 by done.
    unfold escapeBytes. rewrite !bind_cons, !isMetaByte_high by lia.
    by rewrite <- !(assoc_L (++)).
  - pose proof Hwf as (H0 & H1 & H2 & _).
    rewrite (rangeFrom_rune b0 _ (join3 (byteZ b0) (byteZ b1) (byteZ b2)) 2)
      by (rewrite step_high_decode by lia; by apply decoderune_3).
    cbn [fold_left drop]. rewrite IH.
    assert (128 ≤ join3 (byteZ b0) (byteZ b1) (byteZ b2)) as Hj
      by (pose proof (join3_range _ _ _ Hwf); lia).
    rewrite (escapeRune_high _ _ Hj).
    rewrite AppendRune_join3 by done.
    unfold escapeBytes. rewrite !bind_cons, !isMetaByte_high by lia.
    by rewrite <- !(assoc_L (++)).
  - pose proof Hwf as (H0 & H1 & H2 & H3 & _).
    rewrite (rangeFrom_rune b0 _ (join4 (byteZ b0) (byteZ b1) (byteZ b2) (byteZ b3)) 3)
      by (rewrite step_high_decode by lia; by apply decoderune_4).
    cbn [fold_left drop]. rewrite IH.
    assert (128 ≤ join4 (byteZ b0) (byteZ b1) (byteZ b2) (byteZ b3)) as Hj
      by (pose proof (join4_range _ _ _ _ Hwf); lia).
    rewrite (escapeRune_high _ _ Hj).
    rewrite AppendRune_join4 by done.
    unfold escapeBytes. rewrite !bind_cons, !isMetaByte_high by lia.
    by rewrite <- !(assoc_L (++)).
Qed.

Lemma escapeBytes_safe (s : list byte) :
  existsb isMetaByte s = false → escapeBytes s = s.
Proof.
  induction s as [|b s IH]; [done|]. cbn [existsb].
  intros [Hb Hs]%orb_false_iff. unfold escapeBytes in *.
  rewrite bind_cons, Hb, IH by done. done.
Qed.

Lemma stringOf_bytesOf (s : string) : stringOf (bytesOf s) = s.
Proof. apply string_of_list_byte_of_string. Qed.

(** On well-formed UTF-8 the loop is the byte-wise escape, and the two paths
    of [globEscape] agree. *)
Lemma globEscapeSlow_valid (s : string) :
  ValidUTF8 (bytesOf s) →
  globEscapeSlow s = stringOf (escapeBytes (bytesOf s)).
Proof.
  intros Hs. unfold globEscapeSlow, utf8.range.
  by rewrite (escape_loop_valid _ Hs).
Qed.

Lemma globEscape_valid (s : string) :
  ValidUTF8 (bytesOf s) →
  globEscape s = stringOf (escapeBytes (bytesOf s)) ∧
  (ContainsAny s metaChars = false → globEscapeSlow s = s ∧ globEscape s = s).
Proof.
  intros Hs. pose proof (globEscapeSlow_valid s Hs) as Hslow.
  assert (ContainsAny s metaChars = false →
          stringOf (escapeBytes (bytesOf s)) = s) as Hsafe.
  { intros Hno. rewrite escapeBytes_safe; [apply stringOf_bytesOf|done]. }
  unfold globEscape. destruct (ContainsAny s metaChars) eqn:Hany; cbn [negb].
  - by split.
  - split; [by rewrite Hsafe|]. intros _. by rewrite Hslow, Hsafe.
Qed.

(** The fast path never changes its input. *)
Lemma globEscape_safe (s : string) :
  ContainsAny s metaChars = false → globEscape s = s.
Proof. intros Hno. unfold globEscape. by rewrite Hno. Qed.

(** Claim C6.  The claim fails on input that is not well-formed UTF-8: on
    the byte FF followed by a star, [globEscape] replaces the byte by the
    three bytes of U+FFFD; and on the byte FF alone the fast path returns
    the input while the loop would return the three bytes of U+FFFD. *)
Theorem globEscape_invalid_utf8 :
  globEscape (stringOf [xff; "*"%byte])
    = stringOf [xef; xbf; xbd; "\"%byte; "*"%byte] ∧
  globEscape (stringOf [xff]) = stringOf [xff] ∧
  globEscapeSlow (stringOf [xff]) = stringOf [xef; xbf; xbd] ∧
  ContainsAny (stringOf [xff]) metaChars = false.
Proof. vm_compute. done. Qed.

Example globEscape_valid_ex :
  globEscape "é*€[𝄞" = "é\*€\[𝄞"%string ∧ ValidUTF8 (bytesOf "é*€[𝄞").
Proof.
  split; [vm_compute; reflexivity|].
  vm_compute.
  repeat first
    [ apply valid_nil
    | apply valid_ascii; [vm_compute; reflexivity|]
    | apply valid_2; [unfold wf2; vm_compute; intuition discriminate|]
    | apply valid_3; [unfold wf3; vm_compute; intuition discriminate|]
    | apply valid_4; [unfold wf4; vm_compute; intuition discriminate|] ].
Qed.

Example globEscape_ex1 : globEscape "a*b[c]?\" = "a\*b\[c]\?\\"%string.
Proof. vm_compute. reflexivity. Qed.

Example globEscape_ex2 : globEscape "plain.txt" = "plain.txt"%string.
Proof. reflexivity. Qed.

(** * More of [searchFile] *)

Lemma bytesOf_stringOf (b : list byte) : bytesOf (stringOf b) = b.
Proof. apply list_byte_of_string_of_list_byte. Qed.

Lemma take_limit (l : list byte) :
  Z.of_nat (length l) ≤ maxFileSize → take (Z.to_nat maxFileSize) l = l.
Proof.
  intros Hlen. apply take_ge, Nat2Z.inj_le. by rewrite maxFileSize_nat.
Qed.

(** Property X1.  A file of at most [maxFileSize] bytes whose stream ends
    with the end of the file is searched as a whole: [searchFile] returns
    one slice for each match [FindAllIndex] finds in the content of the
    file, in that order, all of them with the path it was given, and no
    error. *)
Theorem searchFile_whole_file (fsys : FS) (path : string) (re : Regexp)
    (f : File) :
  fsys path = inr f →
  Z.of_nat (length (pending f)) ≤ maxFileSize →
  failure f = None ∨ failure f = Some EOF →
  searchFile fsys path re
  = (map (sliceOf path (pending f)) (FindAllIndex re (pending f)), None).
Proof.
  intros Hopen Hlen Hfail. rewrite (searchFile_open _ _ _ _ Hopen).
  assert (readError f maxFileSize = None) as ->.
  { unfold readError. case_match; [|done]. by destruct Hfail as [-> | ->]. }
  cbv zeta. by rewrite take_limit.
Qed.

Lemma searchFile_whole_file_witness :
  searchFile demoFS "two.txt" reRemovedRefs
  = (map (sliceOf "two.txt" (pending twoFile))
         (FindAllIndex reRemovedRefs (pending twoFile)), None).
Proof.
  apply (searchFile_whole_file demoFS "two.txt" reRemovedRefs twoFile).
  - reflexivity.
  - vm_compute. discriminate.
  - left. reflexivity.
Defined.

(** Property X2.  For a file that opens, [searchFile] returns an error
    exactly when a read of the file fails, with an error other than the end
    of the file, before [maxFileSize] bytes were delivered; the error
    returned is that one.  A failure at or beyond the ceiling is never
    reported. *)
Theorem searchFile_error_iff (fsys : FS) (path : string) (re : Regexp)
    (f : File) (e : error) :
  fsys path = inr f →
  (searchFile fsys path re).2 = Some e ↔
  failure f = Some e ∧ e ≠ EOF ∧ Z.of_nat (length (pending f)) < maxFileSize.
Proof.
  intros Hopen. rewrite (searchFile_open _ _ _ _ Hopen).
  unfold readError.
  destruct (Z.ltb_spec (Z.of_nat (length (pending f))) maxFileSize) as [Hlt|Hge].
  - destruct (failure f) as [[]|]; cbn [snd]; split;
      try (intros ?; simplify_eq; split_and!; done);
      try (intros (? & ? & ?); simplify_eq; done).
  - cbn [snd]. split; [done|]. intros (_ & _ & ?). lia.
Qed.

Lemma searchFile_error_iff_witness :
  (searchFile demoFS "broken" reRemovedRefs).2 = Some (ErrIO "input/output error")
  ↔ failure brokenFile = Some (ErrIO "input/output error") ∧
    ErrIO "input/output error" ≠ EOF ∧
    Z.of_nat (length (pending brokenFile)) < maxFileSize.
Proof.
  apply (searchFile_error_iff demoFS "broken" reRemovedRefs brokenFile).
  reflexivity.
Defined.

(** Property X3.  The result of [searchFile] does not depend on how the
    file hands out its bytes: two files with the same content and the same
    end of stream give the same result, however many bytes each of their
    reads delivers. *)
Theorem searchFile_short_reads (path : string) (re : Regexp) (f f' : File) :
  pending f = pending f' → failure f = failure f' →
  searchFile (λ _, inr f) path re = searchFile (λ _, inr f') path re.
Proof.
  intros Hp Hf.
  rewrite (searchFile_open _ _ _ f eq_refl), (searchFile_open _ _ _ f' eq_refl).
  unfold readError. by rewrite Hp, Hf.
Qed.

Lemma searchFile_short_reads_witness :
  searchFile (λ _, inr twoFile) "two.txt" reRemovedRefs
  = searchFile (λ _, inr twoFileBytewise) "two.txt" reRemovedRefs.
Proof.
  apply (searchFile_short_reads "two.txt" reRemovedRefs twoFile twoFileBytewise);
    reflexivity.
Defined.

(** ** The slices are the successive leftmost matches *)

Lemma allMatchesLoop_matches re b n fuel : ∀ pos i prev locs,
  allMatchesLoop re b n fuel pos i prev = Some locs →
  Forall (λ x, doExecute re b x.1 = Some x) locs.
Proof.
  induction fuel as [|fuel IH]; intros pos i prev locs; simpl.
  - case_match; [|done]. intros ?; simplify_eq. constructor.
  - case_match; [intros ?; simplify_eq; constructor|].
    destruct (doExecute re b pos) as [[m0 m1]|] eqn:Hex;
      [|intros ?; simplify_eq; constructor].
    destruct (if (m1 =? pos)%nat then _ else _) as [accept pos'].
    destruct (allMatchesLoop _ _ _ _ _ _ _) as [rest|] eqn:Hrest; simpl; [|done].
    intros ?; simplify_eq. apply IH in Hrest.
    destruct accept; [|done]. constructor; [|done].
    apply (doExecute_restart re _ _ _ _ Hex).
Qed.

Lemma FindAllIndex_matches re b :
  Forall (λ x, doExecute re b x.1 = Some x) (FindAllIndex re b).
Proof. apply (allMatchesLoop_matches _ _ _ _ _ _ _ _ (FindAllIndex_loop re b)). Qed.

Lemma span_sliceOf path b loc : within b loc → span (sliceOf path b loc) = loc.
Proof.
  destruct loc as [s e]. intros Hin. unfold span. cbn [sliceOf offset data].
  rewrite (length_slice _ _ _ Hin), Nat2Z.id. destruct Hin as [H1 H2]. simpl in *.
  f_equal. lia.
Qed.

Lemma spans_slices path b locs :
  Forall (within b) locs → map span (map (sliceOf path b) locs) = locs.
Proof.
  induction 1 as [|loc locs Hloc _ IH]; [done|].
  cbn [map]. by rewrite IH, span_sliceOf.
Qed.

(** Without an error, the slices stand for the matches of the bytes read. *)
Lemma searchFile_spans fsys path re f :
  fsys path = inr f → (searchFile fsys path re).2 = None →
  map span (searchFile fsys path re).1
  = FindAllIndex re (ReadAll (mkLimited f maxFileSize)).1.
Proof.
  intros Hopen. rewrite (searchFile_open _ _ _ _ Hopen), ReadAll_limited.
  destruct (readError f maxFileSize); [done|]. intros _. cbn [fst].
  apply spans_slices, FindAllIndex_sorted.
Qed.

(** The slices, in terms of the bytes read. *)
Lemma searchFile_elem fsys path re f x :
  fsys path = inr f →
  x ∈ (searchFile fsys path re).1 →
  ∃ loc, x = sliceOf path (ReadAll (mkLimited f maxFileSize)).1 loc ∧
         loc ∈ FindAllIndex re (ReadAll (mkLimited f maxFileSize)).1.
Proof.
  intros Hopen Hx.
  assert ((ReadAll (mkLimited f maxFileSize)).1
          = take (Z.to_nat maxFileSize) (pending f)) as Hbuf
    by (by rewrite ReadAll_limited).
  revert Hbuf. generalize ((ReadAll (mkLimited f maxFileSize)).1) as buf.
  intros buf Hbuf.
  rewrite (searchFile_open _ _ _ _ Hopen), <- Hbuf in Hx. clear Hbuf.
  destruct (readError f maxFileSize); [by apply elem_of_nil in Hx|].
  apply list_elem_of_fmap in Hx as (loc & -> & Hloc). by exists loc.
Qed.

Lemma allMatchesLoop_first re b fuel locs :
  allMatchesLoop re b (length b + 1) fuel 0 0 (-1) = Some locs →
  head locs = doExecute re b 0.
Proof.
  destruct fuel as [|fuel]; simpl.
  - rewrite (proj2 (Nat.ltb_lt 0 (length b + 1))) by lia. done.
  - rewrite (proj2 (Nat.ltb_lt 0 (length b + 1))) by lia. simpl.
    destruct (doExecute re b 0) as [[m0 m1]|] eqn:Hex;
      [|by intros ?; simplify_eq].
    assert ((if (m1 =? 0)%nat
             then (negb (Z.of_nat m0 =? -1),
                   if (0 <? (utf8.step (drop 0 b)).2)%nat
                   then (0 + (utf8.step (drop 0 b)).2)%nat
                   else (length b + 1)%nat)
             else (true, m1)).1 = true) as Hacc.
    { case_match; [|done]. cbn [fst]. apply negb_true_iff, Z.eqb_neq. lia. }
    destruct (if (m1 =? 0)%nat then _ else _) as [accept pos'].
    cbn [fst] in Hacc. subst accept.
    destruct (allMatchesLoop _ _ _ _ _ _ _) as [rest|]; simpl; [|done].
    by intros ?; simplify_eq.
Qed.

Lemma allMatchesLoop_successive re b fuel :
  (∀ pos m0 m1, doExecute re b pos = Some (m0, m1) → (m0 < m1)%nat) →
  ∀ pos i prev locs,
  (i ≤ pos ≤ length b)%nat →
  allMatchesLoop re b (length b + 1) fuel pos i prev = Some locs →
  head locs = doExecute re b pos ∧
  ∀ k x, locs !! k = Some x → locs !! S k = doExecute re b x.2.
Proof.
  intros Hne. induction fuel as [|fuel IH]; intros pos i prev locs Hpos; simpl;
    rewrite (proj2 (Nat.ltb_lt i (length b + 1))) by lia;
    rewrite (proj2 (Nat.leb_le pos (length b))) by lia; simpl; [done|].
  destruct (doExecute re b pos) as [[m0 m1]|] eqn:Hex;
    [|by intros ?; simplify_eq].
  pose proof (doExecute_bounds re _ _ _ _ Hex) as (Hb1 & Hb2 & Hb3).
  pose proof (Hne _ _ _ Hex) as Hlt.
  rewrite (proj2 (Nat.eqb_neq m1 pos)) by lia.
  destruct (allMatchesLoop _ _ _ _ _ _ _) as [rest|] eqn:Hrest; simpl; [|done].
  intros ?; simplify_eq. apply IH in Hrest as [Hhead Hnext]; [|lia].
  split; [done|]. intros [|k] x; cbn.
  - intros ?; simplify_eq. by destruct rest.
  - apply Hnext.
Qed.

(** Property X4.  Every slice [searchFile] returns is a match of the
    pattern where it stands: searching the bytes read from the offset of the
    slice finds the match that starts at this offset and has the length of
    the slice. *)
Theorem searchFile_slices_are_matches (fsys : FS) (path : string) (re : Regexp)
    (f : File) (x : fileSlice) :
  fsys path = inr f →
  x ∈ (searchFile fsys path re).1 →
  doExecute re (ReadAll (mkLimited f maxFileSize)).1 (span x).1 = Some (span x).
Proof.
  intros Hopen Hx.
  destruct (searchFile_elem _ _ _ _ _ Hopen Hx) as (loc & -> & Hloc).
  revert Hloc. generalize ((ReadAll (mkLimited f maxFileSize)).1) as buf.
  intros buf Hloc.
  destruct (FindAllIndex_sorted re buf) as [Hin _].
  rewrite Forall_forall in Hin. rewrite (span_sliceOf _ _ _ (Hin _ Hloc)).
  pose proof (FindAllIndex_matches re buf) as Hm. rewrite Forall_forall in Hm.
  by apply Hm.
Qed.

Lemma searchFile_slices_are_matches_witness :
  doExecute reRemovedRefs (ReadAll (mkLimited twoFile maxFileSize)).1
    (span sliceB).1 = Some (span sliceB).
Proof.
  apply (searchFile_slices_are_matches demoFS "two.txt" reRemovedRefs).
  - reflexivity.
  - vm_compute. right. left.
Defined.

(** Property X5.  Without an error, the first slice of [searchFile] is the
    leftmost match in the bytes read, and there is no slice when there is no
    match; with a pattern that matches no empty string, the slice after a
    slice is the leftmost match that starts at or after the end of that
    slice, and after the last slice there is no match left. *)
Theorem searchFile_successive (fsys : FS) (path : string) (re : Regexp)
    (f : File) :
  fsys path = inr f →
  (searchFile fsys path re).2 = None →
  let buf := (ReadAll (mkLimited f maxFileSize)).1 in
  let spans := map span (searchFile fsys path re).1 in
  head spans = doExecute re buf 0 ∧
  ((∀ pos m0 m1, doExecute re buf pos = Some (m0, m1) → (m0 < m1)%nat) →
   ∀ k x, spans !! k = Some x → spans !! S k = doExecute re buf x.2).
Proof.
  intros Hopen Herr. cbv zeta. rewrite (searchFile_spans _ _ _ _ Hopen Herr).
  generalize ((ReadAll (mkLimited f maxFileSize)).1) as buf. intros buf.
  pose proof (FindAllIndex_loop re buf) as Hloop. split.
  - by apply allMatchesLoop_first in Hloop.
  - intros Hne.
    apply (allMatchesLoop_successive _ _ _ Hne 0%nat 0%nat (-1) _
             ltac:(lia) Hloop).
Qed.

Lemma searchFile_successive_witness :
  let buf := (ReadAll (mkLimited twoFile maxFileSize)).1 in
  let spans := map span (searchFile demoFS "two.txt" reRemovedRefs).1 in
  head spans = doExecute reRemovedRefs buf 0 ∧
  ((∀ pos m0 m1,
      doExecute reRemovedRefs buf pos = Some (m0, m1) → (m0 < m1)%nat) →
   ∀ k x, spans !! k = Some x → spans !! S k = doExecute reRemovedRefs buf x.2).
Proof.
  apply (searchFile_successive demoFS "two.txt" reRemovedRefs twoFile).
  - reflexivity.
  - vm_compute. reflexivity.
Defined.

(** * Removed references in files and in the environment *)

Lemma takeName_skipName s : takeName s ++ skipName s = s.
Proof.
  induction s as [|b s IH]; [done|]. cbn [takeName skipName].
  destruct (nameByte b); [|done]. cbn [app]. by rewrite IH.
Qed.

Lemma takeName_all s : Forall (λ b, nameByte b = true) (takeName s).
Proof.
  induction s as [|b s IH]; cbn [takeName]; [constructor|].
  destruct (nameByte b) eqn:Hb; by constructor.
Qed.

Lemma skipName_head s c rest : skipName s = c :: rest → nameByte c = false.
Proof.
  induction s as [|b s IH]; cbn [skipName]; [done|].
  destruct (nameByte b) eqn:Hb; [done|]. by intros ?; simplify_eq.
Qed.

Lemma nameByte_iff (b : byte) : nameByte b = true ↔ b ∉ nameStops.
Proof.
  rewrite nameByte_stops, negb_true_iff, <- not_true_iff_false, existsb_exists.
  split.
  - intros Hb Hin. apply Hb. exists b. split; [by apply list_elem_of_In|].
    by apply Byte.byte_dec_lb.
  - intros Hb (x & Hx%list_elem_of_In & Heq%Byte.byte_dec_bl). congruence.
Qed.

(** A match of [reRemovedRefs], wherever it is found: the head, a name that
    is not empty and holds no stop byte, and a stop byte or the end of the
    input after it. *)
Lemma execute_removedRefs_shape (b : list byte) (pos m0 m1 : nat) :
  doExecute reRemovedRefs b pos = Some (m0, m1) →
  ∃ name,
    take (m1 - m0) (drop m0 b) = refHead ++ name ∧ name ≠ [] ∧
    Forall (λ c, c ∉ nameStops) name ∧
    (∀ c, b !! m1 = Some c → c ∈ nameStops).
Proof.
  change (doExecute reRemovedRefs b pos) with (execute removedRefsSyntax b pos).
  unfold execute. destruct (Nat.leb_spec pos (length b)); [|done].
  intros ([_ Hm0] & rem & Hm & -> & _)%search_found; [|done..].
  fold finish in Hm. rewrite matchHere_removedRefs in Hm.
  destruct (decide (take 33 (drop m0 b) = refHead)) as [Hhead|]; [|done].
  destruct (drop 33 (drop m0 b)) as [|c rest] eqn:Hd; [done|].
  destruct (nameByte c) eqn:Hc; [|done]. simplify_eq.
  set (s := drop m0 b) in *.
  assert (s = refHead ++ takeName (c :: rest) ++ skipName (c :: rest)) as Hs.
  { rewrite takeName_skipName, <- Hd, <- Hhead. by rewrite take_drop. }
  assert (length s = (length b - m0)%nat) as Hlen by (subst s; apply length_drop).
  assert (length refHead = 33%nat) as Hlh by done.
  assert (length b - length (skipName (c :: rest)) - m0
          = 33 + length (takeName (c :: rest)))%nat as Hwidth.
  { apply (f_equal length) in Hs. rewrite !length_app, Hlh in Hs. lia. }
  exists (takeName (c :: rest)). split_and!.
  - rewrite Hwidth, Hs. rewrite (assoc_L (++)).
    rewrite take_app_length'; [done|]. by rewrite length_app, Hlh.
  - cbn [takeName]. by rewrite Hc.
  - eapply Forall_impl; [apply takeName_all|]. intros x. apply nameByte_iff.
  - intros x Hx.
    assert (skipName (c :: rest) !! 0%nat = Some x) as Hx0.
    { assert (s !! (33 + length (takeName (c :: rest)))%nat = Some x) as Hsx.
      { subst s. rewrite lookup_drop. rewrite <- Hx. f_equal.
        apply (f_equal length) in Hs. rewrite !length_app, Hlh in Hs. lia. }
      rewrite Hs in Hsx. rewrite lookup_app_r in Hsx by lia.
      rewrite Hlh in Hsx. rewrite lookup_app_r in Hsx by lia.
      rewrite <- Hsx. f_equal. lia. }
    destruct (skipName (c :: rest)) as [|y rest'] eqn:Hsk; [done|].
    cbn in Hx0. simplify_eq. apply skipName_head in Hsk.
    destruct (decide (x ∈ nameStops)) as [|Hn]; [done|].
    apply nameByte_iff in Hn. congruence.
Qed.

(** Property X6.  Every slice [searchFile] finds with [reRemovedRefs] is a
    removed reference with its whole name: 32 times the letter e, a hyphen,
    and a name that is not empty and holds none of the bytes of
    [nameStops]; in the bytes read, the slice is followed by one of these
    bytes or by nothing. *)
Theorem searchFile_removedRefs_sound (fsys : FS) (path : string) (f : File)
    (x : fileSlice) :
  fsys path = inr f →
  x ∈ (searchFile fsys path reRemovedRefs).1 →
  ∃ name,
    data x = replicate 32 "e"%byte ++ ["-"%byte] ++ name ∧ name ≠ [] ∧
    Forall (λ c, c ∉ nameStops) name ∧
    ∀ c, (ReadAll (mkLimited f maxFileSize)).1 !! (span x).2 = Some c →
         c ∈ nameStops.
Proof.
  intros Hopen Hx.
  destruct (searchFile_elem _ _ _ _ _ Hopen Hx) as (loc & -> & Hloc).
  revert Hloc. generalize ((ReadAll (mkLimited f maxFileSize)).1) as buf.
  intros buf Hloc.
  destruct (FindAllIndex_sorted reRemovedRefs buf) as [Hin _].
  rewrite Forall_forall in Hin. rewrite (span_sliceOf _ _ _ (Hin _ Hloc)).
  pose proof (FindAllIndex_matches reRemovedRefs buf) as Hm.
  rewrite Forall_forall in Hm. specialize (Hm _ Hloc).
  destruct loc as [m0 m1]. cbn [fst snd] in *.
  destruct (execute_removedRefs_shape _ _ _ _ Hm) as (name & Hd & Hne & Hall & Hc).
  exists name. cbn [sliceOf data]. split_and!; [|done..].
  rewrite Hd. unfold refHead. by rewrite <- (assoc_L (++)).
Qed.

Lemma searchFile_removedRefs_sound_witness :
  ∃ name,
    data sliceB = replicate 32 "e"%byte ++ ["-"%byte] ++ name ∧ name ≠ [] ∧
    Forall (λ c, c ∉ nameStops) name ∧
    ∀ c, (ReadAll (mkLimited twoFile maxFileSize)).1 !! (span sliceB).2 = Some c →
         c ∈ nameStops.
Proof.
  apply (searchFile_removedRefs_sound demoFS "two.txt" twoFile sliceB).
  - reflexivity.
  - vm_compute. right. left.
Defined.

(** ** The search tries every place that holds an ASCII byte *)

Lemma search_leftmost re b : ∀ s pos skip,
  s = drop pos b → (pos ≤ length b)%nat →
  Forall (λ c, 128 ≤ byteZ c) (take skip s) →
  ∀ p, (pos ≤ p)%nat → asciiAt b p →
  match search re b pos skip s with
  | Some (m0, _) => (p < m0)%nat
  | None => True
  end →
  matchHere re (drop p b) finish = None.
Proof.
  induction s as [|c s IH]; intros pos skip Hs Hpos Hskip p Hp [x [Hx Hascii]].
  - apply (f_equal length) in Hs. rewrite length_drop in Hs. cbn [length] in Hs.
    apply lookup_lt_Some in Hx. lia.
  - assert (s = drop (S pos) b) as Hs'.
    { rewrite <- (Nat.add_1_l pos), Nat.add_comm, <- drop_drop, <- Hs. done. }
    assert (S pos ≤ length b)%nat as Hpos'.
    { apply (f_equal length) in Hs. rewrite length_drop in Hs.
      cbn [length] in Hs. lia. }
    assert (b !! pos = Some c) as Hc.
    { rewrite <- (Nat.add_0_r pos), <- lookup_drop, <- Hs. done. }
    destruct skip as [|skip]; cbn [search].
    + fold finish. destruct (matchHere re (c :: s) finish) as [rem|] eqn:Hm.
      * lia.
      * intros Hres. destruct (decide (p = pos)) as [->|Hne].
        { by rewrite <- Hs. }
        apply (IH (S pos) ((utf8.step (c :: s)).2 - 1)%nat); [done|done| |lia| |done].
        -- destruct (Z.lt_ge_cases (byteZ c) 128) as [Hlo|Hhi].
           ++ rewrite (step_ascii _ _ Hlo). cbn. constructor.
           ++ destruct (step_high c s Hhi) as (r & w & -> & _ & Hw & Hall).
              cbn [snd]. destruct w as [|w]; [lia|].
              cbn [take] in Hall. apply Forall_cons in Hall as [_ Hall].
              by rewrite Nat.sub_succ, Nat.sub_0_r.
        -- by exists x.
    + cbn [take] in Hskip. apply Forall_cons in Hskip as [Hhi Hskip].
      intros Hres. assert (p ≠ pos) as Hne.
      { intros ->. rewrite Hc in Hx. simplify_eq. lia. }
      apply (IH (S pos) skip); [done|done|done|lia| |done]. by exists x.
Qed.

Lemma execute_leftmost re b pos p :
  (pos ≤ p)%nat → asciiAt b p →
  match execute re b pos with
  | Some (m0, _) => (p < m0)%nat
  | None => True
  end →
  matchHere re (drop p b) finish = None.
Proof.
  intros Hp Hascii. unfold execute.
  destruct (Nat.leb_spec pos (length b)) as [Hpos|Hpos].
  - intros Hres. by apply (search_leftmost re b (drop pos b) pos 0).
  - destruct Hascii as (c & Hc%lookup_lt_Some & _). lia.
Qed.

(** With a pattern that matches no empty string, every place with an ASCII
    byte where the pattern matches lies inside one of the matches
    [FindAllIndex] delivers. *)
Lemma allMatchesLoop_cover (re : syntax) (b : list byte) (fuel : nat) :
  (∀ pos m0 m1, execute re b pos = Some (m0, m1) → (m0 < m1)%nat) →
  ∀ pos i prev locs,
  (i ≤ pos ≤ length b)%nat →
  allMatchesLoop (compile re) b (length b + 1) fuel pos i prev = Some locs →
  ∀ p, (pos ≤ p)%nat → asciiAt b p →
  matchHere re (drop p b) finish ≠ None →
  ∃ m0 m1, (m0, m1) ∈ locs ∧ (m0 ≤ p < m1)%nat.
Proof.
  intros Hne. induction fuel as [|fuel IH]; intros pos i prev locs Hpos; simpl;
    rewrite (proj2 (Nat.ltb_lt i (length b + 1))) by lia;
    rewrite (proj2 (Nat.leb_le pos (length b))) by lia; simpl; [done|].
  pose proof (execute_leftmost re b pos) as Hleft.
  destruct (execute re b pos) as [[m0 m1]|] eqn:Hex.
  - pose proof (execute_bounds re _ _ _ _ Hex) as (Hb1 & Hb2 & Hb3).
    pose proof (Hne _ _ _ Hex) as Hlt.
    rewrite (proj2 (Nat.eqb_neq m1 pos)) by lia.
    destruct (allMatchesLoop _ _ _ _ _ _ _) as [rest|] eqn:Hrest; simpl; [|done].
    intros ? p Hp Hascii Hm; simplify_eq.
    destruct (Nat.lt_ge_cases p m0) as [Hlo|Hhi].
    { destruct Hm. by apply Hleft. }
    destruct (Nat.lt_ge_cases p m1) as [Hin|Hout].
    { exists m0, m1. split; [left|lia]. }
    assert (S i ≤ m1 ≤ length b)%nat as Hpos' by lia.
    destruct (IH _ _ _ _ Hpos' Hrest p Hout Hascii Hm)
      as (n0 & n1 & Hn & Hcover).
    exists n0, n1. split; [by right|done].
  - intros ? p Hp Hascii Hm; simplify_eq. destruct Hm. by apply Hleft.
Qed.

Lemma removedRefs_at (b : list byte) (p : nat) (c : byte) :
  take 33 (drop p b) = refHead → b !! (p + 33)%nat = Some c → c ∉ nameStops →
  asciiAt b p ∧ matchHere removedRefsSyntax (drop p b) finish ≠ None.
Proof.
  intros Hhead Hc Hstop. split.
  - exists "e"%byte. split; [|done].
    apply (f_equal (λ l, l !! 0%nat)) in Hhead.
    rewrite lookup_take_lt, lookup_drop, Nat.add_0_r in Hhead by lia. done.
  - rewrite matchHere_removedRefs, decide_True by done.
    rewrite drop_drop. rewrite (drop_S _ _ _ Hc).
    apply nameByte_iff in Hstop. by rewrite Hstop.
Qed.

(** Property X7.  [searchFile] with [reRemovedRefs] misses no removed
    reference in the bytes read: wherever 32 times the letter e, a hyphen
    and a byte that is none of [nameStops] stand, one of the slices
    returned covers the place where they start. *)
Theorem searchFile_removedRefs_complete (fsys : FS) (path : string) (f : File)
    (p : nat) (c : byte) :
  fsys path = inr f →
  (searchFile fsys path reRemovedRefs).2 = None →
  let buf := (ReadAll (mkLimited f maxFileSize)).1 in
  take 33 (drop p buf) = replicate 32 "e"%byte ++ ["-"%byte] →
  buf !! (p + 33)%nat = Some c → c ∉ nameStops →
  ∃ x, x ∈ (searchFile fsys path reRemovedRefs).1 ∧
       offset x ≤ Z.of_nat p < offset x + Z.of_nat (length (data x)).
Proof.
  intros Hopen Herr. cbv zeta.
  pose proof (searchFile_spans _ _ _ _ Hopen Herr) as Hspans. revert Hspans.
  generalize ((ReadAll (mkLimited f maxFileSize)).1) as buf.
  intros buf Hspans Hhead Hc Hstop.
  destruct (removedRefs_at _ _ _ Hhead Hc Hstop) as [Hascii Hm].
  destruct (allMatchesLoop_cover removedRefsSyntax buf _
              (λ pos m0 m1 Hex, ltac:(
                 apply (reRemovedRefs_nonempty buf pos) in Hex; lia))
              0%nat 0%nat (-1) _ ltac:(lia) (FindAllIndex_loop reRemovedRefs buf)
              p ltac:(lia) Hascii Hm) as (m0 & m1 & Hin & Hcover).
  rewrite <- Hspans in Hin.
  apply list_elem_of_fmap in Hin as (x & Hx & Hxin).
  exists x. split; [done|].
  unfold span in Hx. injection Hx as -> ->.
  assert (0 ≤ offset x) as Hoff.
  { destruct (searchFile_elem _ _ _ _ _ Hopen Hxin) as ([s e] & -> & _).
    cbn [sliceOf offset]. lia. }
  lia.
Qed.

Lemma searchFile_removedRefs_complete_witness :
  ∃ x, x ∈ (searchFile demoFS "two.txt" reRemovedRefs).1 ∧
       offset x ≤ Z.of_nat 36 < offset x + Z.of_nat (length (data x)).
Proof.
  apply (searchFile_removedRefs_complete demoFS "two.txt" twoFile 36 "b").
  - reflexivity.
  - vm_compute. reflexivity.
  - vm_compute. reflexivity.
  - vm_compute. reflexivity.
  - apply (bool_decide_unpack _). vm_compute. reflexivity.
Defined.

(** ** The values of the environment *)

Lemma index_eq_split (e : string) (i : nat) :
  String.index 0 "=" e = Some i →
  ∃ name value, e = (name +:+ "=" +:+ value)%string ∧
                String.index 0 "=" name = None.
Proof.
  revert i. induction e as [|c e IH]; intros i; [done|].
  rewrite index_eq_cons. destruct (ascii_dec "=" c) as [<-|Hc].
  - intros _. by exists ""%string, e.
  - destruct (String.index 0 "=" e) as [j|] eqn:Hj; [|done]. intros _.
    destruct (IH j eq_refl) as (name & value & -> & Hname).
    exists (String c name), value. split; [done|].
    rewrite index_eq_cons, Hname. by destruct (ascii_dec "=" c).
Qed.

(** Property X8.  [envValues] keeps one value for each entry of the
    environment, at the same place: what follows the first equals sign of
    the entry, so that the entry is a name without equals sign, the equals
    sign and the value; and the empty string for an entry without equals
    sign. *)
Theorem envValues_cut (environ : list string) (i : nat) (e : string) :
  environ !! i = Some e →
  ∃ v, envValues environ !! i = Some v ∧
       ((String.index 0 "=" e = None ∧ v = ""%string) ∨
        (∃ name, e = (name +:+ "=" +:+ v)%string ∧
                 String.index 0 "=" name = None)).
Proof.
  intros He. unfold envValues. rewrite list_lookup_fmap, He. cbn.
  destruct (String.index 0 "=" e) as [j|] eqn:Hj.
  - destruct (index_eq_split e j Hj) as (name & value & -> & Hname).
    rewrite (Cut_entry _ _ Hname). exists value. split; [done|]. right.
    by exists name.
  - rewrite (Cut_no_eq _ Hj). exists ""%string. split; [done|]. by left.
Qed.

Lemma envValues_cut_witness :
  ∃ v, envValues ["A=b=c"; "NOVALUE"]%string !! 1%nat = Some v ∧
       ((String.index 0 "=" "NOVALUE" = None ∧ v = ""%string) ∨
        (∃ name, "NOVALUE"%string = (name +:+ "=" +:+ v)%string ∧
                 String.index 0 "=" name = None)).
Proof.
  apply (envValues_cut ["A=b=c"; "NOVALUE"]%string 1 "NOVALUE"). reflexivity.
Defined.

Lemma firstMatch_cases (re : Regexp) (values : list string) :
  (firstMatch re values = ""%string ∧
   Forall (λ v, doExecute re (bytesOf v) 0 = None) values) ∨
  (∃ i v a0 a1, values !! i = Some v ∧
     doExecute re (bytesOf v) 0 = Some (a0, a1) ∧
     firstMatch re values = stringOf (take (a1 - a0) (drop a0 (bytesOf v))) ∧
     Forall (λ v', doExecute re (bytesOf v') 0 = None) (take i values)).
Proof.
  induction values as [|v values IH]; cbn [firstMatch].
  - left. by split.
  - destruct (doExecute re (bytesOf v) 0) as [[a0 a1]|] eqn:Hex.
    + right. exists 0%nat, v, a0, a1. split_and!; [done|done| |by constructor].
      unfold FindString. by rewrite Hex.
    + destruct IH as [[Hr Hall]|(i & v' & a0 & a1 & Hi & Hex' & Hr & Hall)].
      * left. split; [done|by constructor].
      * right. exists (S i), v', a0, a1. split_and!; [done..|].
        cbn [take]. by constructor.
Qed.

(** Property X9.  [searchEnv] with [reRemovedRefs] returns the empty string
    when no value of the environment holds a removed reference; otherwise it
    returns the leftmost removed reference of the first value that holds
    one.  It is the match the pattern finds in that value, and no removed
    reference starts to the left of it there; it reads 32 times the letter
    e, a hyphen and a name without stop byte, as it stands in that value,
    followed there by a stop byte or by nothing. *)
Theorem searchEnv_removedRefs (environ : list string) :
  (searchEnv reRemovedRefs environ = ""%string ∧
   ∀ v, v ∈ envValues environ → doExecute reRemovedRefs (bytesOf v) 0 = None) ∨
  (∃ i v name before after,
     envValues environ !! i = Some v ∧
     (∀ v', v' ∈ take i (envValues environ) →
            doExecute reRemovedRefs (bytesOf v') 0 = None) ∧
     doExecute reRemovedRefs (bytesOf v) 0
       = Some (length before,
               (length before
                + length (bytesOf (searchEnv reRemovedRefs environ)))%nat) ∧
     (∀ p c, (p < length before)%nat →
        take 33 (drop p (bytesOf v)) = replicate 32 "e"%byte ++ ["-"%byte] →
        bytesOf v !! (p + 33)%nat = Some c → c ∈ nameStops) ∧
     bytesOf (searchEnv reRemovedRefs environ)
       = replicate 32 "e"%byte ++ ["-"%byte] ++ name ∧
     name ≠ [] ∧ Forall (λ c, c ∉ nameStops) name ∧
     bytesOf v = before ++ bytesOf (searchEnv reRemovedRefs environ) ++ after ∧
     (∀ c after', after = c :: after' → c ∈ nameStops)).
Proof.
  rewrite searchEnv_reRemovedRefs.
  destruct (firstMatch_cases reRemovedRefs (envValues environ))
    as [[Hr Hall]|(i & v & a0 & a1 & Hi & Hex & Hr & Hall)].
  - left. split; [done|]. by apply Forall_forall.
  - right. rewrite Hr, bytesOf_stringOf.
    destruct (execute_removedRefs_shape _ _ _ _ Hex)
      as (name & Hd & Hne & Hname & Hstop).
    pose proof (doExecute_bounds reRemovedRefs _ _ _ _ Hex) as (_ & Hb1 & Hb2).
    exists i, v, name, (take a0 (bytesOf v)), (drop a1 (bytesOf v)).
    split_and!; [done|by apply Forall_forall| | | |done|done| |].
    + rewrite Hex. f_equal. f_equal.
      * rewrite length_take. lia.
      * rewrite !length_take, length_drop. lia.
    + intros p c Hp Hhead Hc. rewrite length_take in Hp.
      destruct (decide (c ∈ nameStops)) as [|Hstop']; [done|].
      destruct (removedRefs_at _ _ _ Hhead Hc Hstop') as [Hascii Hm].
      destruct Hm. apply (execute_leftmost _ _ 0 p); [lia|done|].
      change (execute removedRefsSyntax (bytesOf v) 0)
        with (doExecute reRemovedRefs (bytesOf v) 0).
      rewrite Hex. lia.
    + rewrite Hd. unfold refHead. by rewrite <- (assoc_L (++)).
    + rewrite <- (take_drop a0 (bytesOf v)) at 1. f_equal.
      rewrite <- (take_drop (a1 - a0) (drop a0 (bytesOf v))) at 1. f_equal.
      rewrite drop_drop. f_equal. lia.
    + intros c after' Hafter. apply Hstop.
      rewrite <- (Nat.add_0_r a1), <- lookup_drop, Hafter. done.
Qed.

(** Of two removed references in one value the one on the left is
    returned. *)
Example searchEnv_removedRefs_ex :
  searchEnv reRemovedRefs
    ["X=eeeeeeeeeeeeeeeeeeeeeeeeeeeeeeee-a/eeeeeeeeeeeeeeeeeeeeeeeeeeeeeeee-b"]%string
  = "eeeeeeeeeeeeeeeeeeeeeeeeeeeeeeee-a"%string.
Proof. vm_compute. reflexivity. Qed.

(** * More of [searchGlobs] *)

(** The inner loop under any consumer. *)
Lemma rangeGlob_any {C} (yield : string → C → bool * C) ref glob :
  ∀ w c seen more w' c',
  holds w ref seen →
  rangeGlob yield ref glob w c = (more, w', c') →
  ∃ ys, yields w' = yields w ++ ys ∧ globCalls w' = globCalls w ∧
        ys `prefix_of` fresh seen glob ∧
        (more = true → ys = fresh seen glob) ∧
        holds w' ref (reverse ys ++ seen).
Proof.
  induction glob as [|x glob IH]; intros w c seen more w' c' Hw;
    cbn [rangeGlob fresh].
  - intros ?; simplify_eq. exists []. by rewrite app_nil_r.
  - destruct (seenGet w ref x) eqn:Hget.
    + rewrite decide_True by (by apply Hw). by apply IH.
    + rewrite decide_False by (rewrite <- (proj2 Hw); congruence).
      pose proof (holds_seenSet _ _ _ x Hw) as Hw1.
      destruct (yield x c) as [[] c1] eqn:Hyield; cbn [negb].
      * intros Hrun.
        destruct (IH _ _ _ _ _ _ Hw1 Hrun) as (ys & Hy & Hg & Hpre & Hall & Hw').
        exists (x :: ys). split_and!.
        -- by rewrite Hy, yields_emit_Yield, <- (assoc_L (++)).
        -- by rewrite Hg, globCalls_emit_Yield.
        -- by apply prefix_cons.
        -- intros Hm. by rewrite (Hall Hm).
        -- by rewrite reverse_cons, <- (assoc_L (++)).
      * intros ?; simplify_eq. exists [x]. split_and!.
        -- by rewrite yields_emit_Yield.
        -- by rewrite globCalls_emit_Yield.
        -- apply prefix_cons, prefix_nil.
        -- done.
        -- done.
Qed.

Lemma rangePatterns_any {C} G (yield : string → C → bool * C) ref patterns :
  ∀ w c seen more w' c',
  holds w ref seen →
  rangePatterns G yield ref patterns w c = (more, w', c') →
  ∃ ys, yields w' = yields w ++ ys ∧
        ys `prefix_of` fresh seen (candidates G patterns) ∧
        (more = true → ys = fresh seen (candidates G patterns) ∧
                       globCalls w' = globCalls w ++ patterns) ∧
        holds w' ref (reverse ys ++ seen).
Proof.
  induction patterns as [|pattern patterns IH]; intros w c seen more w' c' Hw;
    cbn [rangePatterns].
  - intros ?; simplify_eq. exists []. by rewrite !app_nil_r.
  - change (candidates G (pattern :: patterns))
      with (default [] (G pattern) ++ candidates G patterns).
    rewrite fresh_app.
    pose proof (holds_emit _ _ _ (GlobCall pattern) Hw) as Hw0.
    destruct (G pattern) as [glob|] eqn:HG; cbn [default].
    + destruct (rangeGlob yield ref glob _ c) as [[more1 w1] c1] eqn:Hglob.
      destruct (rangeGlob_any _ _ _ _ _ _ _ _ _ Hw0 Hglob)
        as (ys1 & Hy1 & Hg1 & Hpre1 & Hall1 & Hw1).
      rewrite yields_emit_GlobCall in Hy1.
      rewrite globCalls_emit_GlobCall in Hg1.
      destruct more1.
      * intros Hrun. specialize (Hall1 eq_refl). subst ys1.
        destruct (IH _ _ _ _ _ _ Hw1 Hrun) as (ys & Hy & Hpre & Hall & Hw').
        exists (fresh seen glob ++ ys). split_and!.
        -- by rewrite Hy, Hy1, <- (assoc_L (++)).
        -- by apply prefix_app.
        -- intros Hm. destruct (Hall Hm) as [-> ->]. split; [done|].
           by rewrite Hg1, <- (assoc_L (++)).
        -- by rewrite reverse_app, <- (assoc_L (++)).
      * intros ?; simplify_eq. exists ys1. split_and!; [done| |done|done].
        by apply prefix_app_r.
    + intros Hrun.
      destruct (IH _ _ _ _ _ _ Hw0 Hrun) as (ys & Hy & Hpre & Hall & Hw').
      exists ys. cbn [fresh app reverse]. split_and!; [|done| |done].
      * by rewrite Hy, yields_emit_GlobCall.
      * intros Hm. destruct (Hall Hm) as [-> ->]. split; [done|].
        by rewrite globCalls_emit_GlobCall, <- (assoc_L (++)).
Qed.

Lemma searchGlobs_fresh patterns w :
  seqPatterns (searchGlobs patterns w).1 = patterns ∧
  yields (searchGlobs patterns w).2 = yields w ∧
  globCalls (searchGlobs patterns w).2 = globCalls w.
Proof. done. Qed.


(** Property X11.  Over two iterations of the same [searchGlobs] sequence,
    the first one with any consumer, the second one to the end, no path is
    yielded twice, wherever the first one stopped; together the two
    iterations yield exactly the paths that some well-formed pattern
    matches. *)
Theorem searchGlobs_never_twice {C : Type} (G : Globber)
    (patterns : list string) (yield : string → C → bool * C)
    (w : World) (c : C) :
  let '(it, w1) := searchGlobs patterns w in
  let '(_, w2, _) := iterate G it yield w1 c in
  let '(_, _, second) := iterate G it collect w2 [] in
  ∃ first, yields w2 = yields w ++ first ∧
           NoDup (first ++ second) ∧
           (∀ p, p ∈ first ++ second ↔
                 ∃ pattern glob, pattern ∈ patterns ∧ G pattern = Some glob ∧
                                 p ∈ glob).
Proof.
  pose proof (searchGlobs_holds patterns w) as Hw.
  destruct (searchGlobs_fresh patterns w) as (Hpat & Hy1 & Hg1).
  destruct (searchGlobs patterns w) as [it w1]. cbn [fst snd] in *.
  destruct (iterate G it yield w1 c) as [[more w2] c'] eqn:Hrun.
  unfold iterate in Hrun.
  destruct (rangePatterns_any _ _ _ _ _ _ _ _ _ _ Hw Hrun)
    as (ys & Hy & Hpre & _ & Hw2).
  destruct (iterate_collect G it w2 _ Hw2) as (w3 & -> & _).
  rewrite Hpat in *. rewrite app_nil_r.
  exists ys. rewrite Hy, Hy1. split_and!; [done| |].
  - apply NoDup_app. split_and!.
    + destruct Hpre as [k Hk]. pose proof (NoDup_fresh [] (candidates G patterns)) as Hnd.
      rewrite Hk in Hnd. by apply NoDup_app in Hnd as [? _].
    + intros x Hx Hx2%elem_of_fresh. destruct Hx2 as [_ Hx2]. apply Hx2.
      by apply elem_of_reverse.
    + apply NoDup_fresh.
  - intros p. rewrite <- elem_of_candidates, elem_of_app, elem_of_fresh.
    rewrite elem_of_reverse. split.
    + intros [Hp|[Hp _]]; [|done].
      destruct Hpre as [k Hk].
      assert (p ∈ fresh [] (candidates G patterns)) as Hin
        by (rewrite Hk; apply elem_of_app; by left).
      by apply elem_of_fresh in Hin as [? _].
    + intros Hp. destruct (decide (p ∈ ys)); [by left|by right].
Qed.

(** * Escaping loops over runes *)

(** What the decoder accepts is well-formed. *)
Lemma decoderune_reject (c : byte) (s : list byte) :
  (∀ b1 s', s = b1 :: s' → ¬ wf2 c b1) →
  (∀ b1 b2 s', s = b1 :: b2 :: s' → ¬ wf3 c b1 b2) →
  (∀ b1 b2 b3 s', s = b1 :: b2 :: b3 :: s' → ¬ wf4 c b1 b2 b3) →
  utf8.decoderune (c :: s) = (utf8.RuneError, 1%nat).
Proof.
  intros H2 H3 H4. unfold utf8.decoderune.
  destruct ((utf8.t2 <=? byteZ c) && (byteZ c <? utf8.t3)) eqn:Hr2.
  { destruct s as [|s1 s']; [done|].
    destruct (utf8.isCont s1) eqn:Hc1; [|done].
    apply isCont_range in Hc1. utf8_consts.
    rewrite bits_join2 by lia.
    destruct (Z.ltb_spec 127 (join2 (byteZ c) (byteZ s1))) as [Hr|Hr]; [|done].
    destruct (H2 s1 s' eq_refl). unfold wf2, join2 in *. lia. }
  destruct ((utf8.t3 <=? byteZ c) && (byteZ c <? utf8.t4)) eqn:Hr3.
  { destruct s as [|s1 [|s2 s']]; [done..|].
    destruct (utf8.isCont s1) eqn:Hc1; [|done].
    destruct (utf8.isCont s2) eqn:Hc2; [|done].
    apply isCont_range in Hc1, Hc2. utf8_consts. cbn [andb].
    rewrite bits_join3 by lia.
    destruct ((2047 <? join3 (byteZ c) (byteZ s1) (byteZ s2))
              && negb ((55296 <=? join3 (byteZ c) (byteZ s1) (byteZ s2))
                       && (join3 (byteZ c) (byteZ s1) (byteZ s2) <=? 57343)))
      eqn:Hr; [|done].
    destruct (H3 s1 s2 s' eq_refl). unfold wf3, join3 in *. lia. }
  destruct ((utf8.t4 <=? byteZ c) && (byteZ c <? utf8.t5)) eqn:Hr4; [|done].
  destruct s as [|s1 [|s2 [|s3 s']]]; [done..|].
  destruct (utf8.isCont s1) eqn:Hc1; [|done].
  destruct (utf8.isCont s2) eqn:Hc2; [|done].
  destruct (utf8.isCont s3) eqn:Hc3; [|done].
  apply isCont_range in Hc1, Hc2, Hc3. utf8_consts. cbn [andb].
  rewrite bits_join4 by lia.
  destruct ((65535 <? join4 (byteZ c) (byteZ s1) (byteZ s2) (byteZ s3))
            && (join4 (byteZ c) (byteZ s1) (byteZ s2) (byteZ s3) <=? 1114111))
    eqn:Hr; [|done].
  destruct (H4 s1 s2 s3 s' eq_refl). unfold wf4, join4 in *. lia.
Qed.

(** A byte string splits into ASCII bytes, well-formed sequences, and bytes
    the decoder rejects. *)
Lemma utf8_chunk_ind (P : list byte → Prop) :
  P [] →
  (∀ c s, byteZ c < 128 → P s → P (c :: s)) →
  (∀ b0 b1 s, wf2 b0 b1 → P s → P (b0 :: b1 :: s)) →
  (∀ b0 b1 b2 s, wf3 b0 b1 b2 → P s → P (b0 :: b1 :: b2 :: s)) →
  (∀ b0 b1 b2 b3 s, wf4 b0 b1 b2 b3 → P s → P (b0 :: b1 :: b2 :: b3 :: s)) →
  (∀ c s, 128 ≤ byteZ c → utf8.step (c :: s) = (utf8.RuneError, 1%nat) →
          ¬ ValidUTF8 (c :: s) → P s → P (c :: s)) →
  ∀ s, P s.
Proof.
  intros Hnil Hascii H2 H3 H4 Hbad s.
  induction (Nat.lt_wf_0_projected length s) as [s _ IH].
  destruct s as [|c s]; [done|].
  destruct (Z.lt_ge_cases (byteZ c) 128) as [Hc|Hc].
  { apply Hascii; [done|]. apply IH. cbn [length]. lia. }
  destruct s as [|b1 s].
  { apply Hbad; [done| | |by apply IH; cbn [length]; lia].
    - by rewrite step_high_decode, decoderune_reject.
    - intros Hv. inversion Hv; subst. lia. }
  destruct (decide (wf2 c b1)) as [Hw2|Hw2].
  { apply H2; [done|]. apply IH. cbn [length]. lia. }
  destruct s as [|b2 s].
  { apply Hbad; [done| | |by apply IH; cbn [length]; lia].
    - rewrite step_high_decode, decoderune_reject; try done.
      by intros ? ? ?; simplify_eq.
    - intros Hv. inversion Hv; subst; [lia|done]. }
  destruct (decide (wf3 c b1 b2)) as [Hw3|Hw3].
  { apply H3; [done|]. apply IH. cbn [length]. lia. }
  destruct s as [|b3 s].
  { apply Hbad; [done| | |by apply IH; cbn [length]; lia].
    - rewrite step_high_decode, decoderune_reject; try done;
        by intros; simplify_eq.
    - intros Hv. inversion Hv; subst; [lia|done..]. }
  destruct (decide (wf4 c b1 b2 b3)) as [Hw4|Hw4].
  { apply H4; [done|]. apply IH. cbn [length]. lia. }
  apply Hbad; [done| | |by apply IH; cbn [length]; lia].
  - rewrite step_high_decode, decoderune_reject; try done;
      by intros; simplify_eq.
  - intros Hv. inversion Hv; subst; [lia|done..].
Qed.


Lemma AppendRune_app p r : utf8.AppendRune p r = p ++ utf8.AppendRune [] r.
Proof. unfold utf8.AppendRune. cbv zeta. by repeat case_match. Qed.

Section EscapeLoop.
Variable special : rune → bool.
Hypothesis special_ascii : ∀ r, special r = true → 0 ≤ r < 128.

Lemma special_high r : 128 ≤ r → special r = false.
Proof.
  intros Hr. destruct (special r) eqn:Hs; [|done].
  apply special_ascii in Hs. lia.
Qed.

Lemma escapeRuneWith_app acc r :
  escapeRuneWith special acc r = acc ++ escapeRuneWith special [] r.
Proof.
  unfold escapeRuneWith. destruct (special r).
  - rewrite (AppendRune_app (acc ++ _)), (AppendRune_app ([] ++ _)).
    by rewrite <- !(assoc_L (++)).
  - apply AppendRune_app.
Qed.

Lemma fold_escapeRuneWith_app rs : ∀ acc,
  fold_left (escapeRuneWith special) rs acc
  = acc ++ fold_left (escapeRuneWith special) rs [].
Proof.
  induction rs as [|r rs IH]; intros acc; cbn [fold_left].
  - by rewrite app_nil_r.
  - rewrite IH, (IH (escapeRuneWith special [] r)), (escapeRuneWith_app acc).
    by rewrite <- (assoc_L (++)).
Qed.

Lemma escapeLoopWith_app s acc :
  escapeLoopWith special s acc = acc ++ escapeLoopWith special s [].
Proof. apply fold_escapeRuneWith_app. Qed.

Lemma escapeLoopWith_step (c : byte) (s : list byte) (r : rune) (w : nat) :
  utf8.step (c :: s) = (r, S w) →
  escapeLoopWith special (c :: s) []
  = escapeRuneWith special [] r ++ escapeLoopWith special (drop w s) [].
Proof.
  intros Hstep. unfold escapeLoopWith. rewrite (rangeFrom_rune _ _ _ _ Hstep).
  cbn [fold_left]. apply fold_escapeRuneWith_app.
Qed.

Lemma escapeRuneWith_high r :
  128 ≤ r → escapeRuneWith special [] r = utf8.AppendRune [] r.
Proof. intros Hr. unfold escapeRuneWith. by rewrite special_high. Qed.

Lemma escapeLoopWith_ascii c s :
  byteZ c < 128 →
  escapeLoopWith special (c :: s) []
  = escapeByteWith special c ++ escapeLoopWith special s [].
Proof.
  intros Hc. rewrite (escapeLoopWith_step c s (byteZ c) 0) by (by apply step_ascii).
  rewrite drop_0. f_equal. unfold escapeRuneWith, escapeByteWith.
  pose proof (byteZ_range c).
  destruct (special (byteZ c)); by rewrite AppendRune_1, toByte_byteZ by lia.
Qed.

Lemma escapeLoopWith_2 b0 b1 s :
  wf2 b0 b1 →
  escapeLoopWith special (b0 :: b1 :: s) [] = [b0; b1] ++ escapeLoopWith special s [].
Proof.
  intros Hwf. pose proof Hwf as (H0 & H1).
  rewrite (escapeLoopWith_step b0 _ (join2 (byteZ b0) (byteZ b1)) 1)
    by (rewrite step_high_decode by lia; by apply decoderune_2).
  cbn [drop]. f_equal.
  rewrite escapeRuneWith_high by (unfold join2; lia).
  by rewrite AppendRune_join2.
Qed.

Lemma escapeLoopWith_3 b0 b1 b2 s :
  wf3 b0 b1 b2 →
  escapeLoopWith special (b0 :: b1 :: b2 :: s) []
  = [b0; b1; b2] ++ escapeLoopWith special s [].
Proof.
  intros Hwf. pose proof Hwf as (H0 & H1 & H2 & _).
  rewrite (escapeLoopWith_step b0 _ (join3 (byteZ b0) (byteZ b1) (byteZ b2)) 2)
    by (rewrite step_high_decode by lia; by apply decoderune_3).
  cbn [drop]. f_equal.
  rewrite escapeRuneWith_high by (pose proof (join3_range _ _ _ Hwf); lia).
  by rewrite AppendRune_join3.
Qed.

Lemma escapeLoopWith_4 b0 b1 b2 b3 s :
  wf4 b0 b1 b2 b3 →
  escapeLoopWith special (b0 :: b1 :: b2 :: b3 :: s) []
  = [b0; b1; b2; b3] ++ escapeLoopWith special s [].
Proof.
  intros Hwf. pose proof Hwf as (H0 & H1 & H2 & H3 & _).
  rewrite (escapeLoopWith_step b0 _
             (join4 (byteZ b0) (byteZ b1) (byteZ b2) (byteZ b3)) 3)
    by (rewrite step_high_decode by lia; by apply decoderune_4).
  cbn [drop]. f_equal.
  rewrite escapeRuneWith_high by (pose proof (join4_range _ _ _ _ Hwf); lia).
  by rewrite AppendRune_join4.
Qed.

Lemma escapeLoopWith_bad c s :
  utf8.step (c :: s) = (utf8.RuneError, 1%nat) →
  escapeLoopWith special (c :: s) []
  = [xef; xbf; xbd] ++ escapeLoopWith special s [].
Proof.
  intros Hstep. rewrite (escapeLoopWith_step c s _ 0 Hstep). rewrite drop_0.
  f_equal. by rewrite escapeRuneWith_high.
Qed.

Lemma escapeBytesWith_cons b s :
  escapeBytesWith special (b :: s)
  = escapeByteWith special b ++ escapeBytesWith special s.
Proof. done. Qed.

Lemma escapeByteWith_high b : 128 ≤ byteZ b → escapeByteWith special b = [b].
Proof. intros Hb. unfold escapeByteWith. by rewrite special_high. Qed.

Lemma escapeByteWith_length b :
  (1 ≤ length (escapeByteWith special b) ≤ 2)%nat.
Proof. unfold escapeByteWith. destruct (special _); cbn; lia. Qed.

Lemma ValidUTF8_escapeByteWith b s :
  byteZ b < 128 → ValidUTF8 s → ValidUTF8 (escapeByteWith special b ++ s).
Proof.
  intros Hb Hs. unfold escapeByteWith. destruct (special _); cbn [app].
  - apply valid_ascii; [done|]. by apply valid_ascii.
  - by apply valid_ascii.
Qed.

(** The loop writes well-formed UTF-8, whatever it reads. *)
Lemma escapeLoopWith_valid s : ValidUTF8 (escapeLoopWith special s []).
Proof.
  induction s as [|c s Hc IH|b0 b1 s Hwf IH|b0 b1 b2 s Hwf IH
                 |b0 b1 b2 b3 s Hwf IH|c s Hc Hstep Hbad IH]
    using utf8_chunk_ind.
  - constructor.
  - rewrite escapeLoopWith_ascii by done. by apply ValidUTF8_escapeByteWith.
  - rewrite escapeLoopWith_2 by done. by apply valid_2.
  - rewrite escapeLoopWith_3 by done. by apply valid_3.
  - rewrite escapeLoopWith_4 by done. by apply valid_4.
  - rewrite escapeLoopWith_bad by done. apply valid_3; [|done].
    unfold wf3. vm_compute. intuition discriminate.
Qed.

Lemma escapeLoopWith_length s :
  (length (escapeBytesWith special s) ≤ length (escapeLoopWith special s []))%nat.
Proof.
  induction s as [|c s Hc IH|b0 b1 s Hwf IH|b0 b1 b2 s Hwf IH
                 |b0 b1 b2 b3 s Hwf IH|c s Hc Hstep Hbad IH]
    using utf8_chunk_ind.
  - done.
  - rewrite escapeLoopWith_ascii, escapeBytesWith_cons, !length_app by done. lia.
  - pose proof Hwf as (? & ?).
    rewrite escapeLoopWith_2, !escapeBytesWith_cons, !escapeByteWith_high
      by (done || lia).
    cbn [app length]. lia.
  - pose proof Hwf as (? & ? & ? & _).
    rewrite escapeLoopWith_3, !escapeBytesWith_cons, !escapeByteWith_high
      by (done || lia).
    cbn [app length]. lia.
  - pose proof Hwf as (? & ? & ? & ? & _).
    rewrite escapeLoopWith_4, !escapeBytesWith_cons, !escapeByteWith_high
      by (done || lia).
    cbn [app length]. lia.
  - rewrite escapeLoopWith_bad, escapeBytesWith_cons, escapeByteWith_high by done.
    cbn [app length]. lia.
Qed.

(** The loop escapes and does nothing else exactly on well-formed UTF-8. *)
Lemma escapeLoopWith_exact s :
  escapeLoopWith special s [] = escapeBytesWith special s ↔ ValidUTF8 s.
Proof.
  split.
  - induction s as [|c s Hc IH|b0 b1 s Hwf IH|b0 b1 b2 s Hwf IH
                   |b0 b1 b2 b3 s Hwf IH|c s Hc Hstep Hbad IH]
      using utf8_chunk_ind.
    + constructor.
    + rewrite escapeLoopWith_ascii, escapeBytesWith_cons by done.
      intros Heq%app_inv_head. apply valid_ascii; auto.
    + pose proof Hwf as (? & ?).
      rewrite escapeLoopWith_2, !escapeBytesWith_cons, !escapeByteWith_high
        by (done || lia).
      cbn [app]. intros ?; simplify_eq. apply valid_2; auto.
    + pose proof Hwf as (? & ? & ? & _).
      rewrite escapeLoopWith_3, !escapeBytesWith_cons, !escapeByteWith_high
        by (done || lia).
      cbn [app]. intros ?; simplify_eq. apply valid_3; auto.
    + pose proof Hwf as (? & ? & ? & ? & _).
      rewrite escapeLoopWith_4, !escapeBytesWith_cons, !escapeByteWith_high
        by (done || lia).
      cbn [app]. intros ?; simplify_eq. apply valid_4; auto.
    + rewrite escapeLoopWith_bad, escapeBytesWith_cons, escapeByteWith_high
        by done.
      intros Heq%(f_equal length). cbn [app length] in Heq.
      pose proof (escapeLoopWith_length s). lia.
  - induction 1 as [|b s Hb _ IH|b0 b1 s Hwf _ IH|b0 b1 b2 s Hwf _ IH
                   |b0 b1 b2 b3 s Hwf _ IH].
    + done.
    + by rewrite escapeLoopWith_ascii, escapeBytesWith_cons, IH.
    + pose proof Hwf as (? & ?).
      rewrite escapeLoopWith_2, !escapeBytesWith_cons, !escapeByteWith_high
        by (done || lia).
      by rewrite IH.
    + pose proof Hwf as (? & ? & ? & _).
      rewrite escapeLoopWith_3, !escapeBytesWith_cons, !escapeByteWith_high
        by (done || lia).
      by rewrite IH.
    + pose proof Hwf as (? & ? & ? & ? & _).
      rewrite escapeLoopWith_4, !escapeBytesWith_cons, !escapeByteWith_high
        by (done || lia).
      by rewrite IH.
Qed.

Hypothesis special_backslash : special 92 = true.

Lemma not_special_backslash b :
  special (byteZ b) = false → Byte.eqb b "\" = false.
Proof.
  intros Hb. destruct (Byte.eqb b "\") eqn:Heq; [|done].
  apply Byte.byte_dec_bl in Heq as ->.
  change (byteZ "\") with 92 in Hb. congruence.
Qed.

Lemma escapedUnits_escapeByteWith b s :
  escapedUnits special (escapeByteWith special b ++ s) = escapedUnits special s.
Proof.
  unfold escapeByteWith. destruct (special (byteZ b)) eqn:Hs; cbn [app escapedUnits].
  - by rewrite Hs.
  - by rewrite (not_special_backslash _ Hs), Hs.
Qed.

Lemma unescapeBytes_escapeByteWith b s :
  unescapeBytes (escapeByteWith special b ++ s) = b :: unescapeBytes s.
Proof.
  unfold escapeByteWith. destruct (special (byteZ b)) eqn:Hs; [done|].
  cbn [app unescapeBytes]. by rewrite (not_special_backslash _ Hs).
Qed.

Lemma escapedUnits_high b s :
  128 ≤ byteZ b → escapedUnits special (b :: s) = escapedUnits special s.
Proof.
  intros Hb. rewrite <- (escapedUnits_escapeByteWith b s).
  by rewrite escapeByteWith_high.
Qed.

Lemma escapeBytesWith_units s :
  escapedUnits special (escapeBytesWith special s) = true.
Proof.
  induction s as [|b s IH]; [done|].
  by rewrite escapeBytesWith_cons, escapedUnits_escapeByteWith.
Qed.

Lemma unescapeBytes_escapeBytesWith s :
  unescapeBytes (escapeBytesWith special s) = s.
Proof.
  induction s as [|b s IH]; [done|].
  by rewrite escapeBytesWith_cons, unescapeBytes_escapeByteWith, IH.
Qed.

(** The loop writes escaped units, whatever it reads. *)
Lemma escapeLoopWith_units s :
  escapedUnits special (escapeLoopWith special s []) = true.
Proof.
  induction s as [|c s Hc IH|b0 b1 s Hwf IH|b0 b1 b2 s Hwf IH
                 |b0 b1 b2 b3 s Hwf IH|c s Hc Hstep Hbad IH]
    using utf8_chunk_ind.
  - done.
  - by rewrite escapeLoopWith_ascii, escapedUnits_escapeByteWith.
  - pose proof Hwf as (? & ?). rewrite escapeLoopWith_2 by done. cbn [app].
    by rewrite !escapedUnits_high by lia.
  - pose proof Hwf as (? & ? & ? & _). rewrite escapeLoopWith_3 by done.
    cbn [app]. by rewrite !escapedUnits_high by lia.
  - pose proof Hwf as (? & ? & ? & ? & _). rewrite escapeLoopWith_4 by done.
    cbn [app]. by rewrite !escapedUnits_high by lia.
  - rewrite escapeLoopWith_bad by done. cbn [app].
    by rewrite !escapedUnits_high by done.
Qed.

End EscapeLoop.

(** * More of [globEscape] *)

Lemma isMeta_ascii r : isMeta r = true → 0 ≤ r < 128.
Proof. unfold isMeta. lia. Qed.

Lemma globEscapeSlow_loop s :
  globEscapeSlow s = stringOf (escapeLoopWith isMeta (bytesOf s) []).
Proof. done. Qed.

Lemma escapeBytes_with s : escapeBytes s = escapeBytesWith isMeta s.
Proof.
  induction s as [|b s IH]; [done|].
  unfold escapeBytes, escapeBytesWith in *. rewrite !bind_cons, IH.
  unfold escapeByteWith. by rewrite isMeta_byteZ.
Qed.

Lemma globEscape_bytes_valid (s : string) :
  ValidUTF8 (bytesOf s) → bytesOf (globEscape s) = escapeBytes (bytesOf s).
Proof.
  intros Hv. destruct (globEscape_valid s Hv) as [-> _].
  by rewrite bytesOf_stringOf.
Qed.

(** Property X12.  [globEscape] returns its input with a backslash before
    each of its four metacharacters, and nothing else changed, exactly when
    the input is well-formed UTF-8 or holds no metacharacter. *)
Theorem globEscape_exact_iff (s : string) :
  bytesOf (globEscape s) = escapeBytes (bytesOf s) ↔
  ValidUTF8 (bytesOf s) ∨ ContainsAny s metaChars = false.
Proof.
  split.
  - destruct (ContainsAny s metaChars) eqn:Hany; [|by right].
    unfold globEscape. rewrite Hany. cbn [negb].
    rewrite globEscapeSlow_loop, bytesOf_stringOf, escapeBytes_with.
    intros Heq%(escapeLoopWith_exact isMeta isMeta_ascii). by left.
  - intros [Hv|Hno].
    + by apply globEscape_bytes_valid.
    + rewrite (globEscape_safe s Hno). by rewrite escapeBytes_safe.
Qed.

(** Property X13.  Whatever the input, the result of [globEscape] is made
    of escaped units: each star, question mark, opening bracket and
    backslash in it stands right after a backslash that escapes it, and
    each backslash that escapes has one of these four after it; none is
    left at the end. *)
Theorem globEscape_escaped (s : string) :
  escapedUnits isMeta (bytesOf (globEscape s)) = true.
Proof.
  unfold globEscape. destruct (ContainsAny s metaChars) eqn:Hany; cbn [negb].
  - rewrite globEscapeSlow_loop, bytesOf_stringOf.
    apply escapeLoopWith_units; (apply isMeta_ascii || reflexivity).
  - rewrite <- (escapeBytes_safe (bytesOf s) Hany), escapeBytes_with.
    apply escapeBytesWith_units; (apply isMeta_ascii || reflexivity).
Qed.

(** Property X14.  On well-formed UTF-8, taking the escaping backslashes
    away from the result of [globEscape] gives the input back; so two
    well-formed inputs with the same result are the same. *)
Theorem globEscape_round_trip (s t : string) :
  ValidUTF8 (bytesOf s) →
  unescapeBytes (bytesOf (globEscape s)) = bytesOf s ∧
  (ValidUTF8 (bytesOf t) → globEscape s = globEscape t → s = t).
Proof.
  intros Hs.
  assert (∀ u, ValidUTF8 (bytesOf u) →
               unescapeBytes (bytesOf (globEscape u)) = bytesOf u) as Hround.
  { intros u Hu. rewrite (globEscape_bytes_valid u Hu), escapeBytes_with.
    apply unescapeBytes_escapeBytesWith; (apply isMeta_ascii || reflexivity). }
  split; [by apply Hround|].
  intros Ht Heq. rewrite <- (stringOf_bytesOf s), <- (stringOf_bytesOf t).
  by rewrite <- (Hround s), <- (Hround t), Heq.
Qed.

Lemma globEscape_round_trip_witness :
  unescapeBytes (bytesOf (globEscape "a*[é")) = bytesOf "a*[é" ∧
  (ValidUTF8 (bytesOf "a?") → globEscape "a*[é" = globEscape "a?" →
   "a*[é"%string = "a?"%string).
Proof.
  apply (globEscape_round_trip "a*[é" "a?"). vm_compute. valid_utf8.
Defined.

(** Property X15.  When the input holds a metacharacter, the result of
    [globEscape] is well-formed UTF-8, whatever the input is: each byte the
    decoder rejects has become the three bytes of U+FFFD. *)
Theorem globEscape_sanitizes (s : string) :
  ContainsAny s metaChars = true → ValidUTF8 (bytesOf (globEscape s)).
Proof.
  intros Hany. unfold globEscape. rewrite Hany. cbn [negb].
  rewrite globEscapeSlow_loop, bytesOf_stringOf.
  apply escapeLoopWith_valid, isMeta_ascii.
Qed.

Lemma globEscape_sanitizes_witness :
  ValidUTF8 (bytesOf (globEscape (stringOf [xff; "*"%byte]))).
Proof. apply (globEscape_sanitizes (stringOf [xff; "*"%byte])). reflexivity. Defined.

(** * [exportify] and [exportifyElvish] *)

Lemma trimASCII_nonspace (a : byte) (s : list byte) :
  byteZ a < 128 → asciiSpace a = false → trimASCII (a :: s) = (a :: s, false).
Proof.
  intros Ha Hsa. cbn [trimASCII]. unfold utf8.RuneSelf.
  by rewrite (proj2 (Z.leb_gt 128 (byteZ a))), Hsa by lia.
Qed.

Lemma trimASCII_newline (s : list byte) : trimASCII (x0a :: s) = trimASCII s.
Proof. reflexivity. Qed.

(** From a text that begins and ends with ASCII bytes that are no spaces,
    and has one line feed after it, [TrimSpace] takes the line feed away and
    nothing else. *)
Lemma TrimSpace_strip_newline F1 F2 (a c : byte) (body : list byte) :
  byteZ a < 128 → asciiSpace a = false →
  byteZ c < 128 → asciiSpace c = false →
  TrimSpace F1 F2 ((a :: body) ++ [c; x0a]) = (a :: body) ++ [c].
Proof.
  intros Ha Hsa Hc Hsc. unfold TrimSpace.
  change ((a :: body) ++ [c; x0a]) with (a :: (body ++ [c; x0a])).
  rewrite (trimASCII_nonspace a _ Ha Hsa).
  change (a :: (body ++ [c; x0a])) with ((a :: body) ++ [c; x0a]).
  rewrite reverse_app. change (reverse [c; x0a]) with [x0a; c]. cbn [app].
  rewrite trimASCII_newline, (trimASCII_nonspace c _ Hc Hsc).
  by rewrite reverse_cons, reverse_involutive.
Qed.

Lemma shellSpecial_ascii r : shellSpecial r = true → 0 ≤ r < 128.
Proof. unfold shellSpecial. lia. Qed.

Lemma exportifyRune_escape strb r :
  exportifyRune strb r = escapeRuneWith shellSpecial strb r.
Proof.
  unfold exportifyRune, escapeRuneWith. destruct (shellSpecial r); [|done].
  by rewrite (AppendRune_1 strb 92) by lia.
Qed.

Lemma exportifyValue_escape strb v :
  exportifyValue strb v = strb ++ escapeLoopWith shellSpecial (bytesOf v) [].
Proof.
  unfold exportifyValue, utf8.range.
  rewrite <- (escapeLoopWith_app shellSpecial). unfold escapeLoopWith.
  generalize (utf8.rangeFrom 0 (bytesOf v)). intros rs. revert strb.
  induction rs as [|r rs IH]; intros strb; [done|].
  cbn [fold_left]. by rewrite IH, exportifyRune_escape.
Qed.

Lemma exportifyValue_loop v :
  exportifyValue [] v = escapeLoopWith shellSpecial (bytesOf v) [].
Proof. by rewrite exportifyValue_escape. Qed.


Lemma exportifyEntry_line vars strb k :
  exportifyEntry vars strb k = strb ++ exportLine vars k ++ [x0a].
Proof.
  unfold exportifyEntry, exportLine. cbv zeta.
  rewrite (exportifyValue_escape (_ ++ _)), exportifyValue_loop.
  by rewrite <- !(assoc_L (++)).
Qed.


Lemma fold_lines {A} (entry : list byte → A → list byte) (line : A → list byte) :
  (∀ b k, entry b k = b ++ line k ++ [x0a]) →
  ∀ keys b, fold_left entry keys b = b ++ (keys ≫= λ k, line k ++ [x0a]).
Proof.
  intros Hentry. induction keys as [|k keys IH]; intros b; cbn [fold_left].
  - by rewrite app_nil_r.
  - rewrite IH, Hentry, bind_cons. by rewrite <- !(assoc_L (++)).
Qed.

Lemma joinLines_newline {A} (line : A → list byte) (k : A) (keys : list A) :
  ((k :: keys) ≫= λ k, line k ++ [x0a])
  = joinLines (map line (k :: keys)) ++ [x0a].
Proof.
  cbn [map joinLines]. rewrite bind_cons. rewrite <- !(assoc_L (++)). f_equal.
  induction keys as [|k' keys IH]; [done|].
  cbn [map]. rewrite !bind_cons.
  rewrite <- (assoc_L (++) (x0a :: line k')), <- IH. cbn [app].
  by rewrite <- !(assoc_L (++)).
Qed.

Lemma joinLines_cons (l l' : list byte) (ls : list (list byte)) :
  joinLines (l :: l' :: ls) = l ++ x0a :: joinLines (l' :: ls).
Proof. cbn [joinLines]. by rewrite bind_cons. Qed.

(** What the builder holds after the loop over the keys, once trimmed: the
    lines with a line feed between them. *)
Lemma TrimSpace_lines F1 F2 {A} (line : A → list byte) (keys : list A) :
  (∀ k, ∃ a body c, line k = (a :: body) ++ [c] ∧ byteZ a < 128 ∧
        asciiSpace a = false ∧ byteZ c < 128 ∧ asciiSpace c = false) →
  TrimSpace F1 F2 (keys ≫= λ k, line k ++ [x0a]) = joinLines (map line keys).
Proof.
  intros Hline. destruct keys as [|k keys]; [done|].
  rewrite joinLines_newline.
  assert (∃ a body c, joinLines (map line (k :: keys)) = (a :: body) ++ [c] ∧
            byteZ a < 128 ∧ asciiSpace a = false ∧
            byteZ c < 128 ∧ asciiSpace c = false)
    as (a & body & c & -> & Ha & Hsa & Hc & Hsc).
  { revert k. induction keys as [|k' keys IH]; intros k.
    - cbn. rewrite app_nil_r. apply Hline.
    - destruct (Hline k) as (a & body & c & Hk & Ha & Hsa & _).
      destruct (IH k') as (a' & body' & c' & Hrest & _ & _ & Hc' & Hsc').
      exists a, (body ++ [c] ++ x0a :: a' :: body'), c'.
      split_and!; [|done..].
      cbn [map] in *. rewrite joinLines_cons, Hrest, Hk.
      cbn [app]. rewrite <- !(assoc_L (++)). cbn [app]. done. }
  rewrite <- (assoc_L (++)). by apply TrimSpace_strip_newline.
Qed.

Lemma exportLine_shape vars k :
  ∃ a body c, exportLine vars k = (a :: body) ++ [c] ∧ byteZ a < 128 ∧
    asciiSpace a = false ∧ byteZ c < 128 ∧ asciiSpace c = false.
Proof.
  exists "e"%byte,
    (bytesOf "xport " ++ bytesOf k ++ ["="%byte; x22]
     ++ exportifyValue [] (default ""%string (vars !! k)) ++ [x22]),
    ";"%byte.
  split_and!; [|done..]. unfold exportLine.
  change (bytesOf "export ") with ("e"%byte :: bytesOf "xport ").
  change [x22; ";"%byte] with ([x22] ++ [";"%byte]).
  by rewrite !(assoc_L (++)).
Qed.


Lemma sortStrings_sorted (keys : list string) :
  sortStrings keys ≡ₚ keys ∧ StronglySorted String.le (sortStrings keys).
Proof.
  split; [apply merge_sort_Permutation|].
  apply (StronglySorted_merge_sort String.le); apply _.
Qed.

Lemma sortStrings_perm (keys keys' : list string) :
  keys ≡ₚ keys' → sortStrings keys = sortStrings keys'.
Proof.
  intros Hp. destruct (sortStrings_sorted keys) as [Hp1 Hs1].
  destruct (sortStrings_sorted keys') as [Hp2 Hs2].
  apply (StronglySorted_unique String.le _ _ Hs1 Hs2).
  by rewrite Hp1, Hp2.
Qed.

(** Property X16.  The result of [exportify] is one line for each key the
    loop over the map produced, the lines in ascending order of the keys,
    with a line feed between two lines and none after the last one; a line
    is the word export, the key, an equals sign, the escaped value between
    double quotes, and a semicolon.  [TrimSpace] takes away the last line
    feed and nothing of a key or a value. *)
Theorem exportify_lines (TrimFunc TrimRightFunc : list byte → list byte)
    (order : list string) (vars : gmap string string) :
  ∃ keys, keys ≡ₚ order ∧ StronglySorted String.le keys ∧
    bytesOf (exportify TrimFunc TrimRightFunc order vars)
    = joinLines (map (exportLine vars) keys).
Proof.
  exists (sortStrings order).
  destruct (sortStrings_sorted order) as [Hp Hs]. split_and!; [done..|].
  unfold exportify. cbv zeta. rewrite bytesOf_stringOf.
  rewrite (fold_lines _ _ (exportifyEntry_line vars)), app_nil_l.
  apply TrimSpace_lines, exportLine_shape.
Qed.

(** Property X17.  The results of [exportify] and [exportifyElvish] do not
    depend on the order in which Go produces the keys of the map: two
    orders of the same keys give the same text. *)
Theorem exportify_reproducible (TrimFunc TrimRightFunc : list byte → list byte)
    (order order' : list string) (vars : gmap string string) :
  order ≡ₚ order' →
  exportify TrimFunc TrimRightFunc order vars
  = exportify TrimFunc TrimRightFunc order' vars ∧
  exportifyElvish TrimFunc TrimRightFunc order vars
  = exportifyElvish TrimFunc TrimRightFunc order' vars.
Proof.
  intros Hp. unfold exportify, exportifyElvish.
  by rewrite (sortStrings_perm _ _ Hp).
Qed.

Lemma exportify_reproducible_witness :
  let vars : gmap string string := {["B" := "2"; "A" := "1"]}%string in
  exportify id id ["B"; "A"]%string vars = exportify id id ["A"; "B"]%string vars ∧
  exportifyElvish id id ["B"; "A"]%string vars
  = exportifyElvish id id ["A"; "B"]%string vars.
Proof.
  intros vars.
  apply (exportify_reproducible id id ["B"; "A"]%string ["A"; "B"]%string vars).
  apply perm_swap.
Defined.

(** Property X18.  Whatever the value, what [exportify] writes between the
    double quotes is made of escaped units: each dollar, backquote, double
    quote, backslash and line feed of it stands right after a backslash
    that escapes it, so no double quote ends the quoted text early; and it
    is well-formed UTF-8. *)
Theorem exportifyValue_escaped (v : string) :
  escapedUnits shellSpecial (exportifyValue [] v) = true ∧
  ValidUTF8 (exportifyValue [] v).
Proof.
  rewrite exportifyValue_loop. split.
  - apply escapeLoopWith_units; (apply shellSpecial_ascii || reflexivity).
  - apply escapeLoopWith_valid, shellSpecial_ascii.
Qed.

(** Property X19.  What [exportify] writes for a value is the value with a
    backslash before each dollar, backquote, double quote, backslash and
    line feed, and nothing else changed, exactly when the value is
    well-formed UTF-8; taking the escaping backslashes away then gives the
    value back. *)
Theorem exportifyValue_exact (v : string) :
  (exportifyValue [] v = escapeBytesWith shellSpecial (bytesOf v) ↔
   ValidUTF8 (bytesOf v)) ∧
  (ValidUTF8 (bytesOf v) → unescapeBytes (exportifyValue [] v) = bytesOf v).
Proof.
  rewrite exportifyValue_loop.
  pose proof (escapeLoopWith_exact shellSpecial shellSpecial_ascii (bytesOf v))
    as Hexact.
  split; [done|]. intros Hv. rewrite (proj2 Hexact Hv).
  apply unescapeBytes_escapeBytesWith; (apply shellSpecial_ascii || reflexivity).
Qed.


Example exportify_ex :
  exportify id id ["PATH"; "A"]%string
    {["PATH" := "/bin:$PATH"; "A" := "x y"]}%string
  = stringOf (bytesOf "export A=" ++ [x22] ++ bytesOf "x y" ++ [x22]
              ++ bytesOf ";" ++ [x0a]
              ++ bytesOf "export PATH=" ++ [x22] ++ bytesOf "/bin:\$PATH"
              ++ [x22] ++ bytesOf ";").
Proof. vm_compute. reflexivity. Qed.

Example exportifyElvish_ex :
  exportifyElvish id id ["PATH"; "A"]%string
    {["PATH" := "/bin:$PATH"; "A" := "x y"]}%string
  = stringOf (bytesOf "set-env A " ++ [x22] ++ bytesOf "x y" ++ [x22; x0a]
              ++ bytesOf "set-env PATH " ++ [x22] ++ bytesOf "/bin:$PATH"
              ++ [x22]).
Proof. vm_compute. reflexivity. Qed.

(** * Variables set by devbox *)

Lemma addEnv_lookup new : ∀ order cur k,
  NoDup order →
  (∀ k', k' ∈ order → devboxSetPrefix +:+ k' ∉ order) →
  fold_left (addEnvStep new) order cur !! k =
    if decide (k ∈ order) then
      match cur !! (devboxSetPrefix +:+ k) with
      | Some _ => cur !! k
      | None => Some (default ""%string (new !! k))
      end
    else cur !! k.
Proof.
  induction order as [|k0 order IH]; intros cur k Hnd Hpre; cbn [fold_left].
  - by rewrite decide_False by apply not_elem_of_nil.
  - apply NoDup_cons in Hnd as [Hk0 Hnd].
    rewrite IH; [|done|].
    2:{ intros k' Hk' Hin. apply (Hpre k'); by right. }
    assert (∀ k', k' ≠ k0 → addEnvStep new cur k0 !! k' = cur !! k') as Hother.
    { intros k' Hne. unfold addEnvStep. case_match; [done|].
      by rewrite lookup_insert_ne. }
    destruct (decide (k ∈ order)) as [Hin|Hout].
    + rewrite decide_True by (by right).
      assert (k ≠ k0) as Hne by (by intros ->).
      rewrite !Hother; [done|done|].
      intros Heq. apply (Hpre k); [by right|]. rewrite Heq. by left.
    + destruct (decide (k = k0)) as [->|Hne].
      * rewrite decide_True by (by left). unfold addEnvStep.
        case_match; [done|]. by rewrite lookup_insert_eq.
      * rewrite decide_False by (rewrite elem_of_cons; tauto).
        by apply Hother.
Qed.

(** Property X21.  When no key of [new] is the marker of another key of
    [new] (the prefix [devboxSetPrefix] put before it), the map [existing]
    after [addEnvIfNotPreviouslySetByDevbox] does not depend on the order in
    which Go produces the keys of [new]: a key of [new] whose marker is not
    in [existing] has the value [new] gives it, and every other key has what
    [existing] had for it. *)
Theorem addEnv_result (order : list string) (existing new : gmap string string)
    (k : string) :
  order ≡ₚ (map_to_list new).*1 →
  (∀ k', k' ∈ dom new → devboxSetPrefix +:+ k' ∉ dom new) →
  addEnvIfNotPreviouslySetByDevbox order existing new !! k =
    match new !! k, existing !! (devboxSetPrefix +:+ k) with
    | Some v, None => Some v
    | _, _ => existing !! k
    end.
Proof.
  intros Hp Hpre.
  assert (∀ k', k' ∈ order ↔ k' ∈ dom new) as Hdom.
  { intros k'. rewrite Hp, elem_of_dom. unfold is_Some.
    rewrite list_elem_of_fmap. split.
    - intros ([k1 v] & -> & Hin%elem_of_map_to_list). by exists v.
    - intros (v & Hv). exists (k', v). split; [done|].
      by apply elem_of_map_to_list. }
  unfold addEnvIfNotPreviouslySetByDevbox. rewrite addEnv_lookup.
  - destruct (decide (k ∈ order)) as [Hin|Hout].
    + apply Hdom, elem_of_dom in Hin as [v ->]. by case_match.
    + rewrite Hdom, not_elem_of_dom in Hout. by rewrite Hout.
  - rewrite Hp. apply NoDup_fst_map_to_list.
  - intros k'. rewrite !Hdom. apply Hpre.
Qed.

Lemma addEnv_result_witness :
  addEnvIfNotPreviouslySetByDevbox ["EDITOR"%string] demoExisting demoNew
    !! "EDITOR"%string
  = match demoNew !! "EDITOR"%string,
          demoExisting !! (devboxSetPrefix +:+ "EDITOR")%string with
    | Some v, None => Some v
    | _, _ => demoExisting !! "EDITOR"%string
    end.
Proof.
  apply (addEnv_result ["EDITOR"%string] demoExisting demoNew "EDITOR"%string).
  - unfold demoNew. by rewrite map_to_list_singleton.
  - unfold demoNew. intros k' Hk'. rewrite dom_singleton in *.
    apply elem_of_singleton in Hk' as ->. rewrite elem_of_singleton.
    discriminate.
Defined.

(** Without that condition the order matters: with the variable X and its
    own marker in [new], X is set when the loop produces it first, and is
    not when the loop produces the marker first. *)
Example addEnv_order_matters :
  let new : gmap string string :=
    {["X" := "1"; "__DEVBOX_SET_X" := "1"]}%string in
  addEnvIfNotPreviouslySetByDevbox ["X"; "__DEVBOX_SET_X"]%string ∅ new
    !! "X"%string = Some "1"%string ∧
  addEnvIfNotPreviouslySetByDevbox ["__DEVBOX_SET_X"; "X"]%string ∅ new
    !! "X"%string = None.
Proof. vm_compute. done. Qed.

(** A variable marked as set by devbox is not touched. *)
Lemma addEnv_keeps new : ∀ order cur k,
  is_Some (cur !! (devboxSetPrefix +:+ k)) →
  fold_left (addEnvStep new) order cur !! k = cur !! k ∧
  is_Some (fold_left (addEnvStep new) order cur !! (devboxSetPrefix +:+ k)).
Proof.
  induction order as [|k0 order IH]; intros cur k Hset; cbn [fold_left]; [done|].
  assert (is_Some (addEnvStep new cur k0 !! (devboxSetPrefix +:+ k))) as Hset'.
  { unfold addEnvStep. case_match; [done|].
    destruct (decide (k0 = devboxSetPrefix +:+ k)) as [->|Hne].
    - by rewrite lookup_insert_eq.
    - by rewrite lookup_insert_ne. }
  destruct (IH _ k Hset') as [-> Hfinal]. split; [|done].
  unfold addEnvStep. case_match eqn:Hm; [done|].
  rewrite lookup_insert_ne; [done|]. intros ->.
  rewrite Hm in Hset. by destruct Hset.
Qed.

Lemma marked_refl env : marked env env.
Proof. split; intros k v Hk; by left. Qed.

Lemma marked_trans env1 env2 env3 :
  marked env1 env2 → marked env2 env3 → marked env1 env3.
Proof.
  intros [H12 H21] [H23 H32]. split.
  - intros k v Hk. destruct (H12 _ _ Hk) as [Hk2|Hk2];
      destruct (H23 _ _ Hk2); auto.
  - intros k v Hk. destruct (H32 _ _ Hk) as [Hk2|]; [|by right].
    by apply H21.
Qed.

Lemma marked_insert env key :
  marked env (<[devboxSetPrefix +:+ key := "1"%string]> env).
Proof.
  split; intros k v;
    (destruct (decide (devboxSetPrefix +:+ key = k)) as [->|Hne];
     [rewrite lookup_insert_eq|rewrite lookup_insert_ne by done]).
  - by right.
  - by left.
  - intros ?; simplify_eq. by right.
  - by left.
Qed.

Lemma markRange_marked start env visited env' :
  markRange start env visited env' → marked env env'.
Proof.
  induction 1 as [env visited Hall|env visited key env' Hkey Hfresh _ IH].
  - apply marked_refl.
  - eapply marked_trans; [apply marked_insert|done].
Qed.

(** However the loop runs, at its end every key the map had at the
    beginning has its marker. *)
Lemma markRange_invariant start env visited env' :
  markRange start env visited env' →
  (∀ k, k ∈ visited → env !! (devboxSetPrefix +:+ k) = Some "1"%string) →
  ∀ k, k ∈ dom start → env' !! (devboxSetPrefix +:+ k) = Some "1"%string.
Proof.
  induction 1 as [env visited Hall|env visited key env' Hkey Hfresh _ IH];
    intros Hvis.
  - intros k Hk. by apply Hvis, Hall.
  - apply IH.
    intros k [->|Hk]%elem_of_cons; [by rewrite lookup_insert_eq|].
    destruct (decide (devboxSetPrefix +:+ key = devboxSetPrefix +:+ k))
      as [->|Hne].
    + by rewrite lookup_insert_eq.
    + rewrite lookup_insert_ne by done. by apply Hvis.
Qed.

Lemma markRange_marks env env' k :
  markRange env env [] env' → k ∈ dom env →
  env' !! (devboxSetPrefix +:+ k) = Some "1"%string.
Proof.
  intros Hrun. apply (markRange_invariant _ _ _ _ Hrun).
  by intros k' ?%elem_of_nil.
Qed.

(** The loop can run to its end: so it does when it produces the entries
    the map had at the beginning, and no other. *)
Lemma markRange_inOrder start : ∀ keys env visited,
  NoDup keys →
  (∀ k, k ∈ keys → k ∈ dom env ∧ k ∉ visited) →
  (∀ k, k ∈ dom start → k ∈ visited ∨ k ∈ keys) →
  markRange start env visited (markInOrder keys env).
Proof.
  induction keys as [|key keys IH]; intros env visited Hnd Hkeys Hall.
  - apply markRange_end. intros k Hk.
    destruct (Hall k Hk) as [?|?%elem_of_nil]; done.
  - apply NoDup_cons in Hnd as [Hkey Hnd].
    destruct (Hkeys key) as [Hin Hfresh]; [left|].
    apply (markRange_next _ _ _ key); [done..|].
    apply IH; [done| |].
    + intros k Hk. destruct (Hkeys k) as [Hk1 Hk2]; [by right|]. split.
      * apply dom_insert, elem_of_union. by right.
      * rewrite not_elem_of_cons. split; [by intros ->|done].
    + intros k Hk. destruct (Hall k Hk) as [?|[->|?]%elem_of_cons].
      * left. by right.
      * left. left.
      * by right.
Qed.

Lemma markRange_total env :
  markRange env env [] (markInOrder (map_to_list env).*1 env).
Proof.
  apply markRange_inOrder.
  - apply NoDup_fst_map_to_list.
  - intros k ([k' v] & -> & Hin%elem_of_map_to_list)%list_elem_of_fmap.
    split; [by apply elem_of_dom|apply not_elem_of_nil].
  - intros k [v Hv]%elem_of_dom. right. apply list_elem_of_fmap.
    exists (k, v). split; [done|]. by apply elem_of_map_to_list.
Qed.

(** [markEnvsAsSetByDevbox] returns for every list of maps. *)
Lemma markEnvs_total (heap : list (gmap string string)) (envs : list nat) :
  Forall (λ ref, (ref < length heap)%nat) envs →
  ∃ heap', markEnvsAsSetByDevbox heap envs heap'.
Proof.
  revert heap. induction envs as [|ref envs IH]; intros heap Hrefs.
  - exists heap. constructor.
  - apply Forall_cons in Hrefs as [Href Hrefs].
    destruct (lookup_lt_is_Some_2 heap ref Href) as [env Henv].
    destruct (IH (<[ref := markInOrder (map_to_list env).*1 env]> heap))
      as [heap' Hrun].
    { by rewrite length_insert. }
    exists heap'. eapply markEnvs_cons; [done|apply markRange_total|done].
Qed.

Lemma markEnvs_heap heap envs heap' :
  markEnvsAsSetByDevbox heap envs heap' →
  ∀ ref env, heap !! ref = Some env →
  ∃ env', heap' !! ref = Some env' ∧ marked env env' ∧
    (ref ∈ envs →
     ∀ k, k ∈ dom env → env' !! (devboxSetPrefix +:+ k) = Some "1"%string).
Proof.
  induction 1 as [heap|heap ref0 envs env0 env1 heap' Href0 Hrun _ IH];
    intros ref env Href.
  - exists env. split_and!; [done|apply marked_refl|by intros ?%elem_of_nil].
  - destruct (decide (ref = ref0)) as [->|Hne].
    + simplify_eq.
      destruct (IH ref0 env1) as (env' & Hfinal & Hmarked & _).
      { apply list_lookup_insert_eq. by eapply lookup_lt_Some. }
      exists env'. split_and!; [done| |].
      * eapply marked_trans; [by eapply markRange_marked|done].
      * intros _ k Hk.
        pose proof (markRange_marks _ _ k Hrun Hk) as Hmark.
        destruct (proj1 Hmarked _ _ Hmark); done.
    + destruct (IH ref env) as (env' & Hfinal & Hmarked & Hmarks).
      { by rewrite list_lookup_insert_ne. }
      exists env'. split_and!; [done..|].
      intros [?|Hin]%elem_of_cons; [done|]. by apply Hmarks.
Qed.

(** Property X22.  However Go runs the loops of [markEnvsAsSetByDevbox],
    whether or not they produce the markers they create, and also when the
    same map is given twice: afterwards every key a map had at the call has
    its marker with the value 1; an entry the map had keeps its value or has
    the value 1, and an entry it did not have has the value 1. *)
Theorem markEnvs_marks (heap heap' : list (gmap string string))
    (envs : list nat) (ref : nat) (env : gmap string string) (k : string) :
  markEnvsAsSetByDevbox heap envs heap' →
  ref ∈ envs → heap !! ref = Some env → k ∈ dom env →
  ∃ env', heap' !! ref = Some env' ∧
    env' !! (devboxSetPrefix +:+ k) = Some "1"%string ∧
    (∀ k' v, env !! k' = Some v →
             env' !! k' = Some v ∨ env' !! k' = Some "1"%string) ∧
    (∀ k' v, env' !! k' = Some v → env !! k' = Some v ∨ v = "1"%string).
Proof.
  intros Hrun Hin Href Hk.
  destruct (markEnvs_heap _ _ _ Hrun ref env Href)
    as (env' & Hfinal & [Hkeep Hnew] & Hmarks).
  exists env'. split_and!; [done|by apply Hmarks|done..].
Qed.

Lemma markEnvs_marks_witness :
  ∃ env', <[0%nat := markInOrder (map_to_list demoExisting).*1 demoExisting]>
            demoHeap !! 0%nat = Some env' ∧
    env' !! (devboxSetPrefix +:+ "HOME")%string = Some "1"%string ∧
    (∀ k' v, demoExisting !! k' = Some v →
             env' !! k' = Some v ∨ env' !! k' = Some "1"%string) ∧
    (∀ k' v, env' !! k' = Some v → demoExisting !! k' = Some v ∨ v = "1"%string).
Proof.
  apply (markEnvs_marks demoHeap _ [0%nat] 0%nat demoExisting "HOME"%string).
  - eapply markEnvs_cons; [reflexivity|apply markRange_total|apply markEnvs_nil].
  - left.
  - reflexivity.
  - apply elem_of_dom. eexists. reflexivity.
Defined.

(** Property X23.  After [markEnvsAsSetByDevbox] on a map, a call of
    [addEnvIfNotPreviouslySetByDevbox] with this map as [existing] leaves
    every variable the map had when it was marked as it is, whatever [new]
    holds and in whatever order its keys are produced. *)
Theorem addEnv_after_mark (heap heap' : list (gmap string string))
    (envs : list nat) (ref : nat) (env env1 new : gmap string string)
    (order : list string) (k : string) :
  markEnvsAsSetByDevbox heap envs heap' →
  ref ∈ envs → heap !! ref = Some env → heap' !! ref = Some env1 →
  k ∈ dom env →
  addEnvIfNotPreviouslySetByDevbox order env1 new !! k = env1 !! k.
Proof.
  intros Hrun Hin Href Hfinal Hk.
  destruct (markEnvs_heap _ _ _ Hrun ref env Href) as (env' & Hfinal' & _ & Hmarks).
  simplify_eq. apply addEnv_keeps. rewrite (Hmarks Hin k Hk). by eexists.
Qed.

Lemma addEnv_after_mark_witness :
  addEnvIfNotPreviouslySetByDevbox ["EDITOR"%string]
    (markInOrder (map_to_list demoExisting).*1 demoExisting) demoNew
    !! "EDITOR"%string
  = markInOrder (map_to_list demoExisting).*1 demoExisting !! "EDITOR"%string.
Proof.
  apply (addEnv_after_mark demoHeap
           (<[0%nat := markInOrder (map_to_list demoExisting).*1 demoExisting]>
              demoHeap)
           [0%nat] 0%nat demoExisting).
  - eapply markEnvs_cons; [reflexivity|apply markRange_total|apply markEnvs_nil].
  - left.
  - reflexivity.
  - reflexivity.
  - apply elem_of_dom. eexists. reflexivity.
Defined.
